(** * Contract analysis and comparison engine: a shallow embedding

    The development follows the JavaScript sources of the document
    processor ([splitIntoClause], [detectDocumentType]), the analyzer
    ([AIAnalyzer]: scheduler, rules engine, clause analyzer, glossary,
    comparison engine) and the analysis routes (pages, risk distribution,
    summary).

    Conventions.
    - A JavaScript string is the list of its UTF-16 code units ([jsstr]);
      literals are written [js "..."].
    - Regular expressions are terms of [regex], run by a backtracking
      matcher that explores alternatives in the order ECMAScript does;
      [match], [replace] and [split] are built on it.
    - Code that can throw returns a [result]; a loop whose termination
      depends on its arguments takes fuel and returns [None] when the
      fuel runs out.
    - The external model is an input: its replies are data handed to the
      functions that consume them.  So is time for the scheduler: the
      clock, the duration of the calls and the lateness of the timers.
    - Storage, text extraction and the prompts are left out; the
      collation of [localeCompare] is a parameter of [buildGlossary]. *)

From Stdlib Require Import ZArith NArith Lia Ascii String List Permutation.
From stdpp Require Import base list gmap.

(** ** Strings *)

Module JS.

Local Open Scope N_scope.

Definition jsstr := list N.

Fixpoint js (s : string) : jsstr :=
  match s with
  | EmptyString => []
  | String a s' => N_of_ascii a :: js s'
  end.

Definition inRange (lo hi c : N) : bool := (lo <=? c) && (c <=? hi).

Definition isDigit (c : N) : bool := inRange 48 57 c.

(** LF, CR, LS, PS. *)
Definition isLineTerminator (c : N) : bool :=
  (c =? 10) || (c =? 13) || (c =? 8232) || (c =? 8233).

(** The class [\s], also the set removed by [trim]: WhiteSpace and
    LineTerminator of ECMAScript. *)
Definition isSpace (c : N) : bool :=
  inRange 9 13 c || (c =? 32) || (c =? 160) || (c =? 5760)
  || inRange 8192 8202 c || (c =? 8232) || (c =? 8233) || (c =? 8239)
  || (c =? 8287) || (c =? 12288) || (c =? 65279).

Definition isUpper (c : N) : bool := inRange 65 90 c.
Definition isLower (c : N) : bool := inRange 97 122 c.

(** [toLowerCase], code unit by code unit.  It is exact on Basic Latin and
    on the two code units outside it whose lower-case form contains a Basic
    Latin letter (U+0130, U+212A); the other code units are left as they
    are.  The model is thus exact on texts in Basic Latin, and on every
    text as far as the presence of a Basic Latin word in its lower-case
    form goes, which is all the keyword tables ask. *)
Definition lowerUnit (c : N) : jsstr :=
  if isUpper c then [c + 32]
  else if c =? 304 then [105; 775]
  else if c =? 8490 then [107]
  else [c].

Definition toLowerCase (s : jsstr) : jsstr := flat_map lowerUnit s.

(** [w] is a prefix of [s]. *)
Fixpoint startsWith (w s : jsstr) : bool :=
  match w, s with
  | [], _ => true
  | _ :: _, [] => false
  | a :: w', b :: s' => (a =? b) && startsWith w' s'
  end.

(** [s.includes(w)] *)
Fixpoint includes (s w : jsstr) : bool :=
  startsWith w s ||
  match s with
  | [] => false
  | _ :: s' => includes s' w
  end.

Fixpoint dropWhile (p : N -> bool) (s : jsstr) : jsstr :=
  match s with
  | [] => []
  | c :: s' => if p c then dropWhile p s' else s
  end.

Definition dropSpace (s : jsstr) : jsstr := dropWhile isSpace s.

(** [s.trim()] *)
Definition trim (s : jsstr) : jsstr := rev (dropSpace (rev (dropSpace s))).

(** [l.join(sep)] *)
Fixpoint join (sep : jsstr) (l : list jsstr) : jsstr :=
  match l with
  | [] => []
  | [x] => x
  | x :: l' => x ++ sep ++ join sep l'
  end.

(** [s.substring(0, n)] *)
Definition substring0 (n : nat) (s : jsstr) : jsstr := firstn n s.

Definition eqb (a b : jsstr) : bool := bool_decide (a = b).

(** Decimal digits of a natural number, as [String(n)] prints it. *)
Fixpoint digitsAux (fuel : nat) (n : N) (acc : jsstr) : jsstr :=
  match fuel with
  | O => acc
  | S f =>
      let acc' := (48 + n mod 10) :: acc in
      if n <? 10 then acc' else digitsAux f (n / 10) acc'
  end.

Definition ofN (n : N) : jsstr := digitsAux (S (N.to_nat (N.log2 n))) n [].

Definition ofNat (n : nat) : jsstr := ofN (N.of_nat n).

(** The value of a run of decimal digits. *)
Definition digitsValue (s : jsstr) : N :=
  fold_left (fun acc c => 10 * acc + (c - 48)) s 0.

(** [parseInt(s)] on the strings the program passes to it: leading white
    space is skipped and the longest run of decimal digits is read; no run,
    no number ([NaN] is [None]). *)
Fixpoint takeDigits (s : jsstr) : jsstr :=
  match s with
  | c :: s' => if isDigit c then c :: takeDigits s' else []
  | [] => []
  end.

Definition parseInt (s : jsstr) : option N :=
  match takeDigits (dropSpace s) with
  | [] => None
  | ds => Some (digitsValue ds)
  end.

(** [n.toLocaleString()] in the en-US locale of the runtime: groups of
    three digits separated by commas. *)
Fixpoint groupRev (s : jsstr) : jsstr :=
  match s with
  | a :: b :: c :: ((_ :: _) as rest) => a :: b :: c :: 44 :: groupRev rest
  | _ => s
  end.

Definition toLocaleString (n : N) : jsstr := rev (groupRev (rev (ofN n))).

End JS.

Export JS.

(** ** Regular expressions *)

Module Regex.

Local Open Scope N_scope.

Inductive regex : Type :=
| Eps
| Class (p : N -> bool)
| Seq (r1 r2 : regex)
| Alt (r1 r2 : regex)
| Star (greedy : bool) (r : regex).

(** The iterations of a star over the matcher [m] of its body; [n] bounds
    their number by the length of the text, which every accepted iteration
    shortens. *)
Fixpoint starLoop {A : Type} (m : jsstr -> (jsstr -> option A) -> option A)
  (greedy : bool) (k : jsstr -> option A) (n : nat) (s : jsstr) {struct n}
  : option A :=
  match n with
  | O => k s
  | S n' =>
      let again := fun s' =>
        if (length s' <? length s)%nat then starLoop m greedy k n' s' else None in
      if greedy then
        match m s again with
        | Some x => Some x
        | None => k s
        end
      else
        match k s with
        | Some x => Some x
        | None => m s again
        end
  end.

(** The matcher, in continuation-passing style: [rmatch r s k] matches a
    prefix of [s] against [r] and hands the rest to [k]; when [k] refuses,
    the next alternative is tried.  A greedy star tries one more iteration
    before stopping, a lazy one stops first; an iteration that consumes
    nothing is refused, as in ECMAScript's RepeatMatcher. *)
Fixpoint rmatch {A : Type} (r : regex) (s : jsstr) (k : jsstr -> option A)
  {struct r} : option A :=
  match r with
  | Eps => k s
  | Class p =>
      match s with
      | c :: s' => if p c then k s' else None
      | [] => None
      end
  | Seq r1 r2 => rmatch r1 s (fun s' => rmatch r2 s' k)
  | Alt r1 r2 =>
      match rmatch r1 s k with
      | Some x => Some x
      | None => rmatch r2 s k
      end
  | Star greedy r' => starLoop (fun s' k' => rmatch r' s' k') greedy k (length s) s
  end.

Definition Plus (r : regex) : regex := Seq r (Star true r).
Definition Opt (r : regex) : regex := Alt r Eps.
Definition chr (c : N) : regex := Class (N.eqb c).

(** A letter under the [i] flag matches its two cases. *)
Definition chri (c : N) : regex :=
  Class (fun x =>
    if isUpper c then (x =? c) || (x =? c + 32)
    else if isLower c then (x =? c) || (x =? c - 32)
    else x =? c).

Fixpoint lit (s : jsstr) : regex :=
  match s with
  | [] => Eps
  | [c] => chr c
  | c :: s' => Seq (chr c) (lit s')
  end.

Fixpoint liti (s : jsstr) : regex :=
  match s with
  | [] => Eps
  | [c] => chri c
  | c :: s' => Seq (chri c) (liti s')
  end.

Definition digit : regex := Class isDigit.
Definition space : regex := Class isSpace.
(** [.] *)
Definition dot : regex := Class (fun c => negb (isLineTerminator c)).

(** The text matched, given the input and what the match left. *)
Definition consumed (s rest : jsstr) : jsstr :=
  firstn (length s - length rest) s.

(** A match that starts exactly at the head of [s]: what is left. *)
Definition matchHere (r : regex) (s : jsstr) : option jsstr := rmatch r s Some.

(** [RegExp.prototype.exec] from the head of [s]: the first position where
    a match starts; returns the matched text and the rest. *)
Fixpoint exec (r : regex) (s : jsstr) : option (jsstr * jsstr) :=
  match matchHere r s with
  | Some rest => Some (consumed s rest, rest)
  | None =>
      match s with
      | [] => None
      | _ :: s' => exec r s'
      end
  end.

(** [s.match(r)] without the [g] flag: element 0 of the result. *)
Definition matchFirst (r : regex) (s : jsstr) : option jsstr :=
  match exec r s with
  | Some (m, _) => Some m
  | None => None
  end.

(** [s.match(r)] with the [g] flag: the matched texts, [None] for [null].
    After an empty match the search resumes one code unit further. *)
Fixpoint matchesFrom (fuel : nat) (r : regex) (s : jsstr) : list jsstr :=
  match fuel with
  | O => []
  | S f =>
      match exec r s with
      | None => []
      | Some (m, rest) =>
          match m, rest with
          | [], [] => [m]
          | [], _ :: rest' => m :: matchesFrom f r rest'
          | _, _ => m :: matchesFrom f r rest
          end
      end
  end.

Definition matchAll (r : regex) (s : jsstr) : option (list jsstr) :=
  match matchesFrom (S (length s)) r s with
  | [] => None
  | l => Some l
  end.

(** [s.replace(r, rep)] with the [g] flag and a replacement free of [$]. *)
Fixpoint replaceFrom (fuel : nat) (r : regex) (rep s : jsstr) : jsstr :=
  match fuel with
  | O => s
  | S f =>
      match matchHere r s with
      | Some rest =>
          if (length rest <? length s)%nat then rep ++ replaceFrom f r rep rest
          else
            match s with
            | [] => rep
            | c :: s' => rep ++ c :: replaceFrom f r rep s'
            end
      | None =>
          match s with
          | [] => []
          | c :: s' => c :: replaceFrom f r rep s'
          end
      end
  end.

Definition replaceAll (r : regex) (rep s : jsstr) : jsstr :=
  replaceFrom (S (length s)) r rep s.

(** [s.split(r)] for a pattern without capture groups.  [acc] is the text
    from the end of the last separator ([p]) to the position tried ([q]),
    [s] the text from [q] on. *)
Fixpoint splitFrom (fuel : nat) (r : regex) (acc s : jsstr) : list jsstr :=
  match fuel with
  | O => [acc ++ s]
  | S f =>
      match s with
      | [] => [acc]
      | c :: s' =>
          match matchHere r s with
          | None => splitFrom f r (acc ++ [c]) s'
          | Some rest =>
              match acc, (length rest =? length s)%nat with
              | [], true => splitFrom f r (acc ++ [c]) s'
              | _, _ => acc :: splitFrom f r [] rest
              end
          end
      end
  end.

Definition split (r : regex) (s : jsstr) : list jsstr :=
  match s with
  | [] => match matchHere r [] with Some _ => [] | None => [[]] end
  | _ => splitFrom (2 * length s + 2) r [] s
  end.

End Regex.

Export Regex.

(** ** Clause segmenter (documentProcessor.splitIntoClause) *)

Module DocumentProcessor.

Local Open Scope Z_scope.

Record ClauseUnit : Type := mkClauseUnit {
  index : nat;
  text : jsstr;
  wordCount : nat;
  estimatedTokens : Z
}.

(** [/\s+/] *)
Definition reSpaces : regex := Plus space.

(** The clause indicators, in the order of the source. *)
Definition reNumbered : regex :=          (* /\n\s*\d+\.\s+/g *)
  Seq (chr 10) (Seq (Star true space) (Seq (Plus digit) (Seq (chr 46) (Plus space)))).
Definition reLettered : regex :=          (* /\n\s*\([a-z]\)\s+/g *)
  Seq (chr 10) (Seq (Star true space)
    (Seq (chr 40) (Seq (Class isLower) (Seq (chr 41) (Plus space))))).
Definition reKeyword (word : string) : regex :=   (* /\n\s*Word\s+\d+/gi *)
  Seq (chr 10) (Seq (Star true space) (Seq (liti (js word)) (Seq (Plus space) (Plus digit)))).
Definition reParagraph : regex :=         (* /\.\s*\n\s*[A-Z]/g *)
  Seq (chr 46) (Seq (Star true space) (Seq (chr 10) (Seq (Star true space) (Class isUpper)))).

Definition clauseIndicators : list regex :=
  [ reNumbered; reLettered; reKeyword "Article"; reKeyword "Section";
    reKeyword "Clause"; reParagraph ].

(** [text.replace(/\s+/g, ' ').replace(/\n+/g, '\n').trim()] *)
Definition cleanText (text : jsstr) : jsstr :=
  trim (replaceAll (Plus (chr 10)) [10%N] (replaceAll reSpaces [32%N] text)).

Definition nonBlank (s : jsstr) : bool := (0 <? length (trim s))%nat.

(** One pass of [clauseIndicators.forEach]: every clause is split on the
    pattern and the blank pieces are dropped. *)
Definition applyIndicator (clauses : list jsstr) (pattern : regex) : list jsstr :=
  flat_map (fun clause => List.filter nonBlank (split pattern clause)) clauses.

Definition splitByIndicators (clean : jsstr) : list jsstr :=
  fold_left applyIndicator clauseIndicators [clean].

(** Numbers.  [maxTokens] is an integer; [n * 1.3 <= maxTokens] then holds
    in double arithmetic exactly when [13 n <= 10 maxTokens],
    [Math.floor(maxTokens / 1.3)] is the integer quotient of [10 maxTokens]
    by [13], and [Math.round(n * 1.3)] is the quotient of [13 n + 5] by
    [10]. *)
Definition fitsBudget (n : nat) (maxTokens : Z) : bool :=
  13 * Z.of_nat n <=? 10 * maxTokens.
Definition chunkSizeOf (maxTokens : Z) : Z := (10 * maxTokens) / 13.
Definition roundTokens (n : nat) : Z := (13 * Z.of_nat n + 5) / 10.

(** [Array.prototype.slice(b, e)]: a negative bound counts from the end. *)
Definition slice {A : Type} (l : list A) (b e : Z) : list A :=
  let len := Z.of_nat (length l) in
  let from := if b <? 0 then Z.max (len + b) 0 else Z.min b len in
  let upto := if e <? 0 then Z.max (len + e) 0 else Z.min e len in
  firstn (Z.to_nat (upto - from)) (skipn (Z.to_nat from) l).

(** [finalClauses.push({ index: finalClauses.length, ... })] *)
Definition pushUnit (final : list ClauseUnit) (t : jsstr) (words : nat) : list ClauseUnit :=
  final ++ [ mkClauseUnit (length final) t words (roundTokens words) ].

(** [for (let i = 0; i < words.length; i += chunkSize)]: one unit of fuel
    per iteration, [None] when the fuel is spent before the loop exits. *)
Fixpoint chunkLoop (fuel : nat) (words : list jsstr) (chunkSize i : Z)
  (final : list ClauseUnit) : option (list ClauseUnit) :=
  match fuel with
  | O => None
  | S f =>
      if i <? Z.of_nat (length words) then
        let chunk := join [32%N] (slice words i (i + chunkSize)) in
        let final' :=
          if nonBlank chunk
          then pushUnit final (trim chunk) (length (split reSpaces chunk))
          else final in
        chunkLoop f words chunkSize (i + chunkSize) final'
      else Some final
  end.

(** The body of [clauses.forEach((clause, index) => ...)]. *)
Definition sliceClause (fuel : nat) (maxTokens : Z) (final : list ClauseUnit)
  (clause : jsstr) : option (list ClauseUnit) :=
  let words := split reSpaces (trim clause) in
  if fitsBudget (length words) maxTokens
  then Some (pushUnit final (trim clause) (length words))
  else chunkLoop fuel words (chunkSizeOf maxTokens) 0 final.

Fixpoint sliceClauses (fuel : nat) (maxTokens : Z) (final : list ClauseUnit)
  (clauses : list jsstr) : option (list ClauseUnit) :=
  match clauses with
  | [] => Some final
  | clause :: rest =>
      match sliceClause fuel maxTokens final clause with
      | Some final' => sliceClauses fuel maxTokens final' rest
      | None => None
      end
  end.

(** [splitIntoClause(text, maxTokens)].  The [try] of the source guards
    against a [text] that is not a string; on strings nothing in its body
    throws. *)
Definition splitIntoClause (fuel : nat) (text : jsstr) (maxTokens : Z)
  : option (list ClauseUnit) :=
  if negb (nonBlank text) then Some []
  else sliceClauses fuel maxTokens [] (splitByIndicators (cleanText text)).

Definition defaultMaxTokens : Z := 1000.

(** *** Document type (documentProcessor.detectDocumentType) *)

(** The table [patterns], in the order of its keys.  Every pattern is a
    word under the [i] flag: it matches the word whatever the case of its
    letters. *)
Definition typePatterns : list (jsstr * list jsstr) :=
  map (fun p => (js (fst p), map js (snd p)))
  [ ("rental_agreement",
     ["rent"; "lease"; "tenant"; "landlord"; "property"; "premises"]);
    ("loan_contract",
     ["loan"; "borrow"; "lender"; "interest"; "principal"; "collateral"]);
    ("terms_of_service",
     ["terms of service"; "user agreement"; "privacy policy"; "website"; "service"]);
    ("employment_contract",
     ["employment"; "employee"; "employer"; "salary"; "position"; "job"]) ]%string.

(** [text.match(pattern)] for a pattern without the [g] flag and without
    groups is an array of one element, or [null]: what a match adds to
    the score is [matches.length], that is 1. *)
Definition matchesLength (pattern : regex) (text : jsstr) : nat :=
  match matchFirst pattern text with
  | Some _ => 1
  | None => 0
  end.

(** [patterns[type].forEach(pattern => ...)] *)
Definition scoreOf (text : jsstr) (words : list jsstr) : nat :=
  fold_left (fun score word => (score + matchesLength (liti word) text)%nat) words 0%nat.

Definition scoresOf (text : jsstr) : list (jsstr * nat) :=
  map (fun entry => (fst entry, scoreOf text (snd entry))) typePatterns.

(** [Math.max(...Object.values(scores))] *)
Definition maxScoreOf (scores : list (jsstr * nat)) : nat :=
  fold_right Nat.max 0%nat (map snd scores).

Definition detectDocumentType (text : jsstr) : jsstr :=
  let scores := scoresOf text in
  let maxScore := maxScoreOf scores in
  if (maxScore =? 0)%nat then js "other"
  else
    match List.find (fun entry => (snd entry =? maxScore)%nat) scores with
    | Some entry => fst entry
    | None => js "other"
    end.

End DocumentProcessor.

(** ** Exceptions *)

Inductive jsError : Type :=
| Error (message : jsstr)
| ReferenceError (message : jsstr).

Inductive result (A : Type) : Type :=
| Ok (a : A)
| Throw (e : jsError).

Arguments Ok {A} a.
Arguments Throw {A} e.

#[export] Instance result_ret : MRet result := fun A a => Ok a.
#[export] Instance result_bind : MBind result := fun A B f c =>
  match c with
  | Ok a => f a
  | Throw e => Throw e
  end.

Definition errorMessage (e : jsError) : jsstr :=
  match e with
  | Error m => m
  | ReferenceError m => m
  end.

(** ** The analyzer (class AIAnalyzer) *)

Module AIAnalyzer.

(** *** Risk rules engine *)

Definition riskKeywordsHigh : list jsstr := map js
  [ "penalty"; "seize"; "collateral"; "waiver"; "indemnity"; "forfeit";
    "liquidated damages"; "acceleration"; "default"; "breach";
    "termination without cause"; "unlimited liability"; "personal guarantee";
    "cross-default"; "material adverse change"; "force majeure exclusion" ]%string.

Definition riskKeywordsMedium : list jsstr := map js
  [ "late fee"; "interest rate"; "security deposit"; "arbitration";
    "jurisdiction"; "governing law"; "assignment"; "modification";
    "notice period"; "renewal terms"; "insurance requirements";
    "compliance obligations"; "reporting requirements" ]%string.

Definition riskKeywordsLow : list jsstr := map js
  [ "payment terms"; "delivery"; "warranty"; "maintenance";
    "standard terms"; "mutual agreement"; "good faith";
    "reasonable efforts"; "business days"; "written notice" ]%string.

Record RulesVerdict : Type := mkRulesVerdict {
  riskLevel : jsstr;
  riskScore : nat;
  detectedKeywords : list jsstr
}.

(** One [keywords.forEach]: every keyword found in [text] adds [weight] to
    the score and is pushed on the list. *)
Definition scanKeywords (weight : nat) (keywords : list jsstr) (text : jsstr)
  (acc : nat * list jsstr) : nat * list jsstr :=
  fold_left (fun a keyword =>
    if includes text (toLowerCase keyword)
    then (fst a + weight, snd a ++ [keyword])
    else a) keywords acc.

(** [[...new Set(l)]]: the first occurrence of each element, in order. *)
Fixpoint uniqueFrom (seen l : list jsstr) : list jsstr :=
  match l with
  | [] => []
  | x :: l' =>
      if bool_decide (x ∈ seen) then uniqueFrom seen l'
      else x :: uniqueFrom (x :: seen) l'
  end.
Definition unique (l : list jsstr) : list jsstr := uniqueFrom [] l.

Definition levelOfScore (score : nat) : jsstr :=
  if 6 <=? score then js "High"
  else if 3 <=? score then js "Medium"
  else js "Low".

Definition analyzeRiskByRules (clauseText : jsstr) : RulesVerdict :=
  let text := toLowerCase clauseText in
  let a := scanKeywords 3 riskKeywordsHigh text (0, []) in
  let a := scanKeywords 2 riskKeywordsMedium text a in
  let a := scanKeywords 1 riskKeywordsLow text a in
  mkRulesVerdict (levelOfScore (fst a)) (fst a) (unique (snd a)).

(** *** The external model, as seen by its callers

    What [model.generateContent] answers to one request: a text in which a
    JSON object was found and parsed (fields that are absent are [None]), a
    text without a usable JSON object, or a rejection. *)
Inductive Reply : Type :=
| ReplyJson (explanation risk_level reason : option jsstr)
            (important_terms : option (list jsstr))
| ReplyText (text : jsstr)
| ReplyError (message : jsstr).

(** The [catch] of [processQueue]: a failure whose message mentions 429 is
    rejected as [QUOTA_EXCEEDED], any other as it is. *)
Definition rejection (message : jsstr) : jsstr :=
  if includes message (js "429") then js "QUOTA_EXCEEDED" else message.

Record ExternalVerdict : Type := mkExternalVerdict {
  ev_explanation : jsstr;
  ev_riskLevel : jsstr;
  ev_reason : jsstr;
  ev_importantTerms : list jsstr
}.

(** [x || d] on a string that may be absent: the empty string is falsy. *)
Definition orString (x : option jsstr) (d : jsstr) : jsstr :=
  match x with
  | Some (c :: v) => c :: v
  | _ => d
  end.

Definition orList (x : option (list jsstr)) : list jsstr :=
  match x with
  | Some l => l
  | None => []
  end.

Definition maxRetries : nat := 2.

(** [analyzeClauseWithAI]: [replies n] is the answer to the request of
    attempt [n]; [left] counts the retries that remain. *)
Fixpoint analyzeFromAttempt (left retryCount : nat) (replies : nat -> Reply)
  : result ExternalVerdict :=
  match replies retryCount with
  | ReplyJson explanation risk_level reason important_terms =>
      Ok (mkExternalVerdict
            (orString explanation (js "Unable to generate explanation"))
            (orString risk_level (js "Medium"))
            (orString reason (js "Unable to determine risk reason"))
            (orList important_terms))
  | ReplyText text =>
      Ok (mkExternalVerdict
            (substring0 200 text ++ js "...")
            (js "Medium")
            (js "AI analysis completed but format unclear")
            [])
  | ReplyError m =>
      let message := rejection m in
      if includes message (js "quota") || includes message (js "429")
      then Throw (Error message)
      else if (retryCount <? maxRetries)
              && (includes message (js "overloaded")
                  || includes message (js "503")
                  || includes message (js "Service Unavailable"))
      then match left with
           | S left' => analyzeFromAttempt left' (S retryCount) replies
           | O => Throw (Error message)
           end
      else Throw (Error message)
  end.

Definition analyzeClauseWithAI (replies : nat -> Reply) : result ExternalVerdict :=
  analyzeFromAttempt maxRetries 0 replies.

Definition generateRulesBasedExplanation (rulesAnalysis : RulesVerdict) : jsstr :=
  match detectedKeywords rulesAnalysis with
  | [] => js "This appears to be a standard contract clause with no major risk indicators detected."
  | kws =>
      let level := riskLevel rulesAnalysis in
      js "This clause contains " ++ toLowerCase level ++ js " risk terms: "
        ++ join (js ", ") kws ++ js ". "
        ++ (if eqb level (js "High") then
              js "These terms may significantly impact your rights or obligations. Consider legal review."
            else if eqb level (js "Medium") then
              js "These terms require attention and understanding before signing."
            else if eqb level (js "Low") then
              js "These are generally standard terms but worth understanding."
            else [])
  end.

(** The verdict substituted when the external call throws. *)
Definition fallbackVerdict (rulesAnalysis : RulesVerdict) : ExternalVerdict :=
  mkExternalVerdict
    (generateRulesBasedExplanation rulesAnalysis)
    (riskLevel rulesAnalysis)
    (js "Rules-based analysis: " ++
       match detectedKeywords rulesAnalysis with
       | [] => js "Standard contract clause"
       | kws => js "Contains keywords: " ++ join (js ", ") kws
       end)
    (detectedKeywords rulesAnalysis).

(** [const riskLevels = { 'Low': 1, 'Medium': 2, 'High': 3 }] *)
Definition riskLevels : gmap jsstr nat :=
  <[ js "Low" := 1 ]> (<[ js "Medium" := 2 ]> (<[ js "High" := 3 ]> ∅)).

(** The names a plain object inherits from [Object.prototype]: reading one
    of them yields a function, not [undefined]. *)
Definition inheritedNames : list jsstr := map js
  [ "constructor"; "hasOwnProperty"; "isPrototypeOf"; "propertyIsEnumerable";
    "toLocaleString"; "toString"; "valueOf"; "__proto__";
    "__defineGetter__"; "__defineSetter__"; "__lookupGetter__";
    "__lookupSetter__" ]%string.

Inductive property : Type :=
| Own (n : nat)
| Inherited
| Undefined.

(** [riskLevels[key]] *)
Definition readRiskLevel (key : jsstr) : property :=
  match riskLevels !! key with
  | Some n => Own n
  | None => if bool_decide (key ∈ inheritedNames) then Inherited else Undefined
  end.

(** [a >= b] on two such readings: false unless both are numbers. *)
Definition geProperty (a b : property) : bool :=
  match a, b with
  | Own x, Own y => y <=? x
  | _, _ => false
  end.

Record ClauseAnalysis : Type := mkClauseAnalysis {
  page : nat;
  clause : jsstr;
  explanation : jsstr;
  risk_ai : jsstr;
  risk_rules : jsstr;
  final_risk : jsstr;
  reason : jsstr;
  keywords : list jsstr;
  important_terms : list jsstr
}.

(** [analyzeClause(clauseText, page)].  The outer [catch] of the source,
    which answers Medium on every field, is reached by no string input and
    no reply: the rules engine and the fusion do not throw. *)
Definition analyzeClause (clauseText : jsstr) (page : nat) (replies : nat -> Reply)
  : ClauseAnalysis :=
  let rulesAnalysis := analyzeRiskByRules clauseText in
  let aiAnalysis :=
    match analyzeClauseWithAI replies with
    | Ok v => v
    | Throw _ => fallbackVerdict rulesAnalysis
    end in
  let rulesRisk := riskLevel rulesAnalysis in
  let aiRisk := ev_riskLevel aiAnalysis in
  let finalRisk :=
    if geProperty (readRiskLevel rulesRisk) (readRiskLevel aiRisk)
    then rulesRisk else aiRisk in
  mkClauseAnalysis page clauseText (ev_explanation aiAnalysis) aiRisk rulesRisk
    finalRisk (ev_reason aiAnalysis) (detectedKeywords rulesAnalysis)
    (ev_importantTerms aiAnalysis).

(** *** Glossary (buildGlossary) *)

Definition glossaryTerms : gmap jsstr jsstr :=
  list_to_map (map (fun p => (js (fst p), js (snd p)))
  [ ("collateral", "Asset pledged as security for a loan that can be seized if payments are not made");
    ("indemnity", "Protection against legal liability or financial loss");
    ("liquidated damages", "Pre-agreed amount of compensation for breach of contract");
    ("force majeure", "Unforeseeable circumstances that prevent fulfilling a contract");
    ("arbitration", "Alternative dispute resolution outside of court");
    ("jurisdiction", "Legal authority of a court to hear and decide a case");
    ("material adverse change", "Significant negative change in financial condition or business");
    ("cross-default", "Default on one agreement triggers default on other agreements");
    ("acceleration", "Making the entire debt immediately due upon default");
    ("waiver", "Voluntary giving up of a legal right or claim");
    ("assignment", "Transfer of rights or obligations to another party");
    ("breach", "Failure to fulfill terms of a contract");
    ("default", "Failure to meet legal obligations, especially debt payments");
    ("penalty", "Punishment or fine for breaking contract terms");
    ("security deposit", "Money held as protection against damage or non-payment");
    ("governing law", "Legal system that will interpret the contract");
    ("personal guarantee", "Individual promise to pay if business cannot");
    ("unlimited liability", "Full personal responsibility for all debts and obligations")
  ]%string).

(** What [this.glossaryTerms[key]] reads: a meaning of the table, a member
    inherited from [Object.prototype], or [undefined]. *)
Inductive glossaryValue : Type :=
| Meaning (m : jsstr)
| InheritedMember
| NoMeaning.

Definition readGlossaryTerm (key : jsstr) : glossaryValue :=
  match glossaryTerms !! key with
  | Some m => Meaning m
  | None => if bool_decide (key ∈ inheritedNames) then InheritedMember else NoMeaning
  end.

(** The value read, as a condition: [undefined] and the empty string are
    falsy, a function or an object is truthy. *)
Definition isTruthy (v : glossaryValue) : bool :=
  match v with
  | Meaning [] => false
  | Meaning (_ :: _) => true
  | InheritedMember => true
  | NoMeaning => false
  end.

Record GlossaryEntry : Type := mkGlossaryEntry {
  term : jsstr;
  meaning : glossaryValue;
  category : jsstr
}.

(** The body of the inner [forEach], the same for the important terms and
    for the keywords: [st] holds [glossary] and [addedTerms]. *)
Definition addTerm (st : list GlossaryEntry * gset jsstr) (term : jsstr)
  : list GlossaryEntry * gset jsstr :=
  let termLower := toLowerCase term in
  if negb (bool_decide (termLower ∈ snd st)) && isTruthy (readGlossaryTerm termLower)
  then (fst st ++ [mkGlossaryEntry term (readGlossaryTerm termLower) (js "legal")],
        {[ termLower ]} ∪ snd st)
  else st.

(** [analyzedClauses.forEach(clause => clause.field.forEach(...))] *)
Definition addTerms (field : ClauseAnalysis -> list jsstr)
  (analyzedClauses : list ClauseAnalysis) (st : list GlossaryEntry * gset jsstr)
  : list GlossaryEntry * gset jsstr :=
  fold_left (fun st clause => fold_left addTerm (field clause) st) analyzedClauses st.

(** [l.sort(compare)]: the sort of the runtime is stable.  [x] goes before
    the first element that does not sort before it. *)
Fixpoint insertSorted {A : Type} (compare : A -> A -> Z) (x : A) (l : list A) : list A :=
  match l with
  | [] => [x]
  | y :: l' =>
      if (compare x y <=? 0)%Z then x :: y :: l'
      else y :: insertSorted compare x l'
  end.

Definition sortBy {A : Type} (compare : A -> A -> Z) (l : list A) : list A :=
  fold_right (insertSorted compare) [] l.

(** [buildGlossary(analyzedClauses)]; [localeCompare] is the collation of
    the runtime. *)
Definition buildGlossary (localeCompare : jsstr -> jsstr -> Z)
  (analyzedClauses : list ClauseAnalysis) : list GlossaryEntry :=
  let st := addTerms important_terms analyzedClauses ([], ∅) in
  let st := addTerms keywords analyzedClauses st in
  sortBy (fun a b => localeCompare (term a) (term b)) (fst st).

End AIAnalyzer.

(** ** Comparison engine (AIAnalyzer, second half) *)

Module Comparison.

Import AIAnalyzer.

Definition rupee : N := 8377%N.

(** The group [NUM] of the source patterns: [\d+] followed by any number
    of [,\d+]. *)
Definition reNumber : regex := Seq (Plus digit) (Star true (Seq (chr 44) (Plus digit))).
(** [₹\s*NUM] *)
Definition reRupeeAmount : regex := Seq (chr rupee) (Seq (Star true space) reNumber).
(** [rs\.?\s*NUM] under the [i] flag *)
Definition reRsAmount : regex :=
  Seq (liti (js "rs")) (Seq (Opt (chr 46)) (Seq (Star true space) reNumber)).
(** [NUM\s*(?:rupees?|rs\.?|₹)] under the [i] flag *)
Definition reAmountUnit : regex :=
  Seq reNumber (Seq (Star true space)
    (Alt (Seq (liti (js "rupee")) (Opt (chri 115)))
      (Alt (Seq (liti (js "rs")) (Opt (chr 46))) (chr rupee)))).
(** [word.*?NUM] under the [i] flag *)
Definition reAfterWord (word : string) : regex :=
  Seq (liti (js word)) (Seq (Star false dot) reNumber).
(** [(\d{4,})] *)
Definition reFourDigits : regex := Seq digit (Seq digit (Seq digit (Plus digit))).

Definition rentPatterns : list regex :=
  [ reRupeeAmount; reRsAmount; reAmountUnit; reAfterWord "rent";
    reAfterWord "monthly"; reFourDigits ].

(** [months?] under the [i] flag, and its sibling for days *)
Definition reMonths : regex := Seq (liti (js "month")) (Opt (chri 115)).
Definition reDays : regex := Seq (liti (js "day")) (Opt (chri 115)).

Definition noticePatterns : list regex :=
  [ Seq (Plus digit) (Seq (Star true space) (Seq reMonths (Seq (Star true space) (liti (js "notice")))));
    Seq (liti (js "notice")) (Seq (Star false dot) (Seq (Plus digit) (Seq (Star true space) reMonths)));
    Seq (Plus digit) (Seq (Star true space) (Seq reMonths (Seq (Star true space) (liti (js "prior")))));
    Seq (Plus digit) (Seq (Star true space) (Seq reDays (Seq (Star true space) (liti (js "notice"))))) ].

(** [/₹\s*NUM|rs\.?\s*NUM|(\d{4,})/i] *)
Definition reRentDisplay : regex := Alt reRupeeAmount (Alt reRsAmount reFourDigits).
(** [/(\d+)\s*months?|₹\s*NUM/i] *)
Definition reDepositDisplay : regex :=
  Alt (Seq (Plus digit) (Seq (Star true space) reMonths)) reRupeeAmount.

Record KeyInfo : Type := mkKeyInfo {
  ki_text : jsstr;
  ki_risk : jsstr;
  ki_explanation : jsstr;
  ki_fullText : jsstr
}.

Record ComparisonEntry : Type := mkComparisonEntry {
  clauseType : jsstr;
  doc1 : option KeyInfo;
  doc2 : option KeyInfo;
  difference : jsstr;
  overallRisk : option jsstr;
  plainEnglish : jsstr
}.

(** [getKeyInfo(clause, clauseType)] for a clause that is present. *)
Definition getKeyInfo (c : ClauseAnalysis) (clauseType : jsstr) : KeyInfo :=
  let text := toLowerCase (clause c) in
  let displayText :=
    substring0 200 (clause c) ++ (if (200 <? length (clause c))%nat then js "..." else []) in
  let displayText :=
    if eqb clauseType (js "rent") then
      match matchFirst reRentDisplay text with
      | Some amount => js "Rent: " ++ amount ++ js " - " ++ displayText
      | None => displayText
      end
    else displayText in
  let displayText :=
    if eqb clauseType (js "deposit") then
      match matchFirst reDepositDisplay text with
      | Some amount => js "Deposit: " ++ amount ++ js " - " ++ displayText
      | None => displayText
      end
    else displayText in
  mkKeyInfo displayText (final_risk c) (explanation c) (clause c).

(** The amount read from the first match of a rent pattern, when it lies
    in the accepted range; [None] stands for [null]. *)
Definition rentAmount (m : option (list jsstr)) : option N :=
  match m with
  | Some (m0 :: _) =>
      let numStr :=
        replaceAll (chr 44) []
          (replaceAll (Class (fun c => negb (isDigit c || (c =? 44)%N))) [] m0) in
      match parseInt numStr with
      | Some num => if ((1000 <=? num) && (num <=? 1000000))%N then Some num else None
      | None => None
      end
  | _ => None
  end.

Definition orElse {A : Type} (a : option A) (b : option A) : option A :=
  match a with
  | Some _ => a
  | None => b
  end.

(** [for (const pattern of rentPatterns) { ... if (amount1 && amount2) break; }];
    an amount, once found, is at least 1000 and so is truthy. *)
Fixpoint rentAmounts (patterns : list regex) (text1 text2 : jsstr)
  (amount1 amount2 : option N) : option N * option N :=
  match patterns with
  | [] => (amount1, amount2)
  | pattern :: rest =>
      let amount1 := orElse amount1 (rentAmount (matchAll pattern text1)) in
      let amount2 := orElse amount2 (rentAmount (matchAll pattern text2)) in
      match amount1, amount2 with
      | Some _, Some _ => (amount1, amount2)
      | _, _ => rentAmounts rest text1 text2 amount1 amount2
      end
  end.

(** A number that may be [null] or [NaN] ([None]); zero is falsy too. *)
Definition truthy (x : option N) : bool :=
  match x with
  | Some n => negb (n =? 0)%N
  | None => false
  end.

(** [parseInt(match[1])]: element 1 of a global match is the second match
    of the pattern, [undefined] when there is one match only. *)
Definition noticePeriod (m : list jsstr) : option N :=
  match nth_error m 1 with
  | Some m1 => parseInt m1
  | None => None
  end.

Fixpoint noticePeriods (patterns : list regex) (text1 text2 : jsstr)
  (period1 period2 : option N) : option N * option N :=
  match patterns with
  | [] => (period1, period2)
  | pattern :: rest =>
      let period1 :=
        if truthy period1 then period1
        else match matchAll pattern text1 with
             | Some m => noticePeriod m
             | None => period1
             end in
      let period2 :=
        if truthy period2 then period2
        else match matchAll pattern text2 with
             | Some m => noticePeriod m
             | None => period2
             end in
      if truthy period1 && truthy period2 then (period1, period2)
      else noticePeriods rest text1 text2 period1 period2
  end.

Definition analyzeDifference (clause1 clause2 : ClauseAnalysis) (type : jsstr) : jsstr :=
  let text1 := toLowerCase (clause clause1) in
  let text2 := toLowerCase (clause clause2) in
  let rent :=
    if eqb type (js "rent") then
      match rentAmounts rentPatterns text1 text2 None None with
      | (Some amount1, Some amount2) =>
          if negb (amount1 =? amount2)%N then
            Some (js "Rent differs: " ++ [rupee] ++ toLocaleString amount1
                    ++ js " vs " ++ [rupee] ++ toLocaleString amount2)
          else None
      | _ => None
      end
    else None in
  let notice :=
    if eqb type (js "notice") then
      match noticePeriods noticePatterns text1 text2 None None with
      | (Some period1, Some period2) =>
          if truthy (Some period1) && truthy (Some period2) && negb (period1 =? period2)%N then
            Some (js "Notice period differs: " ++ ofN period1 ++ js " vs "
                    ++ ofN period2 ++ js " months")
          else None
      | _ => None
      end
    else None in
  match rent, notice with
  | Some d, _ => d
  | None, Some d => d
  | None, None =>
      if negb (eqb text1 text2) then js "Clause content differs between documents"
      else if negb (eqb (final_risk clause1) (final_risk clause2)) then
        js "Risk levels differ: " ++ final_risk clause1 ++ js " vs " ++ final_risk clause2
      else js "Similar clauses with minor variations"
  end.

(** [generatePlainEnglishDifference].  The [deposit] and [notice] cases
    read [numbers1], a name that no scope of the source declares. *)
Definition generatePlainEnglishDifference (clause1 clause2 : ClauseAnalysis)
  (type : jsstr) : result jsstr :=
  let text1 := toLowerCase (clause clause1) in
  let text2 := toLowerCase (clause clause2) in
  let perMonth (n : N) := [rupee] ++ toLocaleString n ++ js "/month)" in
  let byRisk :=
    if negb (eqb (final_risk clause1) (final_risk clause2)) then
      js "Document 1 has " ++ toLowerCase (final_risk clause1)
        ++ js " risk while Document 2 has " ++ toLowerCase (final_risk clause2)
        ++ js " risk for this clause."
    else js "Both documents have similar terms for this clause." in
  if eqb type (js "rent") then
    match rentAmounts rentPatterns text1 text2 None None with
    | (Some amount1, Some amount2) =>
        if (amount1 <? amount2)%N then
          Ok (js "Document 1 is cheaper (" ++ perMonth amount1
                ++ js " compared to Document 2 (" ++ perMonth amount2 ++ js ".")
        else if (amount2 <? amount1)%N then
          Ok (js "Document 2 is cheaper (" ++ perMonth amount2
                ++ js " compared to Document 1 (" ++ perMonth amount1 ++ js ".")
        else
          Ok (js "Both documents have the same rent amount (" ++ perMonth amount1 ++ js ".")
    | _ => Ok byRisk
    end
  else if eqb type (js "deposit") then
    Throw (ReferenceError (js "numbers1 is not defined"))
  else if eqb type (js "notice") then
    Throw (ReferenceError (js "numbers1 is not defined"))
  else Ok byRisk.

(** [getHigherRisk]: [riskLevels[risk] || 1], [Math.max], then the key
    whose value is the maximum; an inherited name makes the maximum [NaN]
    and the search come back with [undefined]. *)
Definition levelOr1 (p : property) : option nat :=
  match p with
  | Own n => Some n
  | Undefined => Some 1
  | Inherited => None
  end.

Definition keyOfLevel (n : nat) : option jsstr :=
  match n with
  | 1 => Some (js "Low")
  | 2 => Some (js "Medium")
  | 3 => Some (js "High")
  | _ => None
  end.

Definition getHigherRisk (risk1 risk2 : jsstr) : option jsstr :=
  match levelOr1 (readRiskLevel risk1), levelOr1 (readRiskLevel risk2) with
  | Some level1, Some level2 => keyOfLevel (Nat.max level1 level2)
  | _, _ => None
  end.

(** [type.charAt(0).toUpperCase() + type.slice(1)] on the type names of
    the program, which are lower-case Basic Latin. *)
Definition capitalize (type : jsstr) : jsstr :=
  match type with
  | c :: rest => (if isLower c then (c - 32)%N else c) :: rest
  | [] => []
  end.

Definition generateClauseComparison (clause1 clause2 : option ClauseAnalysis)
  (type : jsstr) : result ComparisonEntry :=
  let entry := mkComparisonEntry (capitalize type)
                 (option_map (fun c => getKeyInfo c type) clause1)
                 (option_map (fun c => getKeyInfo c type) clause2) in
  match clause1, clause2 with
  | Some c1, Some c2 =>
      let d := analyzeDifference c1 c2 type in
      let r := getHigherRisk (final_risk c1) (final_risk c2) in
      e ← generatePlainEnglishDifference c1 c2 type;
      Ok (entry d r e)
  | Some c1, None =>
      Ok (entry (js "Only present in Document 1") (Some (final_risk c1))
            (js "Document 1 has this " ++ type ++ js " clause, but Document 2 doesn't."))
  | None, Some c2 =>
      Ok (entry (js "Only present in Document 2") (Some (final_risk c2))
            (js "Document 2 has this " ++ type ++ js " clause, but Document 1 doesn't."))
  | None, None => Ok (entry [] (Some (js "Low")) [])
  end.

Definition clauseTypes : list (jsstr * list jsstr) :=
  map (fun p => (js (fst p), map js (snd p)))
  [ ("rent", ["rent"; "payment"; "monthly"; "amount"]);
    ("deposit", ["deposit"; "security"; "advance"]);
    ("notice", ["notice"; "termination"; "exit"]);
    ("maintenance", ["maintenance"; "repair"; "upkeep"]);
    ("utilities", ["utilities"; "electricity"; "water"]);
    ("pets", ["pets"; "animals"]);
    ("subletting", ["sublet"; "subletting"; "assign"]);
    ("duration", ["duration"; "term"; "period"; "lease"]);
    ("renewal", ["renewal"; "extend"; "renew"]) ]%string.

(** [keywords.some(keyword => c.clause.toLowerCase().includes(keyword))] *)
Definition mentions (keywords : list jsstr) (c : ClauseAnalysis) : bool :=
  existsb (fun keyword => includes (toLowerCase (clause c)) keyword) keywords.

(** The set [matchedClauses]: the key [`1-${i}`] is the pair [(1, i)]. *)
Definition matchedSet : Type := gset (nat * nat).

Definition isMatched (matched : matchedSet) (doc i : nat) : bool :=
  bool_decide ((doc, i) ∈ matched).

(** [clauses.find((c, i) => !matchedClauses.has(`d-${i}`) && ...)], with
    the index at which the clause was found.  The clauses of a document are
    distinct objects, so that [clauses.indexOf(found)] is that index. *)
Fixpoint findFrom (i : nat) (doc : nat) (matched : matchedSet)
  (keywords : list jsstr) (clauses : list ClauseAnalysis)
  : option (nat * ClauseAnalysis) :=
  match clauses with
  | [] => None
  | c :: rest =>
      if negb (isMatched matched doc i) && mentions keywords c
      then Some (i, c)
      else findFrom (S i) doc matched keywords rest
  end.

Definition addMatch (doc : nat) (found : option (nat * ClauseAnalysis))
  (matched : matchedSet) : matchedSet :=
  match found with
  | Some (i, _) => {[ (doc, i) ]} ∪ matched
  | None => matched
  end.

(** One iteration of [for (const [type, keywords] of Object.entries(clauseTypes))]. *)
Definition matchType (clauses1 clauses2 : list ClauseAnalysis)
  (st : matchedSet * list ComparisonEntry) (entry : jsstr * list jsstr)
  : result (matchedSet * list ComparisonEntry) :=
  let '(matched, table) := st in
  let '(type, keywords) := entry in
  let found1 := findFrom 0 1 matched keywords clauses1 in
  let found2 := findFrom 0 2 matched keywords clauses2 in
  match found1, found2 with
  | None, None => Ok st
  | _, _ =>
      let matched := addMatch 2 found2 (addMatch 1 found1 matched) in
      comparison ← generateClauseComparison (option_map snd found1) (option_map snd found2) type;
      Ok (matched, table ++ [comparison])
  end.

Fixpoint matchTypes (clauses1 clauses2 : list ClauseAnalysis)
  (st : matchedSet * list ComparisonEntry) (types : list (jsstr * list jsstr))
  : result (matchedSet * list ComparisonEntry) :=
  match types with
  | [] => Ok st
  | entry :: rest =>
      st' ← matchType clauses1 clauses2 st entry;
      matchTypes clauses1 clauses2 st' rest
  end.

(** [clauses.forEach((clause, i) => { if (!matchedClauses.has(...)) push })] *)
Fixpoint residuals (i : nat) (doc : nat) (matched : matchedSet)
  (clauses : list ClauseAnalysis) (table : list ComparisonEntry)
  : result (list ComparisonEntry) :=
  match clauses with
  | [] => Ok table
  | c :: rest =>
      if isMatched matched doc i then residuals (S i) doc matched rest table
      else
        comparison ← (if (doc =? 1)%nat
                      then generateClauseComparison (Some c) None (js "other")
                      else generateClauseComparison None (Some c) (js "other"));
        residuals (S i) doc matched rest (table ++ [comparison])
  end.

Definition compareClausesDetailed (clauses1 clauses2 : list ClauseAnalysis)
  : result (list ComparisonEntry) :=
  st ← matchTypes clauses1 clauses2 (∅, []) clauseTypes;
  table ← residuals 0 1 (fst st) clauses1 (snd st);
  residuals 0 2 (fst st) clauses2 table.

End Comparison.

(** ** The analysis routes (routes/analysis.js) *)

Module Routes.

Import DocumentProcessor AIAnalyzer.

(** What the external model answers to the summary request. *)
Inductive SummaryReply : Type :=
| SummaryJson (key_findings recommendations : option (list jsstr))
| SummaryText (text : jsstr)
| SummaryError (message : jsstr).

Record SummaryData : Type := mkSummaryData {
  key_findings : option (list jsstr);
  sd_recommendations : option (list jsstr)
}.

(** [generateDocumentSummary(clauses, documentType)]: the clauses only
    feed the prompt.  Its own [catch] answers every failure. *)
Definition generateDocumentSummary (clauses : list ClauseAnalysis)
  (reply : SummaryReply) : result SummaryData :=
  match reply with
  | SummaryJson k r => Ok (mkSummaryData k r)
  | SummaryText _ =>
      Ok (mkSummaryData (Some [js "Document analysis completed"])
                        (Some [js "Review all clauses carefully"]))
  | SummaryError _ =>
      Ok (mkSummaryData (Some [js "Unable to generate summary"])
                        (Some [js "Manual review recommended"]))
  end.

(** [Math.ceil(n / (pages || 1))] *)
Definition pageStride (n pages : nat) : nat :=
  let p := if (pages =? 0)%nat then 1 else pages in
  (n + p - 1) / p.

(** The loop [for (let i = 0; i < clauses.length; i++)] of the routes;
    [replies i] are the answers of the external model for clause [i]. *)
Fixpoint analyzeClauses (stride : nat) (i currentPage : nat)
  (replies : nat -> nat -> Reply) (clauses : list ClauseUnit)
  : list ClauseAnalysis :=
  match clauses with
  | [] => []
  | c :: rest =>
      analyzeClause (text c) currentPage (replies i)
        :: analyzeClauses stride (S i)
             (if ((S i) mod stride =? 0)%nat then S currentPage else currentPage)
             replies rest
  end.

(** [const riskDistribution = { low: 0, medium: 0, high: 0 }] *)
Definition emptyDistribution : gmap jsstr nat :=
  <[ js "low" := 0 ]> (<[ js "medium" := 0 ]> (<[ js "high" := 0 ]> ∅)).

(** [if (riskDistribution.hasOwnProperty(risk)) riskDistribution[risk]++] *)
Definition countRisk (dist : gmap jsstr nat) (c : ClauseAnalysis) : gmap jsstr nat :=
  let risk := toLowerCase (final_risk c) in
  match dist !! risk with
  | Some n => <[ risk := S n ]> dist
  | None => dist
  end.

Definition riskDistributionOf (clauses : list ClauseAnalysis) : gmap jsstr nat :=
  fold_left countRisk clauses emptyDistribution.

Definition bucket (dist : gmap jsstr nat) (name : string) : nat :=
  default 0 (dist !! js name).

Definition overallRiskOf (dist : gmap jsstr nat) : jsstr :=
  if (0 <? bucket dist "high")%nat then js "High"
  else if (bucket dist "low" <? bucket dist "medium")%nat then js "Medium"
  else js "Low".

(** The summary built in the [catch] around [generateDocumentSummary] in
    the comparison route. *)
Definition rulesBasedSummary (clauses : list ClauseAnalysis)
  (dist : gmap jsstr nat) (overall : jsstr) : SummaryData :=
  mkSummaryData
    (Some [ js "Document contains " ++ ofNat (length clauses) ++ js " clauses";
            js "Overall risk level: " ++ overall;
            js "High risk clauses: " ++ ofNat (bucket dist "high");
            js "Medium risk clauses: " ++ ofNat (bucket dist "medium");
            js "Low risk clauses: " ++ ofNat (bucket dist "low") ])
    (Some (if eqb overall (js "High") then
             [ js "Consider legal review due to high-risk clauses";
               js "Pay special attention to penalty and liability clauses" ]
           else if eqb overall (js "Medium") then
             [ js "Review medium-risk clauses carefully";
               js "Consider professional consultation for complex terms" ]
           else
             [ js "Standard contract terms detected";
               js "Generally acceptable risk level" ])).

Record Summary : Type := mkSummary {
  totalClauses : nat;
  riskDistribution : gmap jsstr nat;
  overallRisk : jsstr;
  keyFindings : list jsstr;
  recommendations : list jsstr
}.

Record DocumentAnalysis : Type := mkDocumentAnalysis {
  clauses : list ClauseAnalysis;
  summary : Summary
}.

Definition buildAnalysis (analyzed : list ClauseAnalysis) (dist : gmap jsstr nat)
  (overall : jsstr) (data : SummaryData) : DocumentAnalysis :=
  mkDocumentAnalysis analyzed
    (mkSummary (length analyzed) dist overall
       (orList (key_findings data)) (orList (sd_recommendations data))).

(** The clauses of a document, analyzed in order. *)
Definition analyzeText (fuel : nat) (extractedText : jsstr) (pages : nat)
  (replies : nat -> nat -> Reply) : option (list ClauseAnalysis) :=
  match splitIntoClause fuel extractedText defaultMaxTokens with
  | Some units =>
      Some (analyzeClauses (pageStride (length units) pages) 0 1 replies units)
  | None => None
  end.


(** The automatic analysis of a document in the comparison route: the
    summary request is wrapped in [try], with the rules-based summary in
    its [catch]. *)
Definition analyzeForComparison (fuel : nat) (extractedText : jsstr) (pages : nat)
  (replies : nat -> nat -> Reply) (summaryReply : SummaryReply)
  : option DocumentAnalysis :=
  match analyzeText fuel extractedText pages replies with
  | Some analyzed =>
      let dist := riskDistributionOf analyzed in
      let overall := overallRiskOf dist in
      let data :=
        match generateDocumentSummary analyzed summaryReply with
        | Ok d => d
        | Throw _ => rulesBasedSummary analyzed dist overall
        end in
      Some (buildAnalysis analyzed dist overall data)
  | None => None
  end.

End Routes.

(** ** Comparison of two documents (AIAnalyzer.compareDocuments,
    AIAnalyzer.findDetailedSimilarities) *)

Module DocumentComparison.

Import AIAnalyzer Routes.

Record RiskComparison : Type := mkRiskComparison {
  dc_similarities : list jsstr;
  dc_differences : list jsstr;
  dc_riskComparison : jsstr * jsstr;
  dc_recommendations : list jsstr;
  dc_clauseCount : nat * nat
}.

(** [analysis.clauses.filter(c => c.final_risk === 'High').length] *)
Definition highRiskCount (analysis : DocumentAnalysis) : nat :=
  length (List.filter (fun c => eqb (final_risk c) (js "High")) (clauses analysis)).

(** [compareDocuments(doc1Analysis, doc2Analysis)].  On two analyses the
    body of its [try] throws nothing. *)
Definition compareDocuments (doc1Analysis doc2Analysis : DocumentAnalysis) : RiskComparison :=
  let riskComparison :=
    (overallRisk (summary doc1Analysis), overallRisk (summary doc2Analysis)) in
  let doc1HighRisk := highRiskCount doc1Analysis in
  let doc2HighRisk := highRiskCount doc2Analysis in
  let clauseCount := (length (clauses doc1Analysis), length (clauses doc2Analysis)) in
  if doc2HighRisk <? doc1HighRisk then
    mkRiskComparison []
      [js "Document 1 has more high-risk clauses"] riskComparison
      [js "Consider using Document 2 as it has fewer high-risk terms"] clauseCount
  else if doc1HighRisk <? doc2HighRisk then
    mkRiskComparison []
      [js "Document 2 has more high-risk clauses"] riskComparison
      [js "Consider using Document 1 as it has fewer high-risk terms"] clauseCount
  else
    mkRiskComparison [js "Both documents have similar risk levels"] [] riskComparison
      [] clauseCount.

(** The fields of a stored document that the comparison reads. *)
Record Document : Type := mkDocument {
  documentType : jsstr;
  analysis : DocumentAnalysis
}.

Definition importantTerms : list jsstr := map js
  [ "landlord"; "tenant"; "renewal"; "maintenance"; "utilities"; "parking" ]%string.

(** [doc.analysis.clauses.map(c => c.clause).join(' ').toLowerCase()] *)
Definition clausesText (doc : Document) : jsstr :=
  toLowerCase (join (js " ") (map clause (clauses (analysis doc)))).

Definition commonTerms (doc1 doc2 : Document) : list jsstr :=
  List.filter (fun term => includes (clausesText doc1) term && includes (clausesText doc2) term)
    importantTerms.

Definition findDetailedSimilarities (doc1 doc2 : Document) : list jsstr :=
  let byType :=
    if eqb (documentType doc1) (documentType doc2)
    then [js "Both documents are " ++ documentType doc1 ++ js " agreements"]
    else [] in
  let risk1 := overallRisk (summary (analysis doc1)) in
  let risk2 := overallRisk (summary (analysis doc2)) in
  let byRisk :=
    if eqb risk1 risk2
    then [js "Both documents have " ++ toLowerCase risk1 ++ js " overall risk level"]
    else [] in
  let byTerms :=
    match commonTerms doc1 doc2 with
    | [] => []
    | terms => [js "Both agreements mention: " ++ join (js ", ") terms]
    end in
  let clauseCount1 := length (clauses (analysis doc1)) in
  let clauseCount2 := length (clauses (analysis doc2)) in
  let diff := Z.abs (Z.of_nat clauseCount1 - Z.of_nat clauseCount2) in
  let byStructure :=
    if (diff <=? 2)%Z
    then [js "Both documents have similar structure (" ++ ofNat clauseCount1
            ++ js " vs " ++ ofNat clauseCount2 ++ js " clauses)"]
    else [] in
  match byType ++ byRisk ++ byTerms ++ byStructure with
  | [] => [js "Both documents are legal agreements with standard terms"]
  | similarities => similarities
  end.

End DocumentComparison.

(** ** External analysis scheduler (AIAnalyzer.processQueue) *)

Module Scheduler.

Local Open Scope Z_scope.

Definition maxRequestsPerMinute : nat := 12.
Definition requestWindow : Z := 60000.

(** The fields of the rate limiter, with the clock ([Date.now()], in
    milliseconds). *)
Record State : Type := mkState {
  requestCount : nat;
  lastResetTime : Z;
  now : Z
}.

(** A queued request: the time its call takes to settle, and the time by
    which the timers armed while it heads the queue fire late ([setTimeout]
    promises a delay of at least the time asked). *)
Record Task : Type := mkTask {
  duration : Z;
  lateness : Z
}.

(** A call handed to the external model: when, and in which counting window
    (the value of [lastResetTime] at that moment). *)
Record Dispatch : Type := mkDispatch {
  time : Z;
  window : Z
}.

Definition resetRequestCount (st : State) : State :=
  if requestWindow <=? now st - lastResetTime st
  then mkState 0 (now st) (now st)
  else st.

Definition canMakeRequest (st : State) : State * bool :=
  let st' := resetRequestCount st in
  (st', (requestCount st' <? maxRequestsPerMinute)%nat).

Definition sleep (ms : Z) (st : State) : State :=
  mkState (requestCount st) (lastResetTime st) (now st + ms).

(** [processQueue], from the moment the queue holds [queue]: one unit of
    fuel per iteration of its [while].  The clock does not move during
    synchronous code; it moves by the duration of the call awaited and by
    the delays of the timers.  The result lists the calls in the order in
    which they were handed to the external model. *)
Fixpoint processQueue (fuel : nat) (st : State) (queue : list Task)
  : option (State * list Dispatch) :=
  match fuel with
  | O => None
  | S f =>
      match queue with
      | [] => Some (st, [])
      | task :: rest =>
          let (st1, ok) := canMakeRequest st in
          if negb ok then
            let waitTime := requestWindow - (now st1 - lastResetTime st1) in
            processQueue f (sleep (waitTime + 1000 + lateness task) st1) queue
          else
            let st2 := mkState (S (requestCount st1)) (lastResetTime st1) (now st1) in
            let st3 := sleep (duration task) st2 in
            let st4 := sleep (1000 + lateness task) st3 in
            match processQueue f st4 rest with
            | Some (st', ds) => Some (st', mkDispatch (now st1) (lastResetTime st1) :: ds)
            | None => None
            end
      end
  end.

(** The dispatches whose time lies in [[from, from + requestWindow)]. *)
Definition inInterval (from : Z) (ds : list Dispatch) : list Dispatch :=
  List.filter (fun d => (from <=? time d) && (time d <? from + requestWindow)) ds.

(** The dispatches counted in the window that starts at [w]. *)
Definition inWindow (w : Z) (ds : list Dispatch) : list Dispatch :=
  List.filter (fun d => window d =? w) ds.

End Scheduler.

(** * Notions used in the statements *)

Import DocumentProcessor AIAnalyzer Comparison Routes Scheduler.

(** ** White space and words *)

(** Every run of white space becomes one space; [inRun] tells that the
    previous code unit was white space. *)
Fixpoint collapse (inRun : bool) (s : jsstr) : jsstr :=
  match s with
  | [] => []
  | c :: s' =>
      if isSpace c then (if inRun then collapse true s' else 32%N :: collapse true s')
      else c :: collapse false s'
  end.

(** The words of a text: its maximal runs free of white space; [cur] is
    the word being read. *)
Fixpoint wordsFrom (cur : jsstr) (s : jsstr) : list jsstr :=
  match s with
  | [] => match cur with [] => [] | _ => [cur] end
  | c :: s' =>
      if isSpace c then
        match cur with
        | [] => wordsFrom [] s'
        | _ => cur :: wordsFrom [] s'
        end
      else wordsFrom (cur ++ [c]) s'
  end.

Definition wordsOf (s : jsstr) : list jsstr := wordsFrom [] s.

Definition spaceFree (w : jsstr) : Prop := Forall (fun c => isSpace c = false) w.
Definition isWord (w : jsstr) : Prop := w <> [] /\ spaceFree w.

Definition trimEnd (s : jsstr) : jsstr := rev (dropSpace (rev s)).

Definition lfFree (s : jsstr) : Prop := Forall (fun c => c <> 10%N) s.

(** ** Risk levels *)

Inductive Level : Type := Low | Medium | High.

Definition levelName (l : Level) : jsstr :=
  match l with
  | Low => js "Low"
  | Medium => js "Medium"
  | High => js "High"
  end.

Definition rank (l : Level) : nat :=
  match l with
  | Low => 1
  | Medium => 2
  | High => 3
  end.

(** The maximum under Low < Medium < High. *)
Definition maxLevel (a b : Level) : Level := if (rank b <=? rank a)%nat then a else b.


(** The keywords of a list found in a clause text, without regard to case. *)
Definition matchedIn (keywords : list jsstr) (clauseText : jsstr) : list jsstr :=
  List.filter (fun keyword => includes (toLowerCase clauseText) (toLowerCase keyword)) keywords.

(** ** Counting risks *)

(** The final risk of the clause, in lower case, names a bucket. *)
Definition recognized (c : ClauseAnalysis) : bool :=
  bool_decide (toLowerCase (final_risk c) ∈ [js "low"; js "medium"; js "high"]).

Definition bucketSum (dist : gmap jsstr nat) : nat :=
  bucket dist "low" + bucket dist "medium" + bucket dist "high".

(** ** The pairing computed by the comparison *)

(** The clause type of a comparison entry and, for either document, the
    position of the clause it shows. *)
Record Pair : Type := mkPair {
  p_type : jsstr;
  p_left : option nat;
  p_right : option nat
}.

(** The loop over the clause types, without the entries. *)
Fixpoint typedPairs (clauses1 clauses2 : list ClauseAnalysis) (matched : matchedSet)
  (types : list (jsstr * list jsstr)) : matchedSet * list Pair :=
  match types with
  | [] => (matched, [])
  | (type, keywords) :: rest =>
      let found1 := findFrom 0 1 matched keywords clauses1 in
      let found2 := findFrom 0 2 matched keywords clauses2 in
      match found1, found2 with
      | None, None => typedPairs clauses1 clauses2 matched rest
      | _, _ =>
          let r := typedPairs clauses1 clauses2
                     (addMatch 2 found2 (addMatch 1 found1 matched)) rest in
          (fst r, mkPair type (fst <$> found1) (fst <$> found2) :: snd r)
      end
  end.

(** The two loops over what is left, without the entries. *)
Fixpoint residualPairs (i : nat) (doc : nat) (matched : matchedSet)
  (clauses : list ClauseAnalysis) : list Pair :=
  match clauses with
  | [] => []
  | _ :: rest =>
      if isMatched matched doc i then residualPairs (S i) doc matched rest
      else (if (doc =? 1)%nat then mkPair (js "other") (Some i) None
            else mkPair (js "other") None (Some i))
           :: residualPairs (S i) doc matched rest
  end.

Definition typedPart (clauses1 clauses2 : list ClauseAnalysis) : list Pair :=
  snd (typedPairs clauses1 clauses2 ∅ clauseTypes).

Definition residualPart (clauses1 clauses2 : list ClauseAnalysis) : list Pair :=
  let matched := fst (typedPairs clauses1 clauses2 ∅ clauseTypes) in
  residualPairs 0 1 matched clauses1 ++ residualPairs 0 2 matched clauses2.

Definition pairing (clauses1 clauses2 : list ClauseAnalysis) : list Pair :=
  typedPart clauses1 clauses2 ++ residualPart clauses1 clauses2.

Definition lefts (pairs : list Pair) : list nat := omap p_left pairs.
Definition rights (pairs : list Pair) : list nat := omap p_right pairs.

(** The entry of a pair. *)
Definition entryOf (clauses1 clauses2 : list ClauseAnalysis) (p : Pair)
  : result ComparisonEntry :=
  generateClauseComparison (p_left p ≫= (clauses1 !!.)) (p_right p ≫= (clauses2 !!.))
    (p_type p).

Fixpoint mapResult {A B : Type} (f : A -> result B) (l : list A) : result (list B) :=
  match l with
  | [] => Ok []
  | x :: l' => y ← f x; ys ← mapResult f l'; Ok (y :: ys)
  end.

(** A pair with one side only. *)
Definition oneSided (p : Pair) : Prop :=
  (is_Some (p_left p) /\ p_right p = None) \/ (p_left p = None /\ is_Some (p_right p)).

(** The position found, as a list. *)
Definition foundAt (f : option (nat * ClauseAnalysis)) : list nat :=
  match f with
  | Some (i, _) => [i]
  | None => []
  end.

(** What the loop over the types maintains: no position is taken twice,
    the positions taken were free and exist, and the set [matchedClauses]
    holds the positions it had and those taken. *)
Definition pairsInvariant (clauses1 clauses2 : list ClauseAnalysis)
  (before after : matchedSet) (pairs : list Pair) : Prop :=
  NoDup (lefts pairs) /\ NoDup (rights pairs)
  /\ (forall i, i ∈ lefts pairs -> ((1, i) ∉ before) /\ i < length clauses1)
  /\ (forall j, j ∈ rights pairs -> ((2, j) ∉ before) /\ j < length clauses2)
  /\ (forall i, (1, i) ∈ after <-> (1, i) ∈ before \/ i ∈ lefts pairs)
  /\ (forall j, (2, j) ∈ after <-> (2, j) ∈ before \/ j ∈ rights pairs).

(** A pair with both sides. *)
Definition twoSided (p : Pair) : Prop := is_Some (p_left p) /\ is_Some (p_right p).

(** ** Pacing of the scheduler *)

(** [ds] is what [processQueue] dispatches from [st] on [queue]. *)
Definition runOf (st : State) (queue : list Task) (ds : list Dispatch) : Prop :=
  exists fuel st', processQueue fuel st queue = Some (st', ds).

(** No interval of [requestWindow] milliseconds holds more dispatches than
    the budget. *)
Definition rollingBudget (ds : list Dispatch) : Prop :=
  forall from : Z, length (inInterval from ds) <= maxRequestsPerMinute.

(** The twelfth dispatch after any dispatch is made after the counting
    window of that dispatch has ended. *)
Definition thirteenthWaits (ds : list Dispatch) : Prop :=
  forall i a b,
    ds !! i = Some a -> ds !! (i + maxRequestsPerMinute) = Some b ->
    (window a + requestWindow <= window b /\ window b <= time b)%Z.

(** No counting window holds more dispatches than the budget. *)
Definition windowBudget (ds : list Dispatch) : Prop :=
  forall w : Z, length (inWindow w ds) <= maxRequestsPerMinute.

(** The pacing as the specification states it. *)
Definition rollingPacing (st : State) (queue : list Task) : Prop :=
  forall ds, runOf st queue ds -> thirteenthWaits ds /\ rollingBudget ds.

Definition taskOk (t : Task) : Prop := (0 <= duration t /\ 0 <= lateness t)%Z.

(** What holds of the dispatches [ds] made from the state [st]. *)
Definition paced (st : State) (ds : list Dispatch) : Prop :=
  (forall k d, ds !! k = Some d ->
     (lastResetTime st <= window d)%Z
     /\ (maxRequestsPerMinute <= k + requestCount st ->
         (lastResetTime st + requestWindow <= window d)%Z)
     /\ (window d <= time d < window d + requestWindow)%Z)
  /\ thirteenthWaits ds
  /\ (requestCount st <= maxRequestsPerMinute ->
      forall w : Z,
        length (inWindow w ds)
        + (if (w =? lastResetTime st)%Z then requestCount st else 0)
        <= maxRequestsPerMinute).

(** ** Inputs of the scenarios *)

Definition lowClause (t : string) : ClauseAnalysis :=
  mkClauseAnalysis 1 (js t)
    (js "This appears to be a standard contract clause with no major risk indicators detected.")
    (js "Low") (js "Low") (js "Low")
    (js "Rules-based analysis: Standard contract clause") [] [].

Definition scenarioText : jsstr :=
  js "1. Rent is Rs. 15,000 per month." ++ [10%N] ++ js "2. Notice period is 1 month.".

Definition scenarioClause : jsstr :=
  js "1. Rent is Rs. 15,000 per month. 2. Notice period is 1 month.".


(** The law as the specification states it: the clause texts, put end to
    end, are the normalized input. *)
Definition concatRoundTrip (text : jsstr) (maxTokens : Z) : Prop :=
  forall fuel units,
    splitIntoClause fuel text maxTokens = Some units ->
    concat (map DocumentProcessor.text units) = cleanText text.

(** A text of 770 one-letter words. *)
Definition longText : jsstr := join [32%N] (repeat (js "a") 770).

(** Fifteen requests of 200 ms each, submitted 55 s after the analyzer
    was created. *)
Definition burst : list Task := repeat (mkTask 200 0) 15.
Definition lateStart : State := mkState 0 0 55000.

(** * Notions used in the further properties *)

Import DocumentComparison.

(** ** The clause units in closed form *)

(** The clause unit made of the words [ws], at position [i]. *)
Definition unitOfWords (i : nat) (ws : list jsstr) : ClauseUnit :=
  mkClauseUnit i (join [32%N] ws) (length ws) (roundTokens (length ws)).

(** Window [j] of [c] words. *)
Definition wordWindow (c : nat) (ws : list jsstr) (j : nat) : list jsstr :=
  firstn c (skipn (j * c) ws).

(** The number of windows of [c] words that [n] words fill. *)
Definition windowCount (c n : nat) : nat := (n + c - 1) / c.

(** What the segmenter returns on a text, when it returns: nothing for a
    text without words, one unit when the words fit the budget, the
    windows of [floor(maxTokens / 1.3)] words otherwise. *)
Definition segmentation (s : jsstr) (maxTokens : Z) : list ClauseUnit :=
  let ws := wordsOf s in
  match ws with
  | [] => []
  | _ =>
      if fitsBudget (length ws) maxTokens then [unitOfWords 0 ws]
      else
        let c := Z.to_nat (chunkSizeOf maxTokens) in
        map (fun j => unitOfWords j (wordWindow c ws j)) (seq 0 (windowCount c (length ws)))
  end.

(** A text of five words and its units under a budget of three tokens,
    which gives windows of two words. *)
Definition fiveWords : jsstr := js "one two  three four five ".
Definition fiveWordsUnits : list ClauseUnit :=
  [ mkClauseUnit 0 (js "one two") 2 3;
    mkClauseUnit 1 (js "three four") 2 3;
    mkClauseUnit 2 (js "five") 1 1 ].

(** ** Words found without regard to case *)

(** [x] is the code unit [c], or the other case of the Basic Latin letter
    [c]. *)
Definition sameLetter (c x : N) : Prop :=
  x = c
  \/ (isUpper c = true /\ x = (c + 32)%N)
  \/ (isLower c = true /\ x = (c - 32)%N).

(** The word occurs in the text, whatever the case of its letters. *)
Definition occursIn (word text : jsstr) : Prop :=
  exists before found after,
    text = before ++ found ++ after /\ Forall2 sameLetter word found.

(** ** Failures of the external model *)

(** A failure that [analyzeClauseWithAI] answers with a new attempt: its
    message, as the scheduler passes it on, mentions an overload and no
    quota. *)
Definition retried (m : jsstr) : Prop :=
  let message := rejection m in
  includes message (js "quota") = false
  /\ includes message (js "429") = false
  /\ (includes message (js "overloaded") = true
      \/ includes message (js "503") = true
      \/ includes message (js "Service Unavailable") = true).

(** ** Glossary *)

(** The key under which an entry is looked up and remembered. *)
Definition termKey (e : GlossaryEntry) : jsstr := toLowerCase (term e).

(** The terms offered to the glossary by a clause. *)
Definition offeredTerms (c : ClauseAnalysis) : list jsstr :=
  important_terms c ++ keywords c.

(** An analysis whose terms and keywords are given. *)
Definition clauseWithTerms (terms kws : list string) : ClauseAnalysis :=
  mkClauseAnalysis 1 [] [] (js "Low") (js "Low") (js "Low") [] (map js kws) (map js terms).

(** What the two passes maintain: the keys of the entries are distinct
    and are the keys remembered; every entry carries the reading of its
    key, which is truthy. *)
Definition glossaryInvariant (st : list GlossaryEntry * gset jsstr) : Prop :=
  NoDup (map termKey (fst st))
  /\ (forall k, k ∈ snd st <-> k ∈ map termKey (fst st))
  /\ Forall (fun e => meaning e = readGlossaryTerm (termKey e)
                      /\ isTruthy (meaning e) = true
                      /\ category e = js "legal") (fst st).

(** ** Counting the clauses of a level *)

(** The clauses whose final risk, in lower case, is [name]. *)
Definition riskCount (name : string) (analyzed : list ClauseAnalysis) : nat :=
  length (List.filter (fun c => eqb (toLowerCase (final_risk c)) (js name)) analyzed).

(** The analysis that the routes store for the analyzed clauses and the
    summary data. *)
Definition routeAnalysis (analyzed : list ClauseAnalysis) (data : SummaryData)
  : DocumentAnalysis :=
  buildAnalysis analyzed (riskDistributionOf analyzed)
    (overallRiskOf (riskDistributionOf analyzed)) data.

(** ** Amounts and periods read from a clause *)

(** An amount that the comparison accepts as a rent. *)
Definition rentRange (n : N) : Prop := (1000 <= n <= 1000000)%N.

(** The pattern has at most one match in the text. *)
Definition matchesOnce (text : jsstr) (pattern : regex) : Prop :=
  forall m, matchAll pattern text = Some m -> (length m <= 1)%nat.

(** ** Clauses that mention no keyword *)

(** No clause of the document mentions a keyword of the list. *)
Definition noneMentions (keywords : list jsstr) (cls : list ClauseAnalysis) : Prop :=
  Forall (fun c => mentions keywords c = false) cls.

(** The clause text that an entry shows for document 1, and for
    document 2. *)
Definition shownLeft (e : ComparisonEntry) : option jsstr := ki_fullText <$> doc1 e.
Definition shownRight (e : ComparisonEntry) : option jsstr := ki_fullText <$> doc2 e.

(** ** Time spent on requests *)

(** The time from the dispatch of the first request of the list to the
    moment the next request can be dispatched: the calls, the delays of
    one second after each, and the lateness of the timers. *)
Definition elapsed (tasks : list Task) : Z :=
  fold_right (fun t acc => (duration t + 1000 + lateness t + acc)%Z) 0%Z tasks.

(** Three requests of 300 ms each. *)
Definition threeTasks : list Task := repeat (mkTask 300 0) 3.
(** * Properties *)

(** ** The string and pattern primitives on small inputs *)

Example ex_tolower : toLowerCase (js "Rent IS Due") = js "rent is due".
Proof. reflexivity. Qed.

Example ex_split_spaces : split reSpaces (js "ab  c d") = [js "ab"; js "c"; js "d"].
Proof. vm_compute. reflexivity. Qed.

Example ex_replace_spaces :
  replaceAll reSpaces (js " ") (js "a" ++ [10; 32; 9]%N ++ js "b") = js "a b".
Proof. vm_compute. reflexivity. Qed.

Example ex_locale : toLocaleString 1234567 = js "1,234,567".
Proof. vm_compute. reflexivity. Qed.

Example ex_lazy_star :
  matchFirst (reAfterWord "rent") (js "the rent is 1500 now") = Some (js "rent is 1500").
Proof. vm_compute. reflexivity. Qed.

(** On a text that still holds its line feed the numbered-clause pattern
    does find the marker. *)
Example ex_split_numbered :
  split reNumbered (js "1. Rent is due." ++ [10%N] ++ js "2. Notice period.")
  = [js "1. Rent is due."; js "Notice period."].
Proof. vm_compute. reflexivity. Qed.

(** ** The matcher *)

Section Matcher.

Context {A : Type}.

(** A match can only succeed through its continuation, which is called on
    suffixes of the text. *)
Lemma starLoop_none (m : jsstr -> (jsstr -> option A) -> option A) (g : bool)
  (k : jsstr -> option A) (s0 : jsstr) :
  (forall s k', s `suffix_of` s0 ->
     (forall s', s' `suffix_of` s -> k' s' = None) -> m s k' = None) ->
  (forall s', s' `suffix_of` s0 -> k s' = None) ->
  forall n s, s `suffix_of` s0 -> starLoop m g k n s = None.
Proof.
  intros Hm Hk n. induction n as [| n IH]; intros s Hs; simpl.
  - auto.
  - assert (Hagain : forall k', k' = (fun s' : list N =>
        if (length s' <? length s)%nat then starLoop m g k n s' else None) ->
        m s k' = None).
    { intros k' ->. apply Hm; [assumption |]. intros s' Hs'.
      destruct (_ <? _)%nat; [| reflexivity].
      apply IH. etrans; eassumption. }
    rewrite (Hagain _ eq_refl), (Hk s Hs). destruct g; reflexivity.
Qed.

End Matcher.

Lemma rmatch_none {A : Type} (r : regex) :
  forall (s : jsstr) (k : jsstr -> option A),
    (forall s', s' `suffix_of` s -> k s' = None) -> rmatch r s k = None.
Proof.
  induction r as [| p | r1 IH1 r2 IH2 | r1 IH1 r2 IH2 | g r IH]; intros s k Hk; simpl.
  - apply Hk. reflexivity.
  - destruct s as [| c s']; [reflexivity |].
    destruct (p c); [| reflexivity]. apply Hk. apply suffix_cons_r. reflexivity.
  - apply IH1. intros s' Hs'. apply IH2. intros s'' Hs''. apply Hk. etrans; eassumption.
  - rewrite (IH1 s k Hk). apply IH2, Hk.
  - apply starLoop_none with (s0 := s); [| assumption | reflexivity].
    intros s1 k' _ Hk'. apply IH, Hk'.
Qed.

(** A greedy star over a class, followed by nothing that can refuse, eats
    the longest run of the class. *)
Lemma starLoop_class (p : N -> bool) :
  forall n s, (length s <= n)%nat ->
    starLoop (fun s' k' => rmatch (Class p) s' k') true Some n s = Some (dropWhile p s).
Proof.
  induction n as [| n IH]; intros s Hn.
  - destruct s; [reflexivity | simpl in Hn; lia].
  - destruct s as [| c s']; [reflexivity |].
    simpl. destruct (p c) eqn:Hp; [| reflexivity].
    assert (Hlt : (length s' <? S (length s'))%nat = true) by (apply Nat.ltb_lt; lia).
    rewrite Hlt. rewrite IH by (simpl in Hn; lia). reflexivity.
Qed.

Lemma matchHere_plus_class (p : N -> bool) (s : jsstr) :
  matchHere (Plus (Class p)) s =
    match s with
    | c :: s' => if p c then Some (dropWhile p s') else None
    | [] => None
    end.
Proof.
  destruct s as [| c s']; [reflexivity |].
  unfold matchHere, Plus. simpl. destruct (p c); [| reflexivity].
  apply starLoop_class. reflexivity.
Qed.

Lemma length_dropWhile (p : N -> bool) (s : jsstr) :
  (length (dropWhile p s) <= length s)%nat.
Proof.
  induction s as [| c s IH]; simpl; [lia |]. destruct (p c); simpl; lia.
Qed.

(** ** White space normalization and words *)

Lemma collapse_true_dropSpace (s : jsstr) :
  collapse true s = collapse false (dropSpace s).
Proof.
  induction s as [| c s IH]; [reflexivity |].
  unfold dropSpace in *. simpl. destruct (isSpace c) eqn:Hc; [exact IH |].
  simpl. rewrite Hc. reflexivity.
Qed.

Lemma replace_spaces_collapse :
  forall f s, (length s < f)%nat -> replaceFrom f reSpaces [32%N] s = collapse false s.
Proof.
  induction f as [| f IH]; intros s Hf; [lia |].
  destruct s as [| c s']; [reflexivity |].
  cbn [replaceFrom]. unfold reSpaces, space. rewrite matchHere_plus_class.
  cbn [collapse]. destruct (isSpace c) eqn:Hc.
  - pose proof (length_dropWhile isSpace s') as Hlen.
    assert (Hlt : (length (dropWhile isSpace s') <? length (c :: s'))%nat = true)
      by (apply Nat.ltb_lt; simpl; lia).
    rewrite Hlt. fold space. fold reSpaces. rewrite IH by (simpl in Hf; lia).
    rewrite collapse_true_dropSpace. reflexivity.
  - fold space. fold reSpaces. rewrite IH by (simpl in Hf; lia). reflexivity.
Qed.

Lemma collapse_no_lf (b : bool) (s : jsstr) :
  Forall (fun c => c <> 10%N) (collapse b s).
Proof.
  revert b. induction s as [| c s IH]; intros b; simpl; [constructor |].
  destruct (isSpace c) eqn:Hc.
  - destruct b; [apply IH |]. constructor; [discriminate | apply IH].
  - constructor; [| apply IH]. intros ->. discriminate Hc.
Qed.

Lemma replace_lf_id (s : jsstr) :
  Forall (fun c => c <> 10%N) s ->
  forall f, replaceFrom f (Plus (chr 10)) [10%N] s = s.
Proof.
  intros Hs f. revert s Hs. induction f as [| f IH]; intros s Hs; [reflexivity |].
  destruct s as [| c s']; [reflexivity |].
  cbn [replaceFrom]. unfold chr. rewrite matchHere_plus_class.
  inversion Hs as [| ? ? Hc Hs']; subst.
  destruct (10 =? c)%N eqn:E; [apply N.eqb_eq in E; congruence |].
  fold (chr 10). rewrite IH by assumption. reflexivity.
Qed.

(** *** [trim] *)

Lemma trim_trimEnd (s : jsstr) : trim s = trimEnd (dropSpace s).
Proof. reflexivity. Qed.

Lemma dropSpace_app (a b : jsstr) :
  dropSpace a <> [] -> dropSpace (a ++ b) = dropSpace a ++ b.
Proof.
  unfold dropSpace. induction a as [| c a IH]; simpl; [congruence |].
  destruct (isSpace c); [exact IH | reflexivity].
Qed.

Lemma trimEnd_app (a b : jsstr) :
  trimEnd b <> [] -> trimEnd (a ++ b) = a ++ trimEnd b.
Proof.
  unfold trimEnd. intros Hb. rewrite rev_app_distr, dropSpace_app.
  - rewrite rev_app_distr, rev_involutive. reflexivity.
  - intros E. rewrite E in Hb. apply Hb. reflexivity.
Qed.

Lemma trimEnd_snoc_space (a : jsstr) (c : N) :
  isSpace c = true -> trimEnd (a ++ [c]) = trimEnd a.
Proof.
  intros Hc. unfold trimEnd, dropSpace. rewrite rev_app_distr. simpl. rewrite Hc.
  reflexivity.
Qed.

Lemma trimEnd_snoc_word (a : jsstr) (c : N) :
  isSpace c = false -> trimEnd (a ++ [c]) = a ++ [c].
Proof.
  intros Hc. unfold trimEnd, dropSpace. rewrite rev_app_distr. simpl. rewrite Hc.
  simpl. rewrite rev_involutive. reflexivity.
Qed.

Lemma spaceFree_snoc (w : jsstr) (c : N) :
  spaceFree w -> isSpace c = false -> spaceFree (w ++ [c]).
Proof. intros Hw Hc. apply Forall_app; split; [assumption | repeat constructor; assumption]. Qed.

(** A word keeps its last code unit under [trimEnd]. *)
Lemma trimEnd_word (w : jsstr) : spaceFree w -> trimEnd w = w.
Proof.
  intros Hw. destruct (rev w) as [| c r] eqn:E.
  - apply (f_equal (@rev N)) in E. rewrite rev_involutive in E. subst. reflexivity.
  - apply (f_equal (@rev N)) in E. rewrite rev_involutive in E. simpl in E. subst w.
    apply trimEnd_snoc_word.
    apply Forall_app in Hw as [_ Hc]. inversion Hc; assumption.
Qed.

(** *** [join] *)

Lemma join_cons (sep x : jsstr) (l : list jsstr) :
  l <> [] -> join sep (x :: l) = x ++ sep ++ join sep l.
Proof. destruct l; [congruence | reflexivity]. Qed.

Lemma join_app (sep : jsstr) (a b : list jsstr) :
  a <> [] -> b <> [] -> join sep (a ++ b) = join sep a ++ sep ++ join sep b.
Proof.
  intros Ha Hb. induction a as [| x a IH]; [congruence |].
  destruct a as [| y a].
  - simpl app. rewrite join_cons by assumption. reflexivity.
  - change ((x :: y :: a) ++ b) with (x :: ((y :: a) ++ b)).
    rewrite join_cons by discriminate. rewrite IH by discriminate.
    rewrite (join_cons sep x (y :: a)) by discriminate.
    rewrite <- !app_assoc. reflexivity.
Qed.

Lemma join_nonempty (sep w : jsstr) (l : list jsstr) :
  w <> [] -> join sep (w :: l) <> [].
Proof.
  intros Hw. destruct w as [| c w]; [congruence |].
  destruct l; simpl; discriminate.
Qed.

(** *** Words *)

Lemma wordsFrom_cur (cur s : jsstr) :
  cur <> [] -> exists w ws, wordsFrom cur s = w :: ws /\ w <> [].
Proof.
  revert cur. induction s as [| c s IH]; intros cur Hcur; simpl.
  - destruct cur; [congruence |]. eauto.
  - destruct (isSpace c).
    + destruct cur; [congruence |]. eauto.
    + apply IH. destruct cur; discriminate.
Qed.

Lemma wordsFrom_words (cur s : jsstr) :
  spaceFree cur -> Forall isWord (wordsFrom cur s).
Proof.
  revert cur. induction s as [| c s IH]; intros cur Hcur; simpl.
  - destruct cur; [constructor |].
    constructor; [split; [discriminate | assumption] | constructor].
  - destruct (isSpace c) eqn:Hc.
    + destruct cur.
      * apply IH. constructor.
      * constructor; [split; [discriminate | assumption] |]. apply IH. constructor.
    + apply IH. apply spaceFree_snoc; assumption.
Qed.

Lemma wordsOf_dropSpace (s : jsstr) : wordsOf (dropSpace s) = wordsOf s.
Proof.
  unfold wordsOf, dropSpace. induction s as [| c s IH]; [reflexivity |].
  simpl. destruct (isSpace c) eqn:Hc; [exact IH |]. simpl. rewrite Hc. reflexivity.
Qed.

Lemma wordsOf_nil_iff (s : jsstr) : wordsOf s = [] <-> dropSpace s = [].
Proof.
  unfold wordsOf, dropSpace. induction s as [| c s IH]; [tauto |].
  simpl. destruct (isSpace c); [exact IH |].
  split; [| discriminate]. intros E.
  destruct (wordsFrom_cur [c] s) as (w & ws & E' & _); [discriminate |].
  simpl in E. congruence.
Qed.

(** The text from the current word on, collapsed and trimmed at its end,
    is the words joined by single spaces: with the word still open, and
    with the word closed by a run of white space. *)
Lemma trimEnd_collapse (s : jsstr) :
  forall cur, cur <> [] -> spaceFree cur ->
    trimEnd (cur ++ collapse false s) = join [32%N] (wordsFrom cur s)
    /\ trimEnd (cur ++ 32%N :: collapse true s) = join [32%N] (cur :: wordsFrom [] s).
Proof.
  induction s as [| c s IH]; intros cur Hne Hfree.
  - simpl. rewrite app_nil_r. split.
    + destruct cur; [congruence |]. apply trimEnd_word. assumption.
    + rewrite trimEnd_snoc_space by reflexivity. apply trimEnd_word. assumption.
  - cbn [collapse wordsFrom]. destruct (isSpace c) eqn:Hc.
    + destruct (IH cur Hne Hfree) as [_ IH2]. split.
      * destruct cur; [congruence |]. exact IH2.
      * exact IH2.
    + assert (Hne' : cur ++ [c] <> []) by (destruct cur; discriminate).
      destruct (IH (cur ++ [c]) Hne' (spaceFree_snoc _ _ Hfree Hc)) as [IH1 _].
      split.
      * rewrite <- IH1, <- app_assoc. reflexivity.
      * destruct (IH [c]) as [IH1' _]; [discriminate | repeat constructor; assumption |].
        destruct (wordsFrom_cur [c] s) as (w & ws & E & Hw); [discriminate |].
        simpl app in IH1'. simpl app. rewrite E in *.
        rewrite join_cons by discriminate.
        change (cur ++ 32%N :: c :: collapse false s)
          with (cur ++ [32%N] ++ (c :: collapse false s)).
        rewrite app_assoc, trimEnd_app.
        -- rewrite IH1', <- app_assoc. reflexivity.
        -- rewrite IH1'. apply join_nonempty. assumption.
Qed.

Lemma dropSpace_collapse (b : bool) (s : jsstr) :
  dropSpace (collapse b s) = collapse false (dropSpace s).
Proof.
  revert b. unfold dropSpace. induction s as [| c s IH]; intros b; [reflexivity |].
  simpl. destruct (isSpace c) eqn:Hc.
  - destruct b; [apply IH |]. simpl. apply IH.
  - simpl. rewrite Hc. reflexivity.
Qed.

Lemma trim_collapse (s : jsstr) :
  trim (collapse false s) = join [32%N] (wordsOf s).
Proof.
  rewrite trim_trimEnd, dropSpace_collapse, <- (wordsOf_dropSpace s).
  pose proof (wordsOf_nil_iff (dropSpace s)) as Hnil.
  unfold dropSpace in *. destruct (dropWhile isSpace s) as [| c t] eqn:E.
  - reflexivity.
  - assert (Hc : isSpace c = false).
    { clear Hnil. induction s as [| d s IH]; [discriminate |].
      simpl in E. destruct (isSpace d) eqn:Hd; [auto | congruence]. }
    unfold wordsOf. simpl. rewrite Hc.
    destruct (trimEnd_collapse t [c]) as [H1 _];
      [discriminate | repeat constructor; assumption |].
    exact H1.
Qed.

(** The normalized text is the words of the input joined by single spaces. *)
Lemma cleanText_words (s : jsstr) : cleanText s = join [32%N] (wordsOf s).
Proof.
  unfold cleanText, replaceAll.
  rewrite replace_spaces_collapse by lia.
  rewrite replace_lf_id by apply collapse_no_lf.
  apply trim_collapse.
Qed.

Lemma wordsOf_words (s : jsstr) : Forall isWord (wordsOf s).
Proof. apply wordsFrom_words. constructor. Qed.

(** ** Splitting *)

Lemma splitFrom_no_match (r : regex) :
  forall fuel acc s,
    (forall s', s' `suffix_of` s -> matchHere r s' = None) ->
    splitFrom fuel r acc s = [acc ++ s].
Proof.
  induction fuel as [| fuel IH]; intros acc s Hs; [reflexivity |].
  destruct s as [| c s']; simpl.
  - rewrite app_nil_r. reflexivity.
  - rewrite (Hs (c :: s')) by reflexivity.
    rewrite IH, <- app_assoc; [reflexivity |].
    intros s'' Hs''. apply Hs. apply suffix_cons_r. assumption.
Qed.

Lemma split_no_match (r : regex) (s : jsstr) :
  s <> [] ->
  (forall s', s' `suffix_of` s -> matchHere r s' = None) ->
  split r s = [s].
Proof.
  intros Hne Hs. destruct s as [| c s']; [congruence |].
  unfold split. apply (splitFrom_no_match r _ [] (c :: s') Hs).
Qed.

Lemma lfFree_suffix (s s' : jsstr) : lfFree s -> s' `suffix_of` s -> lfFree s'.
Proof. intros Hs [pre ->]. apply Forall_app in Hs. tauto. Qed.

(** A line feed is not found in a text without line feeds, whatever must
    follow it. *)
Lemma rmatch_lf {A : Type} (k : jsstr -> option A) (s : jsstr) :
  lfFree s -> rmatch (chr 10) s k = None.
Proof.
  intros Hs. unfold chr. cbn [rmatch].
  destruct s as [| c s']; [reflexivity |].
  inversion Hs as [| ? ? Hc _]; subst.
  destruct (10 =? c)%N eqn:E; [apply N.eqb_eq in E; congruence | reflexivity].
Qed.

Lemma matchHere_lf_first (r : regex) (s : jsstr) :
  lfFree s -> matchHere (Seq (chr 10) r) s = None.
Proof. intros Hs. unfold matchHere. cbn [rmatch]. apply rmatch_lf, Hs. Qed.

Lemma indicator_no_match (r : regex) (s : jsstr) :
  In r clauseIndicators -> lfFree s -> matchHere r s = None.
Proof.
  intros Hin Hs. simpl in Hin.
  destruct Hin as [<- | [<- | [<- | [<- | [<- | [<- | []]]]]]];
    try (apply matchHere_lf_first; assumption).
  unfold reParagraph, matchHere. cbn [rmatch].
  apply rmatch_none. intros s1 Hs1.
  apply (starLoop_none (A := jsstr)) with (s0 := s1); [| | reflexivity].
  - intros s2 k' _ Hk'. apply (rmatch_none space). assumption.
  - intros s2 Hs2. apply rmatch_lf.
    eapply lfFree_suffix; [| eassumption]. eapply lfFree_suffix; eassumption.
Qed.

Lemma isWord_lfFree (w : jsstr) : spaceFree w -> lfFree w.
Proof.
  intros Hw. eapply Forall_impl; [exact Hw |]. intros c Hc ->. discriminate Hc.
Qed.

Lemma join_words_lfFree (ws : list jsstr) :
  Forall isWord ws -> lfFree (join [32%N] ws).
Proof.
  induction ws as [| w ws IH]; intros Hws; [constructor |].
  inversion Hws as [| ? ? [_ Hw] Hws']; subst.
  destruct ws as [| w' ws'].
  - simpl. apply isWord_lfFree. assumption.
  - rewrite join_cons by discriminate. apply Forall_app. split.
    + apply isWord_lfFree. assumption.
    + constructor; [discriminate |]. apply IH. assumption.
Qed.

(** *** Trimming and splitting a text of words *)

Lemma dropSpace_word_app (w rest : jsstr) :
  isWord w -> dropSpace (w ++ rest) = w ++ rest.
Proof.
  intros [Hne Hw]. destruct w as [| c w]; [congruence |].
  inversion Hw as [| ? ? Hc _]; subst. unfold dropSpace. simpl. rewrite Hc. reflexivity.
Qed.

Lemma join_words_head (ws : list jsstr) :
  ws <> [] -> Forall isWord ws -> dropSpace (join [32%N] ws) = join [32%N] ws.
Proof.
  intros Hne Hws. destruct ws as [| w ws]; [congruence |].
  inversion Hws as [| ? ? Hw _]; subst.
  destruct ws as [| w' ws'].
  - simpl. rewrite <- (app_nil_r w). apply dropSpace_word_app. assumption.
  - rewrite join_cons by discriminate. apply dropSpace_word_app. assumption.
Qed.

Lemma join_words_last (ws : list jsstr) :
  ws <> [] -> Forall isWord ws -> trimEnd (join [32%N] ws) = join [32%N] ws.
Proof.
  intros Hne Hws. induction ws as [| w ws IH]; [congruence |].
  inversion Hws as [| ? ? [Hw Hfree] Hws']; subst.
  destruct ws as [| w' ws'].
  - simpl. apply trimEnd_word. assumption.
  - rewrite join_cons by discriminate.
    assert (Hrest : trimEnd (join [32%N] (w' :: ws')) = join [32%N] (w' :: ws'))
      by (apply IH; [discriminate | assumption]).
    rewrite app_assoc, trimEnd_app; rewrite Hrest; [reflexivity |].
    apply join_nonempty. inversion Hws' as [| ? ? [Hw' _] _]. assumption.
Qed.

Lemma trim_join_words (ws : list jsstr) :
  Forall isWord ws -> trim (join [32%N] ws) = join [32%N] ws.
Proof.
  intros Hws. destruct ws as [| w ws]; [reflexivity |].
  rewrite trim_trimEnd, join_words_head by (discriminate || assumption).
  apply join_words_last; [discriminate | assumption].
Qed.

Lemma nonBlank_join_words (ws : list jsstr) :
  ws <> [] -> Forall isWord ws -> nonBlank (join [32%N] ws) = true.
Proof.
  intros Hne Hws. unfold nonBlank. rewrite trim_join_words by assumption.
  destruct ws as [| w ws]; [congruence |].
  inversion Hws as [| ? ? [Hw _] _]; subst.
  pose proof (join_nonempty [32%N] w ws Hw) as Hj.
  destruct (join [32%N] (w :: ws)); [congruence | reflexivity].
Qed.

Lemma splitFrom_word (w : jsstr) :
  spaceFree w ->
  forall fuel acc rest,
    splitFrom (length w + fuel) reSpaces acc (w ++ rest)
    = splitFrom fuel reSpaces (acc ++ w) rest.
Proof.
  induction 1 as [| c w Hc Hw IH]; intros fuel acc rest.
  - simpl. rewrite app_nil_r. reflexivity.
  - cbn [length Nat.add app splitFrom].
    unfold reSpaces at 1, space. rewrite matchHere_plus_class, Hc.
    fold space. fold reSpaces. rewrite IH, <- app_assoc. reflexivity.
Qed.

Lemma splitFrom_words (ws : list jsstr) :
  Forall isWord ws ->
  forall fuel acc w,
    (length (join [32%N] (w :: ws)) <= fuel)%nat -> spaceFree w ->
    splitFrom fuel reSpaces acc (join [32%N] (w :: ws)) = (acc ++ w) :: ws.
Proof.
  induction 1 as [| w' ws [Hne' Hw'] Hws IH]; intros fuel acc w Hfuel Hw.
  - simpl in *. rewrite <- (app_nil_r w) at 1.
    replace fuel with (length w + (fuel - length w))%nat by lia.
    rewrite splitFrom_word by assumption.
    destruct (fuel - length w)%nat; simpl; rewrite ?app_nil_r; reflexivity.
  - rewrite join_cons in * by discriminate.
    rewrite !length_app in Hfuel. cbn [length] in Hfuel.
    replace fuel with (length w + S (fuel - length w - 1))%nat by lia.
    rewrite splitFrom_word by assumption.
    cbn [app splitFrom]. unfold reSpaces at 1, space.
    rewrite matchHere_plus_class. change (isSpace 32) with true. cbv iota.
    fold space. fold reSpaces. fold (dropSpace (join [32%N] (w' :: ws))).
    rewrite join_words_head by (discriminate || (constructor; [split |]; assumption)).
    assert (Hlt : (length (join [32%N] (w' :: ws))
                   =? length (32%N :: join [32%N] (w' :: ws)))%nat = false)
      by (apply Nat.eqb_neq; simpl; lia).
    rewrite Hlt.
    rewrite IH by (lia || assumption).
    destruct (acc ++ w); reflexivity.
Qed.

Lemma split_join_words (ws : list jsstr) :
  ws <> [] -> Forall isWord ws -> split reSpaces (join [32%N] ws) = ws.
Proof.
  intros Hne Hws. destruct ws as [| w ws]; [congruence |].
  inversion Hws as [| ? ? [Hw Hfree] Hws']; subst.
  pose proof (join_nonempty [32%N] w ws Hw) as Hj.
  unfold split. destruct (join [32%N] (w :: ws)) as [| c t] eqn:E; [congruence |].
  rewrite <- E. rewrite splitFrom_words; [reflexivity | assumption | lia | assumption].
Qed.

(** ** The segmenter on an arbitrary text *)

Lemma dropWhile_nil_iff (p : N -> bool) (s : jsstr) :
  dropWhile p s = [] <-> Forall (fun c => p c = true) s.
Proof.
  induction s as [| c s IH]; simpl.
  - split; [constructor | reflexivity].
  - destruct (p c) eqn:Hc.
    + rewrite IH. split; [constructor; assumption | inversion 1; assumption].
    + split; [discriminate | inversion 1; congruence].
Qed.

Lemma dropWhile_head (p : N -> bool) (s t : jsstr) (c : N) :
  dropWhile p s = c :: t -> p c = false.
Proof.
  induction s as [| d s IH]; simpl; [discriminate |].
  destruct (p d) eqn:Hd; [exact IH | congruence].
Qed.

Lemma nonBlank_words (s : jsstr) : nonBlank s = true <-> wordsOf s <> [].
Proof.
  rewrite wordsOf_nil_iff. unfold nonBlank. rewrite trim_trimEnd. split.
  - intros H E. rewrite E in H. discriminate H.
  - intros H. apply Nat.ltb_lt.
    destruct (trimEnd (dropSpace s)) as [| c t] eqn:E; [| simpl; lia].
    exfalso. apply H. unfold trimEnd in E.
    apply (f_equal (@rev N)) in E. rewrite rev_involutive in E. simpl in E.
    apply dropWhile_nil_iff in E.
    apply Forall_rev in E. rewrite rev_involutive in E.
    destruct (dropSpace s) as [| d u] eqn:Ed; [reflexivity |].
    apply dropWhile_head in Ed. inversion E. congruence.
Qed.

Lemma length_wordsFrom (cur s : jsstr) :
  (length (wordsFrom cur s) <= length s + match cur with [] => 0 | _ => 1 end)%nat.
Proof.
  revert cur. induction s as [| c s IH]; intros cur; simpl.
  - destruct cur; simpl; lia.
  - destruct (isSpace c).
    + specialize (IH []). destruct cur; simpl in *; lia.
    + specialize (IH (cur ++ [c])). destruct (cur ++ [c]) eqn:E.
      * destruct cur; discriminate.
      * destruct cur; simpl in *; lia.
Qed.

Lemma length_wordsOf (s : jsstr) : (length (wordsOf s) <= length s)%nat.
Proof. pose proof (length_wordsFrom [] s). simpl in *. unfold wordsOf. lia. Qed.

(** No clause indicator ever splits the normalized text. *)
Lemma applyIndicator_words (ws : list jsstr) (r : regex) :
  ws <> [] -> Forall isWord ws -> In r clauseIndicators ->
  applyIndicator [join [32%N] ws] r = [join [32%N] ws].
Proof.
  intros Hne Hws Hr. unfold applyIndicator. cbn [flat_map].
  rewrite split_no_match.
  - cbn [List.filter]. rewrite nonBlank_join_words by assumption. reflexivity.
  - destruct ws as [| w ws']; [congruence |].
    apply join_nonempty. inversion Hws as [| ? ? [Hw _] _]; assumption.
  - intros s' Hs'. apply indicator_no_match; [assumption |].
    eapply lfFree_suffix; [| eassumption]. apply join_words_lfFree. assumption.
Qed.

Lemma splitByIndicators_words (ws : list jsstr) :
  ws <> [] -> Forall isWord ws ->
  splitByIndicators (join [32%N] ws) = [join [32%N] ws].
Proof.
  intros Hne Hws. unfold splitByIndicators.
  assert (Hall : forall rs, (forall r, In r rs -> In r clauseIndicators) ->
            fold_left applyIndicator rs [join [32%N] ws] = [join [32%N] ws]).
  { induction rs as [| r rs IH]; intros Hrs; [reflexivity |].
    cbn [fold_left]. rewrite applyIndicator_words; [| assumption | assumption |].
    - apply IH. intros r' Hr'. apply Hrs. right. assumption.
    - apply Hrs. left. reflexivity. }
  apply Hall. auto.
Qed.

(** *** The word-window loop *)

Lemma slice_window {A : Type} (l : list A) (k c : nat) :
  (k <= length l)%nat ->
  slice l (Z.of_nat k) (Z.of_nat k + Z.of_nat c) = firstn c (skipn k l).
Proof.
  intros Hk. unfold slice.
  destruct (Z.ltb_spec (Z.of_nat k) 0); [lia |].
  destruct (Z.ltb_spec (Z.of_nat k + Z.of_nat c) 0); [lia |].
  rewrite (Z.min_l (Z.of_nat k)) by lia. rewrite Nat2Z.id.
  destruct (Z.min_spec (Z.of_nat k + Z.of_nat c) (Z.of_nat (length l))) as [[Hlt ->] | [Hge ->]].
  - f_equal. lia.
  - rewrite !firstn_all2; [reflexivity | |]; rewrite length_skipn; lia.
Qed.

Section ChunkLoop.

Variable ws : list jsstr.
Hypothesis Hws : Forall isWord ws.
Variable c : nat.
Hypothesis Hc : (1 <= c)%nat.

Lemma window_words (k : nat) : Forall isWord (firstn c (skipn k ws)).
Proof. apply Forall_take, Forall_drop, Hws. Qed.

Lemma window_nonempty (k : nat) : (k < length ws)%nat -> firstn c (skipn k ws) <> [].
Proof.
  intros Hk E. apply (f_equal (@length jsstr)) in E.
  rewrite length_firstn, length_skipn in E. simpl in E. lia.
Qed.

(** With a positive window the loop ends, and the windows joined by
    single spaces are the words from [k] on joined by single spaces. *)
Lemma chunkLoop_windows :
  forall fuel k final,
    (length ws - k < fuel)%nat ->
    exists units,
      chunkLoop fuel ws (Z.of_nat c) (Z.of_nat k) final = Some (final ++ units)
      /\ join [32%N] (map text units) = join [32%N] (skipn k ws)
      /\ (units = [] <-> (length ws <= k)%nat).
Proof.
  induction fuel as [| fuel IH]; intros k final Hfuel; [lia |].
  cbn [chunkLoop]. destruct (Z.ltb_spec (Z.of_nat k) (Z.of_nat (length ws))) as [Hlt | Hge].
  - rewrite slice_window by lia.
    rewrite nonBlank_join_words by (apply window_nonempty; lia) || apply window_words.
    rewrite trim_join_words by apply window_words.
    rewrite <- Nat2Z.inj_add.
    edestruct (IH (k + c)%nat) as (units & -> & Hjoin & Hnil); [lia |].
    unfold pushUnit. rewrite <- app_assoc. eexists. split; [reflexivity |].
    split; [| split; [discriminate | lia]].
    cbn [app map text].
    rewrite <- (firstn_skipn c (skipn k ws)) at 2.
    assert (Hskip : skipn c (skipn k ws) = skipn (k + c) ws)
      by (rewrite skipn_skipn; f_equal; lia).
    rewrite Hskip.
    destruct units as [| u units].
    + assert (Hk : (length ws <= k + c)%nat) by (apply Hnil; reflexivity).
      rewrite (skipn_all2 (n := (k + c)%nat) ws) by lia. rewrite app_nil_r. reflexivity.
    + assert (Hk : skipn (k + c) ws <> []).
      { intros E. apply (f_equal (@length jsstr)) in E. rewrite length_skipn in E.
        simpl in E. assert (length ws <= k + c)%nat by lia.
        apply Hnil in H. discriminate H. }
      rewrite join_cons by discriminate. rewrite Hjoin.
      rewrite join_app by (assumption || (apply window_nonempty; lia)). reflexivity.
  - exists []. rewrite app_nil_r. split; [reflexivity |].
    split; [| split; [lia | reflexivity]].
    rewrite skipn_all2 by lia. reflexivity.
Qed.

End ChunkLoop.

(** With a window that is not positive the index never passes the first
    word: no amount of fuel lets the loop finish. *)
Lemma chunkLoop_stuck (ws : list jsstr) (c : Z) :
  ws <> [] -> (c <= 0)%Z ->
  forall fuel i final, (i <= 0)%Z -> chunkLoop fuel ws c i final = None.
Proof.
  intros Hne Hc. induction fuel as [| fuel IH]; intros i final Hi; [reflexivity |].
  cbn [chunkLoop].
  destruct (Z.ltb_spec i (Z.of_nat (length ws))) as [_ | Hge].
  - apply IH. lia.
  - destruct ws; [congruence | simpl in Hge; lia].
Qed.

Lemma chunkLoop_more_fuel (ws : list jsstr) (c : Z) :
  forall fuel i final units,
    chunkLoop fuel ws c i final = Some units ->
    forall fuel', (fuel <= fuel')%nat -> chunkLoop fuel' ws c i final = Some units.
Proof.
  induction fuel as [| fuel IH]; intros i final units H fuel' Hle; [discriminate |].
  destruct fuel' as [| fuel']; [lia |].
  cbn [chunkLoop] in *. destruct (i <? Z.of_nat (length ws))%Z; [| assumption].
  eapply IH; [eassumption | lia].
Qed.

(** *** [splitIntoClause] in terms of the words of the text *)

Lemma splitIntoClause_blank (fuel : nat) (s : jsstr) (maxTokens : Z) :
  nonBlank s = false -> splitIntoClause fuel s maxTokens = Some [] /\ cleanText s = [].
Proof.
  intros Hb. unfold splitIntoClause. rewrite Hb. split; [reflexivity |].
  rewrite cleanText_words.
  destruct (wordsOf s) eqn:E; [reflexivity |].
  assert (nonBlank s = true) by (apply nonBlank_words; congruence). congruence.
Qed.

Lemma splitIntoClause_words (fuel : nat) (s : jsstr) (maxTokens : Z) :
  nonBlank s = true ->
  splitIntoClause fuel s maxTokens =
    let ws := wordsOf s in
    if fitsBudget (length ws) maxTokens
    then Some [ mkClauseUnit 0 (join [32%N] ws) (length ws) (roundTokens (length ws)) ]
    else chunkLoop fuel ws (chunkSizeOf maxTokens) 0 [].
Proof.
  intros Hnb. unfold splitIntoClause. rewrite Hnb. cbn [negb].
  pose proof (wordsOf_words s) as Hws.
  assert (Hne : wordsOf s <> []) by (apply nonBlank_words; assumption).
  rewrite cleanText_words, splitByIndicators_words by assumption.
  cbn [sliceClauses]. unfold sliceClause.
  rewrite trim_join_words, split_join_words by assumption.
  cbv zeta. destruct (fitsBudget _ _); [reflexivity |].
  destruct (chunkLoop _ _ _ _ _); reflexivity.
Qed.

(** C10.  Under a budget whose window [floor(maxTokens / 1.3)] is at least
    one word, as the default 1000 gives, [splitIntoClause] returns on every
    text, with a result that does not depend on the fuel once it exceeds
    the length of the text.  The condition is needed: with [maxTokens <= 1]
    the window is not positive (it is 0 for a budget of 0 or 1) and on
    every text that is not blank the loop never exits, whatever the fuel. *)
Theorem splitIntoClause_terminates :
  (1 <= chunkSizeOf defaultMaxTokens)%Z
  /\ (forall (s : jsstr) (maxTokens : Z),
        (1 <= chunkSizeOf maxTokens)%Z ->
        exists units, forall fuel, (length s < fuel)%nat ->
          splitIntoClause fuel s maxTokens = Some units)
  /\ (forall (s : jsstr) (maxTokens : Z),
        (maxTokens <= 1)%Z -> nonBlank s = true ->
        (chunkSizeOf maxTokens <= 0)%Z
        /\ ((0 <= maxTokens)%Z -> chunkSizeOf maxTokens = 0%Z)
        /\ forall fuel, splitIntoClause fuel s maxTokens = None).
Proof.
  split; [| split].
  - vm_compute. discriminate.
  - intros s maxTokens Hc. destruct (nonBlank s) eqn:Hnb.
    + pose proof (wordsOf_words s) as Hws.
      destruct (fitsBudget (length (wordsOf s)) maxTokens) eqn:Hfit.
      * eexists. intros fuel _. rewrite splitIntoClause_words by assumption.
        cbv zeta. rewrite Hfit. reflexivity.
      * destruct (chunkLoop_windows (wordsOf s) Hws (Z.to_nat (chunkSizeOf maxTokens))
                    ltac:(lia) (S (length (wordsOf s))) 0%nat [] ltac:(lia))
          as (units & Hrun & _).
        rewrite Z2Nat.id in Hrun by lia.
        exists ([] ++ units). intros fuel Hfuel.
        rewrite splitIntoClause_words by assumption. cbv zeta. rewrite Hfit.
        eapply chunkLoop_more_fuel; [exact Hrun |].
        pose proof (length_wordsOf s). lia.
    + exists []. intros fuel _. apply splitIntoClause_blank. assumption.
  - intros s maxTokens Hm Hnb.
    assert (Hc : (chunkSizeOf maxTokens <= 0)%Z).
    { unfold chunkSizeOf. apply Z.lt_succ_r. apply Z.div_lt_upper_bound; lia. }
    split; [assumption |]. split.
    { intros H0. unfold chunkSizeOf. apply Z.div_small. lia. }
    intros fuel.
    rewrite splitIntoClause_words by assumption. cbv zeta.
    apply nonBlank_words in Hnb.
    assert (Hfit : fitsBudget (length (wordsOf s)) maxTokens = false).
    { unfold fitsBudget. apply Z.leb_gt. destruct (wordsOf s); [congruence |].
      simpl length. lia. }
    rewrite Hfit. apply chunkLoop_stuck; [assumption | assumption | lia].
Qed.

(** ** Risk rules engine *)

Lemma startsWith_spec (w s : jsstr) :
  startsWith w s = true <-> exists b, s = w ++ b.
Proof.
  revert s. induction w as [| a w IH]; intros s; simpl.
  - split; eauto.
  - destruct s as [| c s].
    + split; [discriminate | intros [b Hb]; discriminate].
    + rewrite andb_true_iff, N.eqb_eq, IH. split.
      * intros [-> [b ->]]. eauto.
      * intros [b Hb]. injection Hb as -> ->. eauto.
Qed.

Lemma includes_spec (s w : jsstr) :
  includes s w = true <-> exists a b, s = a ++ w ++ b.
Proof.
  induction s as [| c s IH]; simpl.
  - rewrite orb_false_r, startsWith_spec. split.
    + intros [b Hb]. exists [], b. assumption.
    + intros (a & b & H). destruct a; [eauto |]. discriminate.
  - rewrite orb_true_iff, startsWith_spec, IH. split.
    + intros [[b Hb] | (a & b & ->)].
      * exists [], b. assumption.
      * exists (c :: a), b. reflexivity.
    + intros (a & b & H). destruct a as [| c' a].
      * left. eauto.
      * right. injection H as -> ->. eauto.
Qed.

(** A text that contains a word in lower case still contains it after
    [toLowerCase]. *)
Lemma includes_toLowerCase (s w : jsstr) :
  toLowerCase w = w -> includes s w = true -> includes (toLowerCase s) w = true.
Proof.
  intros Hw H. apply includes_spec in H as (a & b & ->). apply includes_spec.
  exists (toLowerCase a), (toLowerCase b).
  unfold toLowerCase in *. rewrite !flat_map_app, Hw. reflexivity.
Qed.

Lemma scanKeywords_matched (weight : nat) (keywords : list jsstr) (clauseText : jsstr) :
  forall acc,
    scanKeywords weight keywords (toLowerCase clauseText) acc
    = (fst acc + weight * length (matchedIn keywords clauseText),
       snd acc ++ matchedIn keywords clauseText).
Proof.
  unfold scanKeywords, matchedIn.
  induction keywords as [| k ks IH]; intros [score det]; cbn [fold_left List.filter].
  - cbn [fst snd length]. rewrite app_nil_r. f_equal. lia.
  - destruct (includes _ _); rewrite IH; cbn [fst snd length].
    + rewrite <- app_assoc. f_equal. lia.
    + reflexivity.
Qed.

Lemma uniqueFrom_NoDup (l : list jsstr) :
  forall seen, List.NoDup l -> (forall x, In x l -> x ∉ seen) -> uniqueFrom seen l = l.
Proof.
  induction l as [| x l IH]; intros seen Hnd Hseen; [reflexivity |].
  cbn [uniqueFrom]. inversion Hnd as [| ? ? Hx Hnd']; subst.
  rewrite bool_decide_eq_false_2 by (apply Hseen; left; reflexivity).
  f_equal. apply IH; [assumption |].
  intros y Hy Hin. apply elem_of_cons in Hin as [-> | Hin]; [contradiction |].
  apply (Hseen y); [right |]; assumption.
Qed.

Lemma keywords_NoDup : List.NoDup (riskKeywordsHigh ++ riskKeywordsMedium ++ riskKeywordsLow).
Proof.
  apply NoDup_ListNoDup.
  refine (bool_decide_unpack (NoDup (riskKeywordsHigh ++ riskKeywordsMedium ++ riskKeywordsLow)) _).
  vm_compute. exact I.
Qed.

Lemma levelOfScore_spec (score : nat) :
  levelOfScore score =
    levelName (if (6 <=? score)%nat then High else if (3 <=? score)%nat then Medium else Low).
Proof. unfold levelOfScore. destruct (6 <=? score)%nat, (3 <=? score)%nat; reflexivity. Qed.

(** What the rules engine computes, in closed form. *)
Lemma analyzeRiskByRules_spec (clauseText : jsstr) :
  let hi := matchedIn riskKeywordsHigh clauseText in
  let me := matchedIn riskKeywordsMedium clauseText in
  let lo := matchedIn riskKeywordsLow clauseText in
  let score := (3 * length hi + 2 * length me + 1 * length lo)%nat in
  analyzeRiskByRules clauseText
  = mkRulesVerdict (levelOfScore score) score (hi ++ me ++ lo).
Proof.
  cbv zeta. unfold analyzeRiskByRules. rewrite !scanKeywords_matched. cbn [fst snd].
  rewrite app_nil_l, <- app_assoc. unfold unique.
  rewrite uniqueFrom_NoDup.
  - f_equal; f_equal; lia.
  - unfold matchedIn. rewrite <- !List.filter_app. apply List.NoDup_filter, keywords_NoDup.
  - intros x _ Hin. inversion Hin.
Qed.

(** C6.  The rules engine adds 3 for every high keyword, 2 for every
    medium keyword and 1 for every low keyword found in the clause text
    without regard to case; the level is High from score 6, Medium from
    score 3 and Low below; the keywords returned are those found, each
    once.  A text that contains "penalty" and "personal guarantee" (in
    lower case, or in any case) scores at least 6 and is rated High. *)
Theorem rules_engine_scores (clauseText : jsstr) :
  let v := analyzeRiskByRules clauseText in
  riskScore v = (3 * length (matchedIn riskKeywordsHigh clauseText)
                 + 2 * length (matchedIn riskKeywordsMedium clauseText)
                 + 1 * length (matchedIn riskKeywordsLow clauseText))%nat
  /\ riskLevel v = levelName (if (6 <=? riskScore v)%nat then High
                              else if (3 <=? riskScore v)%nat then Medium else Low)
  /\ detectedKeywords v = matchedIn riskKeywordsHigh clauseText
                          ++ matchedIn riskKeywordsMedium clauseText
                          ++ matchedIn riskKeywordsLow clauseText
  /\ List.NoDup (detectedKeywords v)
  /\ (includes (toLowerCase clauseText) (js "penalty") = true ->
      includes (toLowerCase clauseText) (js "personal guarantee") = true ->
      (6 <= riskScore v)%nat /\ riskLevel v = js "High")
  /\ (includes clauseText (js "penalty") = true ->
      includes clauseText (js "personal guarantee") = true ->
      (6 <= riskScore v)%nat /\ riskLevel v = js "High").
Proof.
  cbv zeta. rewrite analyzeRiskByRules_spec. cbv zeta. cbn [riskScore riskLevel detectedKeywords].
  assert (Hboth : includes (toLowerCase clauseText) (js "penalty") = true ->
                  includes (toLowerCase clauseText) (js "personal guarantee") = true ->
                  (2 <= length (matchedIn riskKeywordsHigh clauseText))%nat).
  { intros H1 H2.
    apply (List.NoDup_incl_length (l := [js "penalty"; js "personal guarantee"])).
    - repeat constructor; simpl; intuition discriminate.
    - intros k [<- | [<- | []]]; apply List.filter_In; split;
        (assumption || (vm_compute; tauto)). }
  assert (Hhigh : includes (toLowerCase clauseText) (js "penalty") = true ->
                  includes (toLowerCase clauseText) (js "personal guarantee") = true ->
                  (6 <= 3 * length (matchedIn riskKeywordsHigh clauseText)
                        + 2 * length (matchedIn riskKeywordsMedium clauseText)
                        + 1 * length (matchedIn riskKeywordsLow clauseText))%nat
                  /\ levelOfScore (3 * length (matchedIn riskKeywordsHigh clauseText)
                        + 2 * length (matchedIn riskKeywordsMedium clauseText)
                        + 1 * length (matchedIn riskKeywordsLow clauseText)) = js "High").
  { intros H1 H2. specialize (Hboth H1 H2). split; [lia |].
    unfold levelOfScore. destruct (Nat.leb_spec 6 (3 * length (matchedIn riskKeywordsHigh clauseText)
                        + 2 * length (matchedIn riskKeywordsMedium clauseText)
                        + 1 * length (matchedIn riskKeywordsLow clauseText))); [reflexivity | lia]. }
  split; [reflexivity |]. split; [apply levelOfScore_spec |]. split; [reflexivity |].
  split; [| split].
  - unfold matchedIn. rewrite <- !List.filter_app. apply List.NoDup_filter, keywords_NoDup.
  - exact Hhigh.
  - intros H1 H2. apply Hhigh; apply includes_toLowerCase; (reflexivity || assumption).
Qed.

(** ** Clause analyzer: fusion of the two verdicts *)

Lemma fusion_is_max (a b : Level) :
  (if geProperty (readRiskLevel (levelName a)) (readRiskLevel (levelName b))
   then levelName a else levelName b) = levelName (maxLevel a b).
Proof. destruct a, b; vm_compute; reflexivity. Qed.






(** *** The fallback path *)

Lemma analyzeFromAttempt_all_errors (replies : nat -> Reply) :
  (forall n, exists m, replies n = ReplyError m) ->
  forall left n, exists e, analyzeFromAttempt left n replies = Throw e.
Proof.
  intros Herr left. induction left as [| left IH]; intros n;
    destruct (Herr n) as [m Hm]; simpl; rewrite Hm.
  - destruct (_ || _); [eauto |]. destruct (_ && _); eauto.
  - destruct (_ || _); [eauto |]. destruct (_ && _); eauto.
Qed.

Lemma analyzeClause_fallback (clauseText : jsstr) (p : nat) (replies : nat -> Reply) :
  (forall n, exists m, replies n = ReplyError m) ->
  analyzeClause clauseText p replies =
    let rules := analyzeRiskByRules clauseText in
    let v := fallbackVerdict rules in
    mkClauseAnalysis p clauseText (ev_explanation v) (riskLevel rules) (riskLevel rules)
      (if geProperty (readRiskLevel (riskLevel rules)) (readRiskLevel (riskLevel rules))
       then riskLevel rules else riskLevel rules)
      (ev_reason v) (detectedKeywords rules) (ev_importantTerms v).
Proof.
  intros Herr. unfold analyzeClause, analyzeClauseWithAI.
  destruct (analyzeFromAttempt_all_errors replies Herr maxRetries 0) as [e ->].
  reflexivity.
Qed.

(** ** Segmenter: the scenario of the specification *)

(** C3.  The scenario text is segmented into one clause, not two: white
    space normalization turns the line feed into a space before the clause
    indicators, which all need a line feed, are tried; on no text do the
    indicators split anything.  That single clause contains the medium
    keyword "notice period"; its rules verdict is Low with score 2, and its
    final risk after the fallback is Low. *)
Theorem scenario_is_one_clause :
  cleanText scenarioText = scenarioClause
  /\ (forall s, nonBlank s = true -> splitByIndicators (cleanText s) = [cleanText s])
  /\ (forall fuel,
        splitIntoClause fuel scenarioText defaultMaxTokens
        = Some [ mkClauseUnit 0 scenarioClause 13 17 ])
  /\ analyzeRiskByRules scenarioClause
     = mkRulesVerdict (js "Low") 2 [js "notice period"]
  /\ (forall (replies : nat -> Reply) (p : nat),
        (forall n, exists m, replies n = ReplyError m) ->
        final_risk (analyzeClause scenarioClause p replies) = js "Low").
Proof.
  split; [| split; [| split; [| split]]].
  - vm_compute. reflexivity.
  - intros s Hnb. rewrite cleanText_words.
    apply splitByIndicators_words; [apply nonBlank_words, Hnb | apply wordsOf_words].
  - intros fuel. vm_compute. reflexivity.
  - vm_compute. reflexivity.
  - intros replies p Herr. rewrite (analyzeClause_fallback _ _ _ Herr).
    vm_compute. reflexivity.
Qed.

(** ** Segmenter: the round trip, as stated and as it holds *)

Lemma longText_split :
  splitIntoClause 3 longText defaultMaxTokens
  = Some [ mkClauseUnit 0 (join [32%N] (repeat (js "a") 769)) 769 1000;
           mkClauseUnit 1 (js "a") 1 1 ].
Proof. vm_compute. reflexivity. Qed.

(** C4, as stated, fails on [longText] with the default budget: the two
    word windows, put end to end, lack the space that separated them. *)
Lemma concat_round_trip_fails : ~ concatRoundTrip longText defaultMaxTokens.
Proof.
  intros H. specialize (H 3%nat _ longText_split).
  apply (f_equal (@length N)) in H. vm_compute in H. discriminate H.
Qed.

(** C4, amended.  Whenever [splitIntoClause] returns, its clauses joined
    in order by single spaces are the normalized text: at a word-window
    boundary the separating space is dropped, nothing else is lost and
    nothing is repeated. *)
Theorem join_round_trip (s : jsstr) (maxTokens : Z) (fuel : nat) (units : list ClauseUnit) :
  splitIntoClause fuel s maxTokens = Some units ->
  join [32%N] (map text units) = cleanText s.
Proof.
  intros Hrun. destruct (nonBlank s) eqn:Hnb.
  - rewrite splitIntoClause_words in Hrun by assumption. cbv zeta in Hrun.
    rewrite cleanText_words.
    destruct (fitsBudget _ _).
    + injection Hrun as <-. reflexivity.
    + destruct (Z.le_gt_cases (chunkSizeOf maxTokens) 0) as [Hle | Hgt].
      * rewrite chunkLoop_stuck in Hrun; [discriminate | | assumption | lia].
        apply nonBlank_words. assumption.
      * destruct (chunkLoop_windows (wordsOf s) (wordsOf_words s)
                    (Z.to_nat (chunkSizeOf maxTokens))
                    ltac:(lia) (S (length (wordsOf s))) 0%nat [] ltac:(lia))
          as (units' & Hrun' & Hjoin & _).
        rewrite Z2Nat.id in Hrun' by lia.
        pose proof (chunkLoop_more_fuel _ _ _ _ _ _ Hrun
                      (Nat.max fuel (S (length (wordsOf s)))) ltac:(lia)) as H1.
        pose proof (chunkLoop_more_fuel _ _ _ _ _ _ Hrun'
                      (Nat.max fuel (S (length (wordsOf s)))) ltac:(lia)) as H2.
        change (Z.of_nat 0) with 0%Z in H2. rewrite H1 in H2.
        injection H2 as ->. exact Hjoin.
  - destruct (splitIntoClause_blank fuel s maxTokens Hnb) as [Hrun' ->].
    rewrite Hrun' in Hrun. injection Hrun as <-. reflexivity.
Qed.

Lemma join_round_trip_witness :
  splitIntoClause 5 longText defaultMaxTokens
    = Some [ mkClauseUnit 0 (join [32%N] (repeat (js "a") 769)) 769 1000;
             mkClauseUnit 1 (js "a") 1 1 ]
  /\ join [32%N] [join [32%N] (repeat (js "a") 769); js "a"] = cleanText longText.
Proof.
  split.
  - vm_compute. reflexivity.
  - apply (join_round_trip longText defaultMaxTokens 5
             [ mkClauseUnit 0 (join [32%N] (repeat (js "a") 769)) 769 1000;
               mkClauseUnit 1 (js "a") 1 1 ]).
    vm_compute. reflexivity.
Defined.

(** ** Risk distribution in general *)

Lemma dom_emptyDistribution :
  dom emptyDistribution = ({[ js "low"; js "medium"; js "high" ]} : gset jsstr).
Proof. unfold emptyDistribution. rewrite !dom_insert_L, dom_empty_L. set_solver. Qed.

Lemma countRisk_sum (dist : gmap jsstr nat) (c : ClauseAnalysis) :
  dom dist = dom emptyDistribution ->
  dom (countRisk dist c) = dom emptyDistribution
  /\ bucketSum (countRisk dist c) = bucketSum dist + (if recognized c then 1 else 0).
Proof.
  intros Hdom. unfold countRisk, recognized.
  destruct (dist !! toLowerCase (final_risk c)) as [n |] eqn:E.
  - assert (Hin : toLowerCase (final_risk c) ∈ dom dist) by (apply elem_of_dom; eauto).
    split.
    + rewrite dom_insert_L. rewrite <- Hdom. set_solver.
    + rewrite Hdom, dom_emptyDistribution in Hin.
      rewrite bool_decide_eq_true_2 by set_solver.
      unfold bucketSum, bucket.
      apply elem_of_union in Hin as [Hin | Hin];
        [apply elem_of_union in Hin as [Hin | Hin] |];
        apply elem_of_singleton in Hin; rewrite Hin in *;
        rewrite lookup_insert_eq, !lookup_insert_ne by discriminate;
        rewrite E; cbn [from_option id]; lia.
  - split; [assumption |].
    rewrite bool_decide_eq_false_2; [lia |].
    intros Hin. apply not_elem_of_dom in E. apply E.
    rewrite Hdom, dom_emptyDistribution. set_solver.
Qed.

(** The three counts add up to the number of clauses whose final risk, in
    lower case, names a bucket. *)
Lemma riskDistribution_sum (analyzed : list ClauseAnalysis) :
  bucketSum (riskDistributionOf analyzed) = length (List.filter recognized analyzed).
Proof.
  unfold riskDistributionOf.
  assert (H : forall dist, dom dist = dom emptyDistribution ->
            bucketSum (fold_left countRisk analyzed dist)
            = bucketSum dist + length (List.filter recognized analyzed)).
  { induction analyzed as [| c analyzed IH]; intros dist Hdom; cbn [fold_left List.filter].
    - cbn [length]. lia.
    - destruct (countRisk_sum dist c Hdom) as [Hdom' Hsum].
      rewrite IH, Hsum by assumption. destruct (recognized c); cbn [length]; lia. }
  rewrite H by reflexivity. vm_compute (bucketSum emptyDistribution). lia.
Qed.

Lemma riskDistribution_le (analyzed : list ClauseAnalysis) :
  bucketSum (riskDistributionOf analyzed) <= length analyzed.
Proof. rewrite riskDistribution_sum. apply List.filter_length_le. Qed.

(** ** Risk distribution: an external verdict outside the three levels *)


(** ** Summary: the rules-based template is never used *)

(** C9.  When the summary request fails, [generateDocumentSummary] itself
    answers with the findings "Unable to generate summary" and the
    recommendation "Manual review recommended"; it does not throw, so the
    [catch] of the comparison route, which holds the rules-based template,
    is not taken, for any clauses and any error message. *)
Theorem failed_summary_is_not_rules_based :
  (forall (analyzed : list ClauseAnalysis) (reply : SummaryReply),
     exists data, generateDocumentSummary analyzed reply = Ok data)
  /\ (forall (analyzed : list ClauseAnalysis) (message : jsstr),
        generateDocumentSummary analyzed (SummaryError message)
        = Ok (mkSummaryData (Some [js "Unable to generate summary"])
                            (Some [js "Manual review recommended"])))
  /\ exists d : DocumentAnalysis,
       analyzeForComparison 100 (js "Tenant pays rent.") 1
         (fun _ _ => ReplyError (js "429 Too Many Requests"))
         (SummaryError (js "QUOTA_EXCEEDED")) = Some d
       /\ keyFindings (summary d) = [js "Unable to generate summary"]
       /\ recommendations (summary d) = [js "Manual review recommended"]
       /\ orList (key_findings
                    (rulesBasedSummary (clauses d) (riskDistribution (summary d))
                       (Routes.overallRisk (summary d))))
          = [ js "Document contains 1 clauses"; js "Overall risk level: Low";
              js "High risk clauses: 0"; js "Medium risk clauses: 0";
              js "Low risk clauses: 1" ].
Proof.
  split; [| split].
  - intros analyzed [k r | t | m]; simpl; eauto.
  - reflexivity.
  - eexists. split; [vm_compute; reflexivity |].
    split; [| split]; vm_compute; reflexivity.
Qed.

(** ** Comparison engine: every clause in exactly one entry *)

Lemma mapResult_app {A B : Type} (f : A -> result B) (l1 l2 : list A) :
  mapResult f (l1 ++ l2)
  = (xs ← mapResult f l1; ys ← mapResult f l2; Ok (xs ++ ys)).
Proof.
  induction l1 as [| x l1 IH]; cbn [app mapResult].
  - destruct (mapResult f l2); reflexivity.
  - destruct (f x) as [y | e]; [| reflexivity]. cbn. rewrite IH.
    destruct (mapResult f l1) as [xs | e]; [| reflexivity]. cbn.
    destruct (mapResult f l2); reflexivity.
Qed.

Lemma findFrom_spec (doc : nat) (matched : matchedSet) (keywords : list jsstr) :
  forall cls i0 i c,
    findFrom i0 doc matched keywords cls = Some (i, c) ->
    i0 <= i /\ cls !! (i - i0) = Some c /\ ((doc, i) ∉ matched).
Proof.
  induction cls as [| d cls IH]; intros i0 i c; cbn [findFrom]; [discriminate |].
  destruct (negb (isMatched matched doc i0) && mentions keywords d) eqn:E.
  - intros [= <- <-]. rewrite Nat.sub_diag. split; [lia |]. split; [reflexivity |].
    apply andb_true_iff in E as [E _]. apply negb_true_iff in E.
    unfold isMatched in E. apply bool_decide_eq_false in E. exact E.
  - intros H. apply IH in H as (Hle & Hc & Hm). split; [lia |]. split; [| assumption].
    replace (i - i0) with (S (i - S i0)) by lia. exact Hc.
Qed.

Lemma findFrom_lookup (doc : nat) (matched : matchedSet) (keywords : list jsstr)
  (clauses : list ClauseAnalysis) :
  (fst <$> findFrom 0 doc matched keywords clauses) ≫= (clauses !!.)
  = snd <$> findFrom 0 doc matched keywords clauses.
Proof.
  destruct (findFrom 0 doc matched keywords clauses) as [[i c] |] eqn:E; [| reflexivity].
  apply findFrom_spec in E as (_ & Hc & _). rewrite Nat.sub_0_r in Hc. exact Hc.
Qed.

Section Pairing.

Variables clauses1 clauses2 : list ClauseAnalysis.

Lemma matchTypes_pairs (types : list (jsstr * list jsstr)) :
  forall matched table,
    matchTypes clauses1 clauses2 (matched, table) types
    = (es ← mapResult (entryOf clauses1 clauses2)
              (snd (typedPairs clauses1 clauses2 matched types));
       Ok (fst (typedPairs clauses1 clauses2 matched types), table ++ es)).
Proof.
  induction types as [| [type keywords] types IH]; intros matched table.
  - cbn. rewrite app_nil_r. reflexivity.
  - cbn [matchTypes typedPairs matchType].
    pose proof (findFrom_lookup 1 matched keywords clauses1) as H1.
    pose proof (findFrom_lookup 2 matched keywords clauses2) as H2.
    assert (Hstep : forall f1 f2,
      f1 = findFrom 0 1 matched keywords clauses1 ->
      f2 = findFrom 0 2 matched keywords clauses2 ->
      (comparison ← generateClauseComparison (option_map snd f1) (option_map snd f2) type;
       Ok (addMatch 2 f2 (addMatch 1 f1 matched), table ++ [comparison]))
        ≫= (fun st' => matchTypes clauses1 clauses2 st' types)
      = (es ← mapResult (entryOf clauses1 clauses2)
                (mkPair type (fst <$> f1) (fst <$> f2)
                 :: snd (typedPairs clauses1 clauses2
                           (addMatch 2 f2 (addMatch 1 f1 matched)) types));
         Ok (fst (typedPairs clauses1 clauses2
                    (addMatch 2 f2 (addMatch 1 f1 matched)) types), table ++ es))).
    { intros f1 f2 -> ->. cbn [mapResult].
      assert (Hentry : entryOf clauses1 clauses2
                (mkPair type (fst <$> findFrom 0 1 matched keywords clauses1)
                             (fst <$> findFrom 0 2 matched keywords clauses2))
              = generateClauseComparison
                  (option_map snd (findFrom 0 1 matched keywords clauses1))
                  (option_map snd (findFrom 0 2 matched keywords clauses2)) type).
      { unfold entryOf. cbn [p_left p_right p_type]. rewrite H1, H2. reflexivity. }
      rewrite Hentry.
      destruct (generateClauseComparison _ _ type) as [x | e]; [| reflexivity].
      cbn [mbind result_bind]. rewrite IH.
      destruct (mapResult _ _) as [es | e]; [| reflexivity].
      cbn [mbind result_bind]. rewrite <- app_assoc. reflexivity. }
    destruct (findFrom 0 1 matched keywords clauses1) as [f1 |] eqn:E1;
      destruct (findFrom 0 2 matched keywords clauses2) as [f2 |] eqn:E2.
    + apply (Hstep (Some f1) (Some f2)); reflexivity.
    + apply (Hstep (Some f1) None); reflexivity.
    + apply (Hstep None (Some f2)); reflexivity.
    + cbn [mbind result_bind]. apply IH.
Qed.

Lemma residuals_pairs (doc : nat) (matched : matchedSet) :
  doc = 1 \/ doc = 2 ->
  forall cls i0 table,
    cls = drop i0 (if (doc =? 1)%nat then clauses1 else clauses2) ->
    residuals i0 doc matched cls table
    = (es ← mapResult (entryOf clauses1 clauses2) (residualPairs i0 doc matched cls);
       Ok (table ++ es)).
Proof.
  intros Hdoc. induction cls as [| c cls IH]; intros i0 table Hdrop.
  - cbn. rewrite app_nil_r. reflexivity.
  - cbn [residuals residualPairs].
    assert (Hc : (if (doc =? 1)%nat then clauses1 else clauses2) !! i0 = Some c).
    { pose proof (f_equal (fun l => l !! 0) Hdrop) as H0. cbn beta in H0.
      rewrite lookup_drop, Nat.add_0_r in H0. symmetry. exact H0. }
    assert (Hrest : cls = drop (S i0) (if (doc =? 1)%nat then clauses1 else clauses2)).
    { pose proof (f_equal (drop 1) Hdrop) as H1. rewrite drop_drop in H1.
      rewrite Nat.add_1_r in H1. exact H1. }
    destruct (isMatched matched doc i0); [apply IH, Hrest |].
    cbn [mapResult].
    assert (Hentry : entryOf clauses1 clauses2
              (if (doc =? 1)%nat then mkPair (js "other") (Some i0) None
               else mkPair (js "other") None (Some i0))
            = (if (doc =? 1)%nat
               then generateClauseComparison (Some c) None (js "other")
               else generateClauseComparison None (Some c) (js "other"))).
    { unfold entryOf. destruct Hdoc as [-> | ->]; cbn [Nat.eqb p_left p_right p_type] in *;
        cbn [mbind option_bind]; rewrite Hc; reflexivity. }
    rewrite Hentry.
    destruct (if (doc =? 1)%nat
              then generateClauseComparison (Some c) None (js "other")
              else generateClauseComparison None (Some c) (js "other")) as [x | e];
      [| reflexivity].
    cbn [mbind result_bind]. rewrite (IH _ _ Hrest).
    destruct (mapResult _ _) as [es | e]; [| reflexivity].
    cbn [mbind result_bind]. rewrite <- app_assoc. reflexivity.
Qed.

Lemma compare_is_pairing :
  compareClausesDetailed clauses1 clauses2
  = mapResult (entryOf clauses1 clauses2) (pairing clauses1 clauses2).
Proof.
  unfold compareClausesDetailed, pairing, typedPart, residualPart.
  rewrite matchTypes_pairs.
  generalize (typedPairs clauses1 clauses2 ∅ clauseTypes). intros [matched typed].
  cbn [fst snd]. rewrite !mapResult_app.
  destruct (mapResult _ typed) as [es | e]; [| reflexivity].
  cbn [mbind result_bind fst snd app].
  rewrite (residuals_pairs 1) by (auto || reflexivity).
  destruct (mapResult _ (residualPairs 0 1 _ _)) as [es1 | e]; [| reflexivity].
  cbn [mbind result_bind].
  rewrite (residuals_pairs 2) by (auto || reflexivity).
  destruct (mapResult _ (residualPairs 0 2 _ _)) as [es2 | e]; [| reflexivity].
  cbn [mbind result_bind]. rewrite <- app_assoc. reflexivity.
Qed.

End Pairing.

Section Partition.

Variables clauses1 clauses2 : list ClauseAnalysis.

Lemma foundAt_fst (f : option (nat * ClauseAnalysis)) :
  foundAt f = match fst <$> f with Some i => [i] | None => [] end.
Proof. destruct f as [[i c] |]; reflexivity. Qed.

Lemma elem_of_addMatch (doc : nat) (f : option (nat * ClauseAnalysis))
  (matched : matchedSet) (d k : nat) :
  (d, k) ∈ addMatch doc f matched <-> (d, k) ∈ matched \/ (d = doc /\ k ∈ foundAt f).
Proof.
  destruct f as [[i c] |]; cbn [addMatch foundAt].
  - rewrite elem_of_union, elem_of_singleton, list_elem_of_singleton.
    split; [intros [[= -> ->] | H] | intros [H | [-> ->]]]; auto.
  - rewrite elem_of_nil. tauto.
Qed.

Lemma foundAt_findFrom (doc : nat) (matched : matchedSet) (kws : list jsstr)
  (cls : list ClauseAnalysis) (i : nat) :
  i ∈ foundAt (findFrom 0 doc matched kws cls) ->
  ((doc, i) ∉ matched) /\ i < length cls.
Proof.
  destruct (findFrom 0 doc matched kws cls) as [[k c] |] eqn:E; cbn [foundAt].
  - rewrite list_elem_of_singleton. intros ->.
    apply findFrom_spec in E as (_ & Hc & Hm). rewrite Nat.sub_0_r in Hc.
    split; [assumption |]. eapply lookup_lt_Some. eassumption.
  - rewrite elem_of_nil. tauto.
Qed.

Lemma pairsInvariant_step (matched after : matchedSet) (type : jsstr)
  (f1 f2 : option (nat * ClauseAnalysis)) (pairs : list Pair) :
  (forall i, i ∈ foundAt f1 -> ((1, i) ∉ matched) /\ i < length clauses1) ->
  (forall j, j ∈ foundAt f2 -> ((2, j) ∉ matched) /\ j < length clauses2) ->
  pairsInvariant clauses1 clauses2 (addMatch 2 f2 (addMatch 1 f1 matched)) after pairs ->
  pairsInvariant clauses1 clauses2 matched after (mkPair type (fst <$> f1) (fst <$> f2) :: pairs).
Proof.
  intros H1 H2 (Hl & Hr & Hlb & Hrb & Hlm & Hrm).
  assert (El : lefts (mkPair type (fst <$> f1) (fst <$> f2) :: pairs)
               = foundAt f1 ++ lefts pairs)
    by (rewrite foundAt_fst; unfold lefts; cbn; destruct (fst <$> f1); reflexivity).
  assert (Er : rights (mkPair type (fst <$> f1) (fst <$> f2) :: pairs)
               = foundAt f2 ++ rights pairs)
    by (rewrite foundAt_fst; unfold rights; cbn; destruct (fst <$> f2); reflexivity).
  assert (M1 : forall i, (1, i) ∈ addMatch 2 f2 (addMatch 1 f1 matched)
                         <-> (1, i) ∈ matched \/ i ∈ foundAt f1).
  { intros i. rewrite !elem_of_addMatch. split; [| tauto].
    intros [[H | [_ H]] | [[=] _]]; auto. }
  assert (M2 : forall j, (2, j) ∈ addMatch 2 f2 (addMatch 1 f1 matched)
                         <-> (2, j) ∈ matched \/ j ∈ foundAt f2).
  { intros j. rewrite !elem_of_addMatch. split; [| tauto].
    intros [[H | [[=] _]] | [_ H]]; auto. }
  assert (N1 : NoDup (foundAt f1)) by (destruct f1 as [[? ?] |]; repeat constructor; apply not_elem_of_nil).
  assert (N2 : NoDup (foundAt f2)) by (destruct f2 as [[? ?] |]; repeat constructor; apply not_elem_of_nil).
  unfold pairsInvariant. rewrite El, Er. repeat split.
  - apply NoDup_app. repeat split; [assumption | | assumption].
    intros i Hi Hi'. apply Hlb in Hi' as [Hi' _]. apply Hi', M1. auto.
  - apply NoDup_app. repeat split; [assumption | | assumption].
    intros j Hj Hj'. apply Hrb in Hj' as [Hj' _]. apply Hj', M2. auto.
  - apply elem_of_app in H as [H | H]; [apply H1, H |].
    apply Hlb in H as [H _]. intros Hm. apply H, M1. auto.
  - apply elem_of_app in H as [H | H]; [apply H1, H | apply Hlb, H].
  - apply elem_of_app in H as [H | H]; [apply H2, H |].
    apply Hrb in H as [H _]. intros Hm. apply H, M2. auto.
  - apply elem_of_app in H as [H | H]; [apply H2, H | apply Hrb, H].
  - rewrite Hlm, M1, elem_of_app. tauto.
  - rewrite Hlm, M1, elem_of_app. tauto.
  - rewrite Hrm, M2, elem_of_app. tauto.
  - rewrite Hrm, M2, elem_of_app. tauto.
Qed.

Lemma typedPairs_invariant (types : list (jsstr * list jsstr)) :
  forall matched,
    pairsInvariant clauses1 clauses2 matched (fst (typedPairs clauses1 clauses2 matched types))
      (snd (typedPairs clauses1 clauses2 matched types)).
Proof.
  induction types as [| [type kws] types IH]; intros matched.
  - cbn [typedPairs fst snd]. unfold pairsInvariant, lefts, rights. cbn [omap list_omap].
    split; [constructor |]. split; [constructor |].
    split; [intros i H; inversion H |]. split; [intros j H; inversion H |].
    split; intros k; (split; [auto | intros [H | H]; [assumption | inversion H]]).
  - cbn [typedPairs].
    pose proof (foundAt_findFrom 1 matched kws clauses1) as H1.
    pose proof (foundAt_findFrom 2 matched kws clauses2) as H2.
    destruct (findFrom 0 1 matched kws clauses1) as [f1 |];
      destruct (findFrom 0 2 matched kws clauses2) as [f2 |]; cbn [fst snd].
    + apply (pairsInvariant_step matched _ type (Some f1) (Some f2)); auto.
    + apply (pairsInvariant_step matched _ type (Some f1) None); auto.
    + apply (pairsInvariant_step matched _ type None (Some f2)); auto.
    + apply IH.
Qed.

Lemma residualPairs_left (matched : matchedSet) (cls : list ClauseAnalysis) :
  forall i0,
    lefts (residualPairs i0 1 matched cls)
      = filter (fun i => (1, i) ∉ matched) (seq i0 (length cls))
    /\ rights (residualPairs i0 1 matched cls) = [].
Proof.
  induction cls as [| c cls IH]; intros i0; [split; reflexivity |].
  cbn [residualPairs length seq]. rewrite filter_cons. unfold isMatched.
  destruct (IH (S i0)) as [IHl IHr].
  destruct (decide ((1, i0) ∈ matched)) as [Hin | Hout].
  - rewrite bool_decide_eq_true_2 by assumption.
    rewrite decide_False by tauto. split; assumption.
  - rewrite bool_decide_eq_false_2 by assumption.
    rewrite decide_True by assumption. cbn [Nat.eqb].
    unfold lefts, rights in *. cbn. rewrite IHl, IHr. split; reflexivity.
Qed.

Lemma residualPairs_right (matched : matchedSet) (cls : list ClauseAnalysis) :
  forall i0,
    rights (residualPairs i0 2 matched cls)
      = filter (fun i => (2, i) ∉ matched) (seq i0 (length cls))
    /\ lefts (residualPairs i0 2 matched cls) = [].
Proof.
  induction cls as [| c cls IH]; intros i0; [split; reflexivity |].
  cbn [residualPairs length seq]. rewrite filter_cons. unfold isMatched.
  destruct (IH (S i0)) as [IHl IHr].
  destruct (decide ((2, i0) ∈ matched)) as [Hin | Hout].
  - rewrite bool_decide_eq_true_2 by assumption.
    rewrite decide_False by tauto. split; assumption.
  - rewrite bool_decide_eq_false_2 by assumption.
    rewrite decide_True by assumption. cbn [Nat.eqb].
    unfold lefts, rights in *. cbn. rewrite IHl, IHr. split; reflexivity.
Qed.

Lemma residualPairs_shape (doc : nat) (matched : matchedSet) (cls : list ClauseAnalysis) :
  forall i0, Forall (fun p => p_type p = js "other" /\ oneSided p)
               (residualPairs i0 doc matched cls).
Proof.
  induction cls as [| c cls IH]; intros i0; cbn [residualPairs]; [constructor |].
  destruct (isMatched matched doc i0); [apply IH |].
  constructor; [| apply IH].
  destruct (doc =? 1); (split; [reflexivity |]); [left | right]; cbn; eauto.
Qed.

Lemma taken_or_left (doc : nat) (n : nat) (after : matchedSet) (taken : list nat) :
  NoDup taken ->
  (forall i, i ∈ taken -> i < n) ->
  (forall i, (doc, i) ∈ after <-> i ∈ taken) ->
  taken ++ filter (fun i => (doc, i) ∉ after) (seq 0 n) ≡ₚ seq 0 n.
Proof.
  intros Hnd Hlt Hafter. apply NoDup_Permutation.
  - apply NoDup_app. repeat split; [assumption | | apply NoDup_filter, NoDup_seq].
    intros i Hi Hi'. apply list_elem_of_filter in Hi' as [Hi' _]. apply Hi', Hafter, Hi.
  - apply NoDup_seq.
  - intros i. rewrite elem_of_app, list_elem_of_filter, elem_of_seq. split.
    + intros [Hi | [_ Hi]]; [apply Hlt in Hi |]; lia.
    + intros Hi. destruct (decide ((doc, i) ∈ after)) as [Hin | Hout].
      * left. apply Hafter, Hin.
      * right. split; [assumption | lia].
Qed.

Lemma lefts_partition (after : matchedSet) (typed : list Pair) :
  pairsInvariant clauses1 clauses2 ∅ after typed ->
  lefts (typed ++ residualPairs 0 1 after clauses1 ++ residualPairs 0 2 after clauses2)
    ≡ₚ seq 0 (length clauses1)
  /\ rights (typed ++ residualPairs 0 1 after clauses1 ++ residualPairs 0 2 after clauses2)
    ≡ₚ seq 0 (length clauses2).
Proof.
  intros (Hl & Hr & Hlb & Hrb & Hlm & Hrm).
  destruct (residualPairs_left after clauses1 0) as [L1 R1].
  destruct (residualPairs_right after clauses2 0) as [R2 L2].
  unfold lefts, rights in *. rewrite !omap_app, L1, L2, R1, R2, app_nil_r, app_nil_l.
  split; (apply taken_or_left; [assumption | apply Hlb || apply Hrb |]).
  - intros i. rewrite Hlm. split; [intros [H | H]; [| assumption] | auto].
    apply not_elem_of_empty in H. contradiction.
  - intros i. rewrite Hrm. split; [intros [H | H]; [| assumption] | auto].
    apply not_elem_of_empty in H. contradiction.
Qed.

Lemma pairing_partition :
  lefts (pairing clauses1 clauses2) ≡ₚ seq 0 (length clauses1)
  /\ rights (pairing clauses1 clauses2) ≡ₚ seq 0 (length clauses2).
Proof.
  exact (lefts_partition _ _ (typedPairs_invariant clauseTypes ∅)).
Qed.

End Partition.

Lemma entryOf_sides (clauses1 clauses2 : list ClauseAnalysis) (p : Pair) (e : ComparisonEntry) :
  entryOf clauses1 clauses2 p = Ok e ->
  doc1 e = (fun c => getKeyInfo c (p_type p)) <$> (p_left p ≫= (clauses1 !!.))
  /\ doc2 e = (fun c => getKeyInfo c (p_type p)) <$> (p_right p ≫= (clauses2 !!.))
  /\ (is_Some (doc1 e) -> doc2 e = None -> difference e = js "Only present in Document 1")
  /\ (doc1 e = None -> is_Some (doc2 e) -> difference e = js "Only present in Document 2").
Proof.
  unfold entryOf, generateClauseComparison.
  destruct (p_left p ≫= (clauses1 !!.)) as [c1 |];
    destruct (p_right p ≫= (clauses2 !!.)) as [c2 |];
    [ destruct (generatePlainEnglishDifference c1 c2 (p_type p)) as [x | err];
      cbn [mbind result_bind]; [| discriminate] | | | ];
    intros [= <-]; cbn [doc1 doc2 difference option_map fmap option_fmap];
    repeat split;
    solve [ reflexivity | discriminate | intros [? [=]] | intros _ [? [=]] ].
Qed.


(** A table on which every clause type takes part: the rent clauses are
    matched and compared, the other clauses stay alone. *)
Example comparison_table :
  exists table,
    compareClausesDetailed
      [lowClause "The tenant keeps two cats."; lowClause "Monthly rent is Rs. 15,000."]
      [lowClause "The rent shall be Rs 18000."; lowClause "Water is included."]
    = Ok table
    /\ map clauseType table = [js "Rent"; js "Utilities"; js "Other"]
    /\ map difference table
       = [ js "Rent differs: " ++ [rupee] ++ js "15,000 vs " ++ [rupee] ++ js "18,000";
           js "Only present in Document 2"; js "Only present in Document 1" ]
    /\ lefts (pairing
         [lowClause "The tenant keeps two cats."; lowClause "Monthly rent is Rs. 15,000."]
         [lowClause "The rent shall be Rs 18000."; lowClause "Water is included."])
       = [1; 0].
Proof.
  eexists. split; [vm_compute; reflexivity |].
  split; [| split]; vm_compute; reflexivity.
Qed.

(** ** When the comparison returns *)

Lemma generatePlainEnglishDifference_ok (c1 c2 : ClauseAnalysis) (type : jsstr) :
  type <> js "deposit" -> type <> js "notice" ->
  exists s, generatePlainEnglishDifference c1 c2 type = Ok s.
Proof.
  intros Hd Hn. unfold generatePlainEnglishDifference.
  destruct (eqb type (js "rent")).
  - destruct (rentAmounts _ _ _ _ _) as [[a1 |] [a2 |]]; eauto.
    destruct (a1 <? a2)%N; [eauto |]. destruct (a2 <? a1)%N; eauto.
  - unfold eqb. rewrite !bool_decide_eq_false_2 by assumption. eauto.
Qed.

Lemma generateClauseComparison_ok (o1 o2 : option ClauseAnalysis) (type : jsstr) :
  o1 = None \/ o2 = None \/ (type <> js "deposit" /\ type <> js "notice") ->
  exists e, generateClauseComparison o1 o2 type = Ok e.
Proof.
  intros H. unfold generateClauseComparison.
  destruct o1 as [c1 |], o2 as [c2 |]; eauto.
  destruct H as [[=] | [[=] | [Hd Hn]]].
  destruct (generatePlainEnglishDifference_ok c1 c2 type Hd Hn) as [s ->].
  cbn [mbind result_bind]. eauto.
Qed.

Lemma mapResult_ok {A B : Type} (f : A -> result B) (l : list A) :
  Forall (fun x => exists y, f x = Ok y) l ->
  exists ys, mapResult f l = Ok ys /\ length ys = length l.
Proof.
  induction 1 as [| x l [y Hy] _ (ys & Hys & Hlen)]; cbn [mapResult].
  - exists []. split; reflexivity.
  - rewrite Hy. cbn [mbind result_bind]. rewrite Hys. cbn [mbind result_bind].
    exists (y :: ys). split; [reflexivity | cbn [length]; lia].
Qed.

(** The comparison returns a table, with one entry per pair, on all
    documents in which type matching pairs no two deposit clauses and no
    two notice clauses. *)
Lemma compare_returns (clauses1 clauses2 : list ClauseAnalysis) :
  Forall (fun p => twoSided p -> p_type p <> js "deposit" /\ p_type p <> js "notice")
    (typedPart clauses1 clauses2) ->
  exists table,
    compareClausesDetailed clauses1 clauses2 = Ok table
    /\ length table = length (pairing clauses1 clauses2).
Proof.
  intros Htyped. rewrite compare_is_pairing. apply mapResult_ok.
  unfold pairing. apply Forall_app. split.
  - eapply Forall_impl; [exact Htyped |]. intros p Hp. unfold entryOf.
    apply generateClauseComparison_ok.
    destruct (p_left p) as [i |] eqn:El; [| left; reflexivity].
    destruct (p_right p) as [j |] eqn:Er; [| right; left; reflexivity].
    right. right. apply Hp. unfold twoSided. rewrite El, Er. eauto.
  - assert (Hres : Forall (fun p => p_type p = js "other" /\ oneSided p)
                     (residualPart clauses1 clauses2))
      by (unfold residualPart; apply Forall_app; split; apply residualPairs_shape).
    eapply Forall_impl; [exact Hres |]. intros p [_ [[_ Hr] | [Hl _]]];
      unfold entryOf; apply generateClauseComparison_ok; rewrite ?Hr, ?Hl; auto.
Qed.

(** ** Comparison engine: a matched deposit or notice pair *)

(** C1.  The comparison of a matched pair of [deposit] clauses, and of a
    matched pair of [notice] clauses, throws a ReferenceError instead of
    yielding an entry: whatever the two clauses are,
    [generateClauseComparison] fails on these two types, and so does
    [compareClausesDetailed] on two one-clause documents that each hold a
    deposit clause (or each a notice clause). *)
Theorem matched_deposit_or_notice_pair_throws :
  (forall c1 c2 : ClauseAnalysis,
     generateClauseComparison (Some c1) (Some c2) (js "deposit")
       = Throw (ReferenceError (js "numbers1 is not defined"))
     /\ generateClauseComparison (Some c1) (Some c2) (js "notice")
       = Throw (ReferenceError (js "numbers1 is not defined")))
  /\ compareClausesDetailed
       [lowClause "The security deposit is 2 months."]
       [lowClause "A deposit of 3 months is due."]
     = Throw (ReferenceError (js "numbers1 is not defined"))
  /\ compareClausesDetailed
       [lowClause "Either party may exit with 2 months notice."]
       [lowClause "Termination requires 30 days notice."]
     = Throw (ReferenceError (js "numbers1 is not defined")).
Proof.
  split; [| split].
  - intros c1 c2. split; reflexivity.
  - vm_compute. reflexivity.
  - vm_compute. reflexivity.
Qed.

(** ** Scheduler *)

Lemma burst_run :
  processQueue 16 lateStart burst
  = Some (mkState 10 61000 73000,
          map (fun t => mkDispatch t 0) [55000; 56200; 57400; 58600; 59800]%Z
          ++ map (fun t => mkDispatch t 61000)
               [61000; 62200; 63400; 64600; 65800; 67000; 68200; 69400; 70600; 71800]%Z).
Proof. vm_compute. reflexivity. Qed.

(** C5, as stated, fails: when the fifteen requests arrive 55 s into a
    counting window, the counter is reset in the middle of the burst and
    all fifteen calls are dispatched within 17 s. *)
Lemma rolling_pacing_fails : ~ rollingPacing lateStart burst.
Proof.
  intros H. destruct (H _ (ex_intro _ 16 (ex_intro _ _ burst_run))) as [_ Hroll].
  specialize (Hroll 55000%Z). vm_compute in Hroll. lia.
Qed.

Lemma processQueue_more_fuel :
  forall fuel st queue r,
    processQueue fuel st queue = Some r ->
    forall fuel', fuel <= fuel' -> processQueue fuel' st queue = Some r.
Proof.
  induction fuel as [| fuel IH]; intros st queue r H fuel' Hle; [discriminate |].
  destruct fuel' as [| fuel']; [lia |].
  cbn [processQueue] in *. destruct queue as [| task rest]; [assumption |].
  destruct (canMakeRequest st) as [st1 ok]. destruct (negb ok).
  - eapply IH; [eassumption | lia].
  - destruct (processQueue fuel _ rest) as [[st' ds] |] eqn:E; [| discriminate].
    rewrite (IH _ _ _ E fuel') by lia. assumption.
Qed.

(** After the wait the window has elapsed: the counter is reset. *)
Lemma canMakeRequest_after_wait (st : State) (late : Z) :
  (0 <= late)%Z ->
  canMakeRequest
    (sleep (requestWindow - (now st - lastResetTime st) + 1000 + late) st)
  = (mkState 0 (lastResetTime st + requestWindow + 1000 + late)
             (lastResetTime st + requestWindow + 1000 + late), true).
Proof.
  intros Hl. unfold canMakeRequest, resetRequestCount, sleep. cbn [now lastResetTime requestCount].
  unfold requestWindow.
  destruct (Z.leb_spec 60000 (now st + (60000 - (now st - lastResetTime st) + 1000 + late)
                              - lastResetTime st)); [| lia].
  cbn [requestCount]. f_equal. f_equal; lia.
Qed.

Lemma processQueue_cons (fuel : nat) (st : State) (task : Task) (rest : list Task) :
  processQueue (S fuel) st (task :: rest)
  = if snd (canMakeRequest st) then
      match processQueue fuel
              (sleep (1000 + lateness task)
                 (sleep (duration task)
                    (mkState (S (requestCount (fst (canMakeRequest st))))
                       (lastResetTime (fst (canMakeRequest st)))
                       (now (fst (canMakeRequest st)))))) rest with
      | Some (st', ds) =>
          Some (st', mkDispatch (now (fst (canMakeRequest st)))
                       (lastResetTime (fst (canMakeRequest st))) :: ds)
      | None => None
      end
    else
      processQueue fuel
        (sleep (requestWindow
                - (now (fst (canMakeRequest st)) - lastResetTime (fst (canMakeRequest st)))
                + 1000 + lateness task) (fst (canMakeRequest st)))
        (task :: rest).
Proof.
  cbn [processQueue]. destruct (canMakeRequest st) as [st1 ok]. destruct ok; reflexivity.
Qed.

Lemma processQueue_terminates (queue : list Task) :
  Forall taskOk queue ->
  forall st, exists r, processQueue (2 * length queue + 1) st queue = Some r.
Proof.
  induction 1 as [| task rest [_ Hlate] _ IH]; intros st; [eexists; reflexivity |].
  replace (2 * length (task :: rest) + 1) with (S (S (2 * length rest + 1)))
    by (cbn [length]; lia).
  rewrite processQueue_cons. destruct (snd (canMakeRequest st)).
  - match goal with |- context [processQueue _ ?s rest] => destruct (IH s) as [[st' ds] Hr] end.
    rewrite (processQueue_more_fuel _ _ _ _ Hr (S (2 * length rest + 1))) by lia.
    eexists. reflexivity.
  - rewrite processQueue_cons, canMakeRequest_after_wait by assumption. cbn [fst snd].
    match goal with |- context [processQueue _ ?s rest] => destruct (IH s) as [[st' ds] Hr] end.
    rewrite Hr. eexists. reflexivity.
Qed.

Lemma thirteenthWaits_cons (d : Dispatch) (ds : list Dispatch) :
  thirteenthWaits ds ->
  (forall b, ds !! 11 = Some b ->
     (window d + requestWindow <= window b /\ window b <= time b)%Z) ->
  thirteenthWaits (d :: ds).
Proof.
  intros Hds Hd i a b Ha Hb. destruct i as [| i].
  - injection Ha as <-. apply Hd. exact Hb.
  - apply (Hds i); assumption.
Qed.

Lemma inWindow_cons (w : Z) (d : Dispatch) (ds : list Dispatch) :
  length (inWindow w (d :: ds))
  = (if (window d =? w)%Z then 1 else 0) + length (inWindow w ds).
Proof. unfold inWindow. cbn [List.filter]. destruct (window d =? w)%Z; reflexivity. Qed.

Lemma inWindow_later (w l : Z) (ds : list Dispatch) :
  (forall k d, ds !! k = Some d -> (l <= window d)%Z) ->
  (w < l)%Z -> inWindow w ds = [].
Proof.
  intros Hds Hw. induction ds as [| d ds IH]; [reflexivity |].
  unfold inWindow in *. cbn [List.filter].
  pose proof (Hds 0 d eq_refl).
  destruct (Z.eqb_spec (window d) w); [lia |].
  apply IH. intros k d' Hk. apply (Hds (S k)). exact Hk.
Qed.

(** One dispatch: from a state [st1] that allows a request, followed by
    the dispatches [ds] made from a later state of the same window. *)
Lemma paced_dispatch (st st1 st4 : State) (ds : list Dispatch) :
  (lastResetTime st1 <= now st1)%Z ->
  (now st1 - lastResetTime st1 < requestWindow)%Z ->
  requestCount st1 < maxRequestsPerMinute ->
  (st1 = st \/ (requestCount st1 = 0 /\ (lastResetTime st + requestWindow <= lastResetTime st1)%Z)) ->
  requestCount st4 = S (requestCount st1) ->
  lastResetTime st4 = lastResetTime st1 ->
  paced st4 ds ->
  paced st (mkDispatch (now st1) (lastResetTime st1) :: ds).
Proof.
  unfold requestWindow, maxRequestsPerMinute.
  intros Hclock Hin Hcount Hreset Hc4 Hl4 (HS & HT & HW).
  unfold paced, requestWindow, maxRequestsPerMinute in *.
  rewrite Hc4, Hl4 in *.
  assert (Hlast : (lastResetTime st <= lastResetTime st1)%Z)
    by (destruct Hreset as [-> | [_ ?]]; lia).
  split; [| split].
  - intros [| k] d Hk.
    + injection Hk as <-. cbn [window time].
      split; [assumption |]. split; [| lia].
      intros Hge. destruct Hreset as [-> | [_ ?]]; lia.
    + destruct (HS k d Hk) as (H1 & H2 & H3).
      split; [lia |]. split; [| assumption].
      intros Hge. destruct Hreset as [-> | [_ ?]]; [apply H2 |]; lia.
  - apply thirteenthWaits_cons; [assumption |].
    intros b Hb. destruct (HS 11 b Hb) as (_ & H2 & H3). cbn [window].
    unfold requestWindow. split; [apply H2|]; lia.
  - intros Hle w. rewrite inWindow_cons. cbn [window].
    destruct Hreset as [-> | [Hzero Hlater]].
    + specialize (HW ltac:(lia) w).
      destruct (Z.eqb_spec (lastResetTime st) w) as [<- | Hne].
      * rewrite Z.eqb_refl in *. lia.
      * destruct (Z.eqb_spec w (lastResetTime st)); [congruence |]. lia.
    + specialize (HW ltac:(lia) w).
      destruct (Z.eqb_spec (lastResetTime st1) w) as [<- | Hne].
      * rewrite Z.eqb_refl in HW.
        destruct (Z.eqb_spec (lastResetTime st1) (lastResetTime st)); lia.
      * destruct (Z.eqb_spec w (lastResetTime st1)); [congruence |].
        destruct (Z.eqb_spec w (lastResetTime st)) as [-> | _]; [| lia].
        rewrite (inWindow_later (lastResetTime st) (lastResetTime st1)); [cbn; lia | | lia].
        intros k d Hk. apply (HS k d Hk).
Qed.

Lemma paced_same_window (st st' : State) (ds : list Dispatch) :
  requestCount st' = requestCount st -> lastResetTime st' = lastResetTime st ->
  paced st' ds -> paced st ds.
Proof. unfold paced. intros -> ->. tauto. Qed.

Lemma processQueue_paced :
  forall fuel st queue st' ds,
    processQueue fuel st queue = Some (st', ds) ->
    Forall taskOk queue -> (lastResetTime st <= now st)%Z ->
    length ds = length queue /\ paced st ds.
Proof.
  induction fuel as [| fuel IH]; intros st queue st' ds Hrun Hq Hclock; [discriminate |].
  cbn [processQueue] in Hrun. destruct queue as [| task rest].
  - injection Hrun as <- <-. split; [reflexivity |].
    unfold paced, thirteenthWaits, maxRequestsPerMinute. cbn.
    repeat split; try (intros; discriminate). intros. destruct (_ =? _)%Z; lia.
  - inversion Hq as [| ? ? [Hdur Hlate] Hrest]; subst.
    unfold canMakeRequest, resetRequestCount in Hrun.
    destruct (Z.leb_spec requestWindow (now st - lastResetTime st)) as [Helapsed | Hwithin].
    + (* the window has elapsed: the counter is reset and the request goes *)
      cbn [requestCount lastResetTime now Nat.ltb Nat.leb negb maxRequestsPerMinute] in Hrun.
      destruct (processQueue fuel _ rest) as [[st2 ds2] |] eqn:E; [| discriminate].
      injection Hrun as <- <-.
      apply IH in E as [Hlen Hp]; [| assumption | cbn; lia].
      split; [cbn [length]; lia |].
      apply (paced_dispatch st (mkState 0 (now st) (now st)) _ ds2) in Hp;
        cbn [requestCount lastResetTime now] in *;
        unfold requestWindow, maxRequestsPerMinute in *; auto; try lia.
    + destruct (Nat.ltb_spec (requestCount st) maxRequestsPerMinute) as [Hroom | Hfull];
        cbn [negb] in Hrun.
      * destruct (processQueue fuel _ rest) as [[st2 ds2] |] eqn:E; [| discriminate].
        injection Hrun as <- <-.
        apply IH in E as [Hlen Hp]; [| assumption | cbn; lia].
        split; [cbn [length]; lia |].
        apply (paced_dispatch st st _ ds2) in Hp; cbn [requestCount lastResetTime] in *;
          auto; lia.
      * apply IH in Hrun as [Hlen Hp];
          [| assumption | cbn; unfold requestWindow in *; lia].
        split; [assumption |].
        eapply paced_same_window; [| | exact Hp]; reflexivity.
Qed.

(** C5, amended.  Every queue of requests is served to its end, and the
    budget holds per counting window: the twelfth call after any call is
    dispatched in a later window, at least [requestWindow] after the
    window of that call began; no counting window holds more than twelve
    dispatches; every dispatch falls inside its counting window. *)
Theorem scheduler_paces_by_window (st : State) (queue : list Task) :
  Forall taskOk queue ->
  (lastResetTime st <= now st)%Z ->
  requestCount st <= maxRequestsPerMinute ->
  exists st' ds,
    (forall fuel, 2 * length queue + 1 <= fuel ->
       processQueue fuel st queue = Some (st', ds))
    /\ length ds = length queue
    /\ thirteenthWaits ds
    /\ windowBudget ds
    /\ Forall (fun d => (window d <= time d < window d + requestWindow)%Z) ds.
Proof.
  intros Hq Hclock Hcount.
  destruct (processQueue_terminates queue Hq st) as [[st' ds] Hrun].
  destruct (processQueue_paced _ _ _ _ _ Hrun Hq Hclock) as (Hlen & HS & HT & HW).
  exists st', ds. split; [| split; [| split; [| split]]].
  - intros fuel Hfuel. eapply processQueue_more_fuel; eassumption.
  - exact Hlen.
  - exact HT.
  - intros w. specialize (HW Hcount w). lia.
  - apply Forall_lookup. intros k d Hk. apply (HS k d Hk).
Qed.

Lemma scheduler_paces_by_window_witness :
  Forall taskOk burst
  /\ (lastResetTime lateStart <= now lateStart)%Z
  /\ requestCount lateStart <= maxRequestsPerMinute
  /\ exists st' ds,
       (forall fuel, 2 * length burst + 1 <= fuel ->
          processQueue fuel lateStart burst = Some (st', ds))
       /\ length ds = length burst
       /\ thirteenthWaits ds
       /\ windowBudget ds
       /\ Forall (fun d => (window d <= time d < window d + requestWindow)%Z) ds.
Proof.
  assert (Hq : Forall taskOk burst) by (repeat constructor; cbn; lia).
  assert (Hclock : (lastResetTime lateStart <= now lateStart)%Z) by (cbn; lia).
  assert (Hcount : requestCount lateStart <= maxRequestsPerMinute) by (cbn; lia).
  split; [exact Hq |]. split; [exact Hclock |]. split; [exact Hcount |].
  exact (scheduler_paces_by_window lateStart burst Hq Hclock Hcount).
Defined.

(** * Further properties *)

(** ** Clause segmenter: the units *)

Lemma wordsFrom_word_app (w : jsstr) :
  spaceFree w -> forall cur rest, wordsFrom cur (w ++ rest) = wordsFrom (cur ++ w) rest.
Proof.
  induction 1 as [| c w Hc _ IH]; intros cur rest.
  - rewrite app_nil_r. reflexivity.
  - cbn [app wordsFrom]. rewrite Hc, IH, <- app_assoc. reflexivity.
Qed.

Lemma wordsOf_join_words (ws : list jsstr) :
  Forall isWord ws -> wordsOf (join [32%N] ws) = ws.
Proof.
  unfold wordsOf. induction 1 as [| w ws [Hne Hw] Hws IH]; [reflexivity |].
  destruct ws as [| w' ws].
  - cbn [join]. rewrite <- (app_nil_r w) at 1. rewrite wordsFrom_word_app by assumption.
    cbn [app wordsFrom]. destruct w; [congruence | reflexivity].
  - rewrite join_cons by discriminate. rewrite wordsFrom_word_app by assumption.
    cbn [app wordsFrom]. replace (isSpace 32) with true by reflexivity.
    rewrite IH. destruct w; [congruence | reflexivity].
Qed.

Lemma windowCount_lt (c n j : nat) :
  (1 <= c)%nat -> (j < windowCount c n)%nat <-> (j * c < n)%nat.
Proof.
  intros Hc. unfold windowCount. split.
  - intros H. destruct (Nat.lt_ge_cases (j * c) n) as [| Hge]; [assumption |].
    exfalso. apply (Nat.lt_irrefl j). eapply Nat.lt_le_trans; [exact H |].
    apply Nat.lt_succ_r. apply Nat.Div0.div_lt_upper_bound; lia.
  - intros H. apply (Nat.div_le_lower_bound (n + c - 1) c (S j)); lia.
Qed.

(** The loop over the windows, from window [j] on, when the units pushed
    so far are [j]. *)
Lemma chunkLoop_units (ws : list jsstr) (c : nat) :
  Forall isWord ws -> (1 <= c)%nat ->
  forall fuel j final out,
    length final = j ->
    chunkLoop fuel ws (Z.of_nat c) (Z.of_nat (j * c)) final = Some out ->
    out = final ++ map (fun i => unitOfWords i (wordWindow c ws i))
                       (seq j (windowCount c (length ws) - j)).
Proof.
  intros Hws Hc. induction fuel as [| fuel IH]; intros j final out Hlen Hrun; [discriminate |].
  cbn [chunkLoop] in Hrun.
  destruct (Z.ltb_spec (Z.of_nat (j * c)) (Z.of_nat (length ws))) as [Hlt | Hge].
  - assert (Hj : (j < windowCount c (length ws))%nat) by (apply windowCount_lt; lia).
    rewrite slice_window in Hrun by lia.
    rewrite nonBlank_join_words in Hrun
      by (apply window_nonempty; lia) || (apply window_words; assumption).
    rewrite trim_join_words in Hrun by (apply window_words; assumption).
    rewrite split_join_words in Hrun
      by (apply window_nonempty; lia) || (apply window_words; assumption).
    rewrite <- Nat2Z.inj_add in Hrun.
    replace (j * c + c)%nat with (S j * c)%nat in Hrun by lia.
    apply IH in Hrun; [| unfold pushUnit; rewrite length_app; cbn [length]; lia].
    rewrite Hrun. unfold pushUnit. rewrite <- app_assoc. f_equal.
    replace (windowCount c (length ws) - j)%nat
      with (S (windowCount c (length ws) - S j)) by lia.
    cbn [seq map app]. rewrite Hlen. reflexivity.
  - injection Hrun as <-.
    assert (Hj : ~ (j < windowCount c (length ws))%nat) by (rewrite windowCount_lt; lia).
    replace (windowCount c (length ws) - j)%nat with 0%nat by lia.
    cbn [seq map]. rewrite app_nil_r. reflexivity.
Qed.

(** Whatever the segmenter returns is the segmentation of the text. *)
Lemma splitIntoClause_units (fuel : nat) (s : jsstr) (maxTokens : Z) (units : list ClauseUnit) :
  splitIntoClause fuel s maxTokens = Some units -> units = segmentation s maxTokens.
Proof.
  intros Hrun. unfold segmentation. destruct (nonBlank s) eqn:Hnb.
  - rewrite splitIntoClause_words in Hrun by assumption. cbv zeta in Hrun.
    pose proof (wordsOf_words s) as Hws.
    apply nonBlank_words in Hnb.
    remember (wordsOf s) as l eqn:E. destruct l as [| w ws]; [congruence |].
    lazy beta iota zeta.
    destruct (fitsBudget (length (w :: ws)) maxTokens);
      [unfold unitOfWords; congruence |].
    destruct (Z.le_gt_cases (chunkSizeOf maxTokens) 0) as [Hle | Hgt].
    + rewrite (chunkLoop_stuck (w :: ws) (chunkSizeOf maxTokens) Hnb Hle fuel 0%Z []) in Hrun
        by reflexivity.
      discriminate.
    + rewrite <- (Z2Nat.id (chunkSizeOf maxTokens)) in Hrun at 1 by lia.
      apply (chunkLoop_units (w :: ws) (Z.to_nat (chunkSizeOf maxTokens)) Hws ltac:(lia)
               fuel 0%nat [] units eq_refl) in Hrun.
      rewrite Nat.sub_0_r in Hrun. exact Hrun.
  - destruct (splitIntoClause_blank fuel s maxTokens Hnb) as [Hb _].
    assert (Hw : wordsOf s = []).
    { destruct (wordsOf s) eqn:E; [reflexivity |].
      assert (nonBlank s = true) by (apply nonBlank_words; congruence). congruence. }
    rewrite Hw. congruence.
Qed.

Lemma length_wordWindow (c : nat) (ws : list jsstr) (j : nat) :
  length (wordWindow c ws j) = Nat.min c (length ws - j * c).
Proof. unfold wordWindow. rewrite length_firstn, length_skipn. reflexivity. Qed.

Lemma roundTokens_le (n : nat) (maxTokens : Z) :
  fitsBudget n maxTokens = true -> (roundTokens n <= maxTokens)%Z.
Proof.
  unfold fitsBudget, roundTokens. intros H. apply Z.leb_le in H.
  apply Z.lt_succ_r. apply Z.div_lt_upper_bound; lia.
Qed.

Lemma chunkSize_fits (maxTokens : Z) (n : nat) :
  (n <= Z.to_nat (chunkSizeOf maxTokens))%nat -> (1 <= n)%nat ->
  fitsBudget n maxTokens = true.
Proof.
  unfold fitsBudget, chunkSizeOf. intros Hn H1. apply Z.leb_le.
  pose proof (Z.mul_div_le (10 * maxTokens) 13 ltac:(lia)). lia.
Qed.

(** The unit at position [i] of a segmentation: its index is [i], it is
    made of words, at least one, and as many as fit the budget. *)
Lemma segmentation_lookup (s : jsstr) (maxTokens : Z) (i : nat) (u : ClauseUnit) :
  segmentation s maxTokens !! i = Some u ->
  exists ws, u = unitOfWords i ws /\ ws <> [] /\ Forall isWord ws
             /\ fitsBudget (length ws) maxTokens = true.
Proof.
  unfold segmentation. pose proof (wordsOf_words s) as Hws.
  destruct (wordsOf s) as [| w ws] eqn:E; [discriminate |].
  destruct (fitsBudget (length (w :: ws)) maxTokens) eqn:Hfit.
  - destruct i as [| i]; [| discriminate]. intros [= <-].
    exists (w :: ws). repeat split; (discriminate || assumption).
  - cbv zeta. set (c := Z.to_nat (chunkSizeOf maxTokens)).
    intros Hu. apply list_lookup_fmap_Some in Hu as (j & -> & Hj).
    apply lookup_seq in Hj as [-> Hj]. cbn [Nat.add] in *.
    assert (Hc : (1 <= c)%nat).
    { destruct c; [| lia]. unfold windowCount in Hj.
      rewrite Nat.add_0_r in Hj. cbn in Hj. lia. }
    apply windowCount_lt in Hj; [| assumption].
    exists (wordWindow c (w :: ws) i). split; [reflexivity |]. split; [| split].
    + apply window_nonempty; assumption.
    + apply window_words. assumption.
    + apply chunkSize_fits; rewrite length_wordWindow; fold c; lia.
Qed.

(** X1.  With a window of at least one word, [splitIntoClause] returns on
    every text once the fuel exceeds its length, and returns its
    segmentation: nothing for a blank text, one clause holding the words of
    the text separated by single spaces when they fit the budget, and
    otherwise the successive windows of [floor(maxTokens / 1.3)] words,
    each joined by single spaces and numbered from 0. *)
Theorem splitIntoClause_is_segmentation (fuel : nat) (s : jsstr) (maxTokens : Z) :
  (1 <= chunkSizeOf maxTokens)%Z -> (length s < fuel)%nat ->
  splitIntoClause fuel s maxTokens = Some (segmentation s maxTokens).
Proof.
  intros Hc Hfuel.
  assert (Hex : exists units, splitIntoClause fuel s maxTokens = Some units).
  { destruct (nonBlank s) eqn:Hnb.
    - rewrite splitIntoClause_words by assumption. cbv zeta.
      destruct (fitsBudget _ _); [eauto |].
      destruct (chunkLoop_windows (wordsOf s) (wordsOf_words s)
                  (Z.to_nat (chunkSizeOf maxTokens)) ltac:(lia) fuel 0%nat [])
        as (units & Hrun & _).
      { pose proof (length_wordsOf s). lia. }
      rewrite Z2Nat.id in Hrun by lia. eauto.
    - exists []. apply splitIntoClause_blank. assumption. }
  destruct Hex as [units Hrun]. rewrite Hrun. f_equal.
  eapply splitIntoClause_units. eassumption.
Qed.

Lemma splitIntoClause_is_segmentation_witness :
  (1 <= chunkSizeOf 3)%Z /\ (length fiveWords < 30)%nat
  /\ splitIntoClause 30 fiveWords 3 = Some (segmentation fiveWords 3).
Proof.
  split; [vm_compute; discriminate |]. split; [vm_compute; lia |].
  apply (splitIntoClause_is_segmentation 30 fiveWords 3); vm_compute; [discriminate | lia].
Defined.

(** X2.  Every clause unit that [splitIntoClause] returns respects the
    budget: it holds at least one word, its word count passes the test
    [wordCount * 1.3 <= maxTokens], and its estimated tokens do not exceed
    [maxTokens]. *)
Theorem units_fit_budget (fuel : nat) (s : jsstr) (maxTokens : Z) (units : list ClauseUnit) :
  splitIntoClause fuel s maxTokens = Some units ->
  Forall (fun u => (1 <= wordCount u)%nat
                   /\ fitsBudget (wordCount u) maxTokens = true
                   /\ (estimatedTokens u <= maxTokens)%Z) units.
Proof.
  intros Hrun. apply splitIntoClause_units in Hrun. subst units.
  apply Forall_lookup. intros i u Hu.
  apply segmentation_lookup in Hu as (ws & -> & Hne & _ & Hfit).
  cbn [unitOfWords wordCount estimatedTokens]. split; [| split].
  - destruct ws; [congruence | cbn [length]; lia].
  - assumption.
  - apply roundTokens_le. assumption.
Qed.

Lemma units_fit_budget_witness :
  splitIntoClause 30 fiveWords 3 = Some fiveWordsUnits
  /\ Forall (fun u => (1 <= wordCount u)%nat
                      /\ fitsBudget (wordCount u) 3 = true
                      /\ (estimatedTokens u <= 3)%Z) fiveWordsUnits.
Proof.
  split; [vm_compute; reflexivity |].
  apply (units_fit_budget 30 fiveWords 3 fiveWordsUnits). vm_compute. reflexivity.
Defined.

(** X3.  The clause units are well formed: the index of a unit is its
    position in the list, its text is not empty and is in normal form
    (normalizing it again changes nothing), its word count is the number of
    words of its text, and its estimated tokens are [Math.round] of 1.3
    times the word count. *)
Theorem units_are_well_formed (fuel : nat) (s : jsstr) (maxTokens : Z)
  (units : list ClauseUnit) (i : nat) (u : ClauseUnit) :
  splitIntoClause fuel s maxTokens = Some units ->
  units !! i = Some u ->
  index u = i
  /\ text u <> []
  /\ cleanText (text u) = text u
  /\ wordCount u = length (wordsOf (text u))
  /\ estimatedTokens u = roundTokens (wordCount u).
Proof.
  intros Hrun Hu. apply splitIntoClause_units in Hrun. subst units.
  apply segmentation_lookup in Hu as (ws & -> & Hne & Hws & _).
  cbn [unitOfWords index text wordCount estimatedTokens].
  rewrite cleanText_words, wordsOf_join_words by assumption.
  repeat split.
  destruct ws as [| w ws]; [congruence |]. inversion Hws as [| ? ? [Hw _] _]; subst.
  apply join_nonempty. assumption.
Qed.

Lemma units_are_well_formed_witness :
  let u := mkClauseUnit 1 (js "three four") 2 3 in
  splitIntoClause 30 fiveWords 3 = Some fiveWordsUnits
  /\ fiveWordsUnits !! 1%nat = Some u
  /\ index u = 1%nat
  /\ text u <> []
  /\ cleanText (text u) = text u
  /\ wordCount u = length (wordsOf (text u))
  /\ estimatedTokens u = roundTokens (wordCount u).
Proof.
  cbv zeta. split; [vm_compute; reflexivity |]. split; [reflexivity |].
  apply (units_are_well_formed 30 fiveWords 3 fiveWordsUnits 1); vm_compute; reflexivity.
Defined.

(** X4.  A text whose words do not fit the budget is cut into windows of
    [chunkSize = floor(maxTokens / 1.3)] words: the number of units is the
    number of words divided by [chunkSize], rounded up; unit [i] holds the
    words from [i * chunkSize] on; every unit but the last holds exactly
    [chunkSize] words. *)
Theorem long_text_is_cut_into_windows (fuel : nat) (s : jsstr) (maxTokens : Z)
  (units : list ClauseUnit) :
  splitIntoClause fuel s maxTokens = Some units ->
  fitsBudget (length (wordsOf s)) maxTokens = false ->
  let chunkSize := Z.to_nat (chunkSizeOf maxTokens) in
  length units = windowCount chunkSize (length (wordsOf s))
  /\ forall i u, units !! i = Some u ->
       text u = join [32%N] (firstn chunkSize (skipn (i * chunkSize) (wordsOf s)))
       /\ ((S i < length units)%nat -> wordCount u = chunkSize).
Proof.
  intros Hrun Hfit chunkSize.
  assert (Hsome := Hrun).
  apply splitIntoClause_units in Hrun. subst units. unfold segmentation in *.
  destruct (wordsOf s) as [| w ws] eqn:E.
  - split; [| intros i u Hu; discriminate].
    unfold windowCount. cbn [length]. symmetry.
    destruct chunkSize; [reflexivity | apply Nat.div_small; lia].
  - rewrite Hfit in *. cbv zeta. fold chunkSize. rewrite length_map, length_seq.
    split; [reflexivity |]. intros i u Hu.
    apply list_lookup_fmap_Some in Hu as (j & -> & Hj).
    apply lookup_seq in Hj as [-> Hj]. cbn [Nat.add] in *.
    cbn [unitOfWords text wordCount]. split; [reflexivity |].
    intros Hnext. rewrite length_wordWindow.
    assert (Hc : (1 <= chunkSize)%nat).
    { destruct chunkSize; [| lia]. unfold windowCount in Hj.
      rewrite Nat.add_0_r in Hj. cbn in Hj. lia. }
    apply windowCount_lt in Hnext; [| assumption]. lia.
Qed.

Lemma long_text_is_cut_into_windows_witness :
  splitIntoClause 30 fiveWords 3 = Some fiveWordsUnits
  /\ fitsBudget (length (wordsOf fiveWords)) 3 = false
  /\ length fiveWordsUnits = windowCount 2 (length (wordsOf fiveWords))
  /\ forall i u, fiveWordsUnits !! i = Some u ->
       text u = join [32%N] (firstn 2 (skipn (i * 2) (wordsOf fiveWords)))
       /\ ((S i < length fiveWordsUnits)%nat -> wordCount u = 2%nat).
Proof.
  split; [vm_compute; reflexivity |]. split; [vm_compute; reflexivity |].
  apply (long_text_is_cut_into_windows 30 fiveWords 3 fiveWordsUnits); vm_compute; reflexivity.
Defined.

(** X5.  [splitIntoClause] returns the empty list on the blank texts and
    on no other: a text that holds a word gives at least one clause. *)
Theorem no_clause_iff_blank (fuel : nat) (s : jsstr) (maxTokens : Z) (units : list ClauseUnit) :
  splitIntoClause fuel s maxTokens = Some units ->
  units = [] <-> trim s = [].
Proof.
  intros Hrun.
  assert (Hblank : trim s = [] <-> nonBlank s = false).
  { unfold nonBlank. destruct (trim s); cbn; split; congruence. }
  rewrite Hblank. destruct (nonBlank s) eqn:Hnb.
  - split; [| discriminate]. intros ->. exfalso.
    rewrite splitIntoClause_words in Hrun by assumption. cbv zeta in Hrun.
    apply nonBlank_words in Hnb.
    destruct (fitsBudget _ _); [discriminate |].
    destruct (Z.le_gt_cases (chunkSizeOf maxTokens) 0) as [Hle | Hgt].
    + rewrite (chunkLoop_stuck (wordsOf s) (chunkSizeOf maxTokens) Hnb Hle fuel 0%Z []) in Hrun
        by reflexivity.
      discriminate.
    + rewrite <- (Z2Nat.id (chunkSizeOf maxTokens)) in Hrun at 1 by lia.
      apply (chunkLoop_units (wordsOf s) (Z.to_nat (chunkSizeOf maxTokens))
               (wordsOf_words s) ltac:(lia) fuel 0%nat [] [] eq_refl) in Hrun.
      rewrite Nat.sub_0_r in Hrun. cbn [app] in Hrun.
      symmetry in Hrun. apply map_eq_nil in Hrun.
      apply (f_equal (@length nat)) in Hrun. rewrite length_seq in Hrun. cbn [length] in Hrun.
      assert (0 < windowCount (Z.to_nat (chunkSizeOf maxTokens)) (length (wordsOf s)))%nat.
      { apply windowCount_lt; [lia |]. destruct (wordsOf s); [congruence | cbn [length]; lia]. }
      lia.
  - split; [reflexivity | intros _].
    destruct (splitIntoClause_blank fuel s maxTokens Hnb) as [Hb _]. congruence.
Qed.

Lemma no_clause_iff_blank_witness :
  splitIntoClause 0 [32%N; 10%N; 9%N] (-5) = Some []
  /\ (@nil ClauseUnit = [] <-> trim [32%N; 10%N; 9%N] = []).
Proof.
  split; [vm_compute; reflexivity |].
  apply (no_clause_iff_blank 0 [32%N; 10%N; 9%N] (-5) []). vm_compute. reflexivity.
Defined.

(** X6.  [cleanText] puts a text in normal form: the result is the words
    of the text (its maximal runs free of white space) separated by single
    spaces, whatever white space separated them; the result holds no line
    feed; normalizing twice is normalizing once. *)
Theorem cleanText_is_normal_form (s : jsstr) :
  cleanText s = join [32%N] (wordsOf s)
  /\ wordsOf (cleanText s) = wordsOf s
  /\ lfFree (cleanText s)
  /\ cleanText (cleanText s) = cleanText s.
Proof.
  pose proof (wordsOf_words s) as Hws.
  rewrite !cleanText_words, wordsOf_join_words by assumption.
  repeat split. apply join_words_lfFree. assumption.
Qed.

(** ** Document type *)

Lemma chri_spec (c : N) :
  exists p, chri c = Class p /\ forall x, p x = true <-> sameLetter c x.
Proof.
  unfold chri. eexists. split; [reflexivity |]. intros x. unfold sameLetter, isUpper, isLower, inRange.
  destruct ((65 <=? c)%N && (c <=? 90)%N) eqn:Hu.
  - rewrite orb_true_iff, !N.eqb_eq. apply andb_true_iff in Hu as [H1 H2].
    apply N.leb_le in H1, H2.
    destruct ((97 <=? c)%N && (c <=? 122)%N) eqn:Hl.
    + apply andb_true_iff in Hl as [H3 H4]. apply N.leb_le in H3, H4. lia.
    + intuition congruence.
  - destruct ((97 <=? c)%N && (c <=? 122)%N) eqn:Hl.
    + rewrite orb_true_iff, !N.eqb_eq. intuition congruence.
    + rewrite N.eqb_eq. intuition congruence.
Qed.

(** A word under the [i] flag matches the prefixes that spell it in any
    case. *)
Lemma rmatch_liti {A : Type} (w : jsstr) :
  forall (s : jsstr) (k : jsstr -> option A) (x : A),
    rmatch (liti w) s k = Some x
    <-> exists found rest, s = found ++ rest /\ Forall2 sameLetter w found /\ k rest = Some x.
Proof.
  induction w as [| c w IH]; intros s k x.
  - cbn [liti rmatch]. split.
    + intros H. exists [], s. repeat split; [constructor | assumption].
    + intros (found & rest & -> & Hf & Hk). inversion Hf; subst. exact Hk.
  - assert (Hone : forall k' : jsstr -> option A,
              rmatch (chri c) s k' = Some x
              <-> exists y s', s = y :: s' /\ sameLetter c y /\ k' s' = Some x).
    { intros k'. destruct (chri_spec c) as (p & -> & Hp). cbn [rmatch].
      destruct s as [| y s'].
      - split; [discriminate | intros (? & ? & [=] & _)].
      - destruct (p y) eqn:Hy.
        + apply Hp in Hy. split; [eauto |]. intros (? & ? & [= <- <-] & _ & Hk). exact Hk.
        + split; [discriminate |]. intros (? & ? & [= <- <-] & Hs & _).
          apply Hp in Hs. congruence. }
    assert (Hseq : rmatch (liti (c :: w)) s k
                   = rmatch (chri c) s (fun s' => rmatch (liti w) s' k)).
    { destruct w; reflexivity. }
    rewrite Hseq, Hone. split.
    + intros (y & s' & -> & Hy & Hrest). apply IH in Hrest as (found & rest & -> & Hf & Hk).
      exists (y :: found), rest. repeat split; [constructor |]; assumption.
    + intros (found & rest & -> & Hf & Hk). inversion Hf as [| ? y ? found' Hy Hf']; subst.
      exists y, (found' ++ rest). repeat split; [assumption |].
      apply IH. eauto.
Qed.

Lemma exec_Some (r : regex) (s : jsstr) :
  is_Some (exec r s) <-> exists before s', s = before ++ s' /\ is_Some (matchHere r s').
Proof.
  induction s as [| c s IH]; cbn [exec].
  - destruct (matchHere r []) as [rest |] eqn:E.
    + split; [| eauto]. intros _. exists [], []. rewrite E. eauto.
    + split; [intros [? [=]] |]. intros (before & s' & Hs & Hm).
      symmetry in Hs. apply app_eq_nil in Hs as [-> ->]. rewrite E in Hm.
      destruct Hm as [? [=]].
  - destruct (matchHere r (c :: s)) as [rest |] eqn:E.
    + split; [| eauto]. intros _. exists [], (c :: s). rewrite E. eauto.
    + rewrite IH. split.
      * intros (before & s' & -> & Hm). exists (c :: before), s'. eauto.
      * intros (before & s' & Hs & Hm). destruct before as [| c' before].
        -- cbn [app] in Hs. subst s'. rewrite E in Hm. destruct Hm as [? [=]].
        -- injection Hs as -> ->. eauto.
Qed.

(** The pattern of a word matches somewhere in the text when the word
    occurs in it in some case, and only then. *)
Lemma matchesLength_liti (word text : jsstr) :
  (matchesLength (liti word) text = 1%nat /\ occursIn word text)
  \/ (matchesLength (liti word) text = 0%nat /\ ~ occursIn word text).
Proof.
  assert (H : is_Some (exec (liti word) text) <-> occursIn word text).
  { rewrite exec_Some. unfold occursIn, matchHere. split.
    - intros (before & s' & -> & [rest Hm]).
      apply rmatch_liti in Hm as (found & rest' & -> & Hf & _). eauto 6.
    - intros (before & found & after & -> & Hf). exists before, (found ++ after).
      split; [reflexivity |]. exists after. apply rmatch_liti. eauto 6. }
  unfold matchesLength, matchFirst.
  destruct (exec (liti word) text) as [[m rest] |].
  - left. split; [reflexivity |]. apply H. eauto.
  - right. split; [reflexivity |]. intros Ho. apply H in Ho as [? [=]].
Qed.

Lemma scoreOf_cons (text word : jsstr) (words : list jsstr) :
  scoreOf text (word :: words)
  = (matchesLength (liti word) text + scoreOf text words)%nat.
Proof.
  unfold scoreOf. cbn [fold_left]. generalize (matchesLength (liti word) text). intros n.
  assert (H : forall a, fold_left (fun score w => (score + matchesLength (liti w) text)%nat) words a
                        = (a + fold_left (fun score w => (score + matchesLength (liti w) text)%nat)
                                 words 0)%nat).
  { induction words as [| w ws IH]; intros a; cbn [fold_left]; [lia |].
    rewrite IH, (IH (0 + _)%nat). lia. }
  rewrite H. lia.
Qed.

(** The score of a type: every word of its list counts once when it
    occurs, however often. *)
Lemma scoreOf_spec (text : jsstr) (words : list jsstr) :
  (scoreOf text words <= length words)%nat
  /\ (scoreOf text words = 0%nat <-> forall word, word ∈ words -> ~ occursIn word text)
  /\ (scoreOf text words = length words <-> forall word, word ∈ words -> occursIn word text).
Proof.
  induction words as [| w ws (IHle & IH0 & IHall)].
  - split; [reflexivity |]. split; (split; [intros _ word Hin; inversion Hin | reflexivity]).
  - rewrite scoreOf_cons. cbn [length].
    destruct (matchesLength_liti w text) as [[-> Ho] | [-> Hn]].
    + split; [lia |]. split.
      * split; [lia |]. intros H. destruct (H w); [left | assumption].
      * split.
        -- intros Hs word Hin. apply elem_of_cons in Hin as [-> | Hin]; [assumption |].
           apply IHall; [lia | assumption].
        -- intros H. f_equal. apply IHall. intros word Hin. apply H. right. assumption.
    + split; [lia |]. split.
      * rewrite Nat.add_0_l, IH0. split.
        -- intros H word Hin. apply elem_of_cons in Hin as [-> | Hin]; [assumption | auto].
        -- intros H word Hin. apply H. right. assumption.
      * split; [lia |]. intros H. destruct Hn. apply H. left.
Qed.

Lemma maxScoreOf_spec (l : list (jsstr * nat)) :
  (forall p, p ∈ l -> (snd p <= maxScoreOf l)%nat)
  /\ (l <> [] -> exists p, p ∈ l /\ snd p = maxScoreOf l).
Proof.
  unfold maxScoreOf. induction l as [| a l [IHle IHmax]]; cbn [map fold_right].
  - split; [intros p Hp; inversion Hp | congruence].
  - split.
    + intros p Hp. apply elem_of_cons in Hp as [-> | Hp]; [lia |].
      specialize (IHle p Hp). lia.
    + intros _. destruct (Nat.max_spec (snd a) (fold_right Nat.max 0%nat (map snd l)))
        as [[Hlt ->] | [Hge ->]].
      * destruct l as [| b l]; [cbn in Hlt; lia |].
        destruct IHmax as (p & Hp & Hs); [discriminate |].
        exists p. split; [right |]; assumption.
      * exists a. split; [left | reflexivity].
Qed.

Lemma find_first {A : Type} (f : A -> bool) (l : list A) :
  match List.find f l with
  | Some p =>
      exists i, l !! i = Some p /\ f p = true
                /\ forall j q, l !! j = Some q -> (j < i)%nat -> f q = false
  | None => forall q, q ∈ l -> f q = false
  end.
Proof.
  induction l as [| a l IH]; cbn [List.find].
  - intros q Hq. inversion Hq.
  - destruct (f a) eqn:Ha.
    + exists 0%nat. repeat split; [assumption |]. intros j q _ Hj. lia.
    + destruct (List.find f l) as [p |].
      * destruct IH as (i & Hi & Hp & Hbefore). exists (S i). repeat split; [assumption .. |].
        intros [| j] q Hq Hj; [injection Hq as <-; assumption |].
        apply (Hbefore j); [assumption | lia].
      * intros q Hq. apply elem_of_cons in Hq as [-> | Hq]; auto.
Qed.

(** The type answered: ["other"] when every score is 0, else the first
    type of the table whose score is the greatest. *)
Lemma detectDocumentType_cases (text : jsstr) :
  (detectDocumentType text = js "other"
   /\ forall entry, entry ∈ typePatterns -> scoreOf text (snd entry) = 0%nat)
  \/ (exists i type words,
        typePatterns !! i = Some (type, words)
        /\ detectDocumentType text = type
        /\ (0 < scoreOf text words)%nat
        /\ forall j type' words',
             typePatterns !! j = Some (type', words') ->
             (scoreOf text words' <= scoreOf text words)%nat
             /\ ((j < i)%nat -> (scoreOf text words' < scoreOf text words)%nat)).
Proof.
  unfold detectDocumentType. cbv zeta.
  destruct (maxScoreOf_spec (scoresOf text)) as [Hle Hmax].
  assert (Hscore : forall j type' words',
            typePatterns !! j = Some (type', words') ->
            scoresOf text !! j = Some (type', scoreOf text words')).
  { intros j type' words' Hj. unfold scoresOf. rewrite list_lookup_fmap, Hj. reflexivity. }
  destruct (Nat.eqb_spec (maxScoreOf (scoresOf text)) 0) as [Hzero | Hpos].
  - left. split; [reflexivity |]. intros [type words] Hin.
    apply list_elem_of_lookup in Hin as [j Hj]. apply Hscore in Hj.
    apply list_elem_of_lookup_2 in Hj. apply Hle in Hj. cbn [snd] in *. lia.
  - right. pose proof (find_first (fun entry => (snd entry =? maxScoreOf (scoresOf text))%nat)
                         (scoresOf text)) as Hfind.
    destruct (List.find _ (scoresOf text)) as [p |].
    + destruct Hfind as (i & Hi & Hp & Hbefore). apply Nat.eqb_eq in Hp.
      unfold scoresOf in Hi. rewrite list_lookup_fmap in Hi.
      destruct (typePatterns !! i) as [[type words] |] eqn:Ei; [| discriminate].
      injection Hi as <-. cbn [fst snd] in *.
      exists i, type, words. split; [exact Ei |]. split; [reflexivity |].
      split; [lia |]. intros j type' words' Hj. apply Hscore in Hj.
      split.
      * apply list_elem_of_lookup_2 in Hj. apply Hle in Hj. cbn [snd] in Hj. lia.
      * intros Hlt. pose proof (Hbefore j _ Hj Hlt) as Hne. cbn [snd] in Hne.
        apply Nat.eqb_neq in Hne.
        apply list_elem_of_lookup_2 in Hj. apply Hle in Hj. cbn [snd] in Hj. lia.
    + exfalso. destruct Hmax as (p & Hp & Hs); [discriminate |].
      apply Hfind in Hp. apply Nat.eqb_neq in Hp. congruence.
Qed.

(** X7.  [detectDocumentType] answers ["other"] exactly when none of the
    words of its table occurs in the text, in any case of the letters. *)
Theorem other_iff_no_word_occurs (text : jsstr) :
  detectDocumentType text = js "other"
  <-> forall type words word,
        (type, words) ∈ typePatterns -> word ∈ words -> ~ occursIn word text.
Proof.
  destruct (detectDocumentType_cases text)
    as [[Hother Hzero] | (i & type & words & Hi & Htype & Hpos & _)].
  - split; [| intros _; exact Hother].
    intros _ type words word Hin Hw.
    apply (scoreOf_spec text words); [| assumption]. apply (Hzero _ Hin).
  - split.
    + intros Hother. exfalso. rewrite Htype in Hother. subst type.
      apply list_elem_of_lookup_2 in Hi.
      assert (Hnames : Forall (fun entry => fst entry <> js "other") typePatterns).
      { refine (bool_decide_unpack (Forall (fun entry => fst entry <> js "other") typePatterns) _).
        vm_compute. exact I. }
      rewrite Forall_forall in Hnames. apply (Hnames _ Hi). exact Hother.
    + intros Hnone. exfalso. apply list_elem_of_lookup_2 in Hi.
      assert (scoreOf text words = 0%nat); [| lia].
      apply scoreOf_spec. intros word Hw. eapply Hnone; eassumption.
Qed.

Lemma occursIn_includes (word text : jsstr) :
  includes text word = true -> occursIn word text.
Proof.
  intros H. apply includes_spec in H as (a & b & ->). exists a, word, b.
  split; [reflexivity |]. induction word; constructor; [left; reflexivity | assumption].
Qed.

(** A word in lower case that occurs in a text in some case occurs as it
    is in the text in lower case. *)
Lemma occursIn_toLowerCase (word text : jsstr) :
  Forall (fun c => lowerUnit c = [c]) word ->
  occursIn word text -> includes (toLowerCase text) word = true.
Proof.
  intros Hlow (before & found & after & -> & Hf). apply includes_spec.
  exists (toLowerCase before), (toLowerCase after).
  unfold toLowerCase. rewrite !flat_map_app. f_equal. f_equal.
  induction Hf as [| c x word found Hcx Hf IH]; [reflexivity |].
  inversion Hlow as [| ? ? Hc Hlow']; subst. cbn [flat_map].
  rewrite IH by assumption. change (c :: word) with ([c] ++ word). f_equal.
  destruct Hcx as [-> | [[Hu ->] | [Hl ->]]]; [assumption | |].
  - unfold lowerUnit in Hc. rewrite Hu in Hc. injection Hc as Hc. lia.
  - unfold lowerUnit, isUpper, isLower, inRange in *.
    apply andb_true_iff in Hl as [H1 H2]. apply N.leb_le in H1, H2.
    replace ((65 <=? c - 32)%N && (c - 32 <=? 90)%N) with true
      by (symmetry; apply andb_true_iff; split; apply N.leb_le; lia).
    f_equal. lia.
Qed.

Lemma typePatterns_lower :
  Forall (fun entry => Forall (Forall (fun c => lowerUnit c = [c])) (snd entry)) typePatterns.
Proof.
  refine (bool_decide_unpack
            (Forall (fun entry => Forall (Forall (fun c => lowerUnit c = [c])) (snd entry))
               typePatterns) _).
  vm_compute. exact I.
Qed.

(** X8.  When some word of the table occurs in the text,
    [detectDocumentType] answers the type of the table with the greatest
    score, and among the types with that score the one that comes first in
    the table; when none occurs it answers ["other"].  It thus answers one
    of the four types of the table or ["other"]. *)
Theorem detectDocumentType_picks_first_best (text : jsstr) :
  (detectDocumentType text = js "other"
   /\ forall entry, entry ∈ typePatterns -> scoreOf text (snd entry) = 0%nat)
  \/ (exists i words,
        typePatterns !! i = Some (detectDocumentType text, words)
        /\ (0 < scoreOf text words)%nat
        /\ forall j type' words',
             typePatterns !! j = Some (type', words') ->
             (scoreOf text words' <= scoreOf text words)%nat
             /\ ((j < i)%nat -> (scoreOf text words' < scoreOf text words)%nat)).
Proof.
  destruct (detectDocumentType_cases text)
    as [H | (i & type & words & Hi & <- & Hpos & Hbest)]; [left; exact H |].
  right. exists i, words. auto.
Qed.

(** X9.  The score of a type counts the words of its list that occur in
    the text, each once however often it occurs: it is at most the number
    of words, it is 0 when no word occurs in any case of the letters, and
    it is positive as soon as the text contains one of the words; when it
    is positive, the text in lower case contains one of the words. *)
Theorem type_score_counts_each_word_once (text type : jsstr) (words : list jsstr) :
  (type, words) ∈ typePatterns ->
  (scoreOf text words <= length words)%nat
  /\ (scoreOf text words = 0%nat <-> forall word, word ∈ words -> ~ occursIn word text)
  /\ (scoreOf text words = length words <-> forall word, word ∈ words -> occursIn word text)
  /\ (forall word, word ∈ words -> includes text word = true -> (0 < scoreOf text words)%nat)
  /\ ((0 < scoreOf text words)%nat ->
      exists word, word ∈ words /\ includes (toLowerCase text) word = true).
Proof.
  intros Hin. destruct (scoreOf_spec text words) as (Hle & Hzero & Hall).
  split; [exact Hle |]. split; [exact Hzero |]. split; [exact Hall |]. split.
  - intros word Hw Hinc. apply occursIn_includes in Hinc.
    destruct (scoreOf text words) eqn:E; [| lia].
    exfalso. exact (proj1 Hzero eq_refl word Hw Hinc).
  - intros Hpos.
    pose proof typePatterns_lower as Hlow. rewrite Forall_forall in Hlow.
    specialize (Hlow _ Hin). cbn [snd] in Hlow. clear Hle Hzero Hall Hin.
    induction words as [| w ws IH]; [unfold scoreOf in Hpos; cbn in Hpos; lia |].
    inversion Hlow as [| ? ? Hw Hws]; subst. rewrite scoreOf_cons in Hpos.
    destruct (matchesLength_liti w text) as [[_ Ho] | [Hz _]].
    + exists w. split; [left |]. apply occursIn_toLowerCase; assumption.
    + destruct IH as (word & Hword & Hinc); [lia | assumption |].
      exists word. split; [right |]; assumption.
Qed.

Lemma type_score_counts_each_word_once_witness :
  let text := js "The TENANT pays the Rent; the rent is due monthly." in
  let words := map js ["rent"; "lease"; "tenant"; "landlord"; "property"; "premises"]%string in
  (js "rental_agreement", words) ∈ typePatterns
  /\ (scoreOf text words <= length words)%nat
  /\ (scoreOf text words = 0%nat <-> forall word, word ∈ words -> ~ occursIn word text)
  /\ (scoreOf text words = length words <-> forall word, word ∈ words -> occursIn word text)
  /\ (forall word, word ∈ words -> includes text word = true -> (0 < scoreOf text words)%nat)
  /\ ((0 < scoreOf text words)%nat ->
      exists word, word ∈ words /\ includes (toLowerCase text) word = true).
Proof.
  cbv zeta.
  assert (Hin : (js "rental_agreement",
                 map js ["rent"; "lease"; "tenant"; "landlord"; "property"; "premises"]%string)
                ∈ typePatterns).
  { apply (list_elem_of_lookup_2 _ 0%nat). vm_compute. reflexivity. }
  split; [exact Hin |].
  exact (type_score_counts_each_word_once _ _ _ Hin).
Defined.

Example detectDocumentType_examples :
  detectDocumentType (js "The TENANT pays the Rent; the rent is due monthly.")
    = js "rental_agreement"
  /\ detectDocumentType (js "The Lender charges interest on the loan; rent, lease, tenant.")
    = js "rental_agreement"
  /\ detectDocumentType (js "Terms of Service of the website") = js "terms_of_service"
  /\ detectDocumentType (js "Nothing of note.") = js "other".
Proof. repeat split; vm_compute; reflexivity. Qed.

(** ** Rules engine: more text, no less risk *)

Lemma includes_app (pre s post w : jsstr) :
  includes s w = true -> includes (pre ++ s ++ post) w = true.
Proof.
  intros H. apply includes_spec in H as (a & b & ->). apply includes_spec.
  exists (pre ++ a), (b ++ post). rewrite <- !app_assoc. reflexivity.
Qed.

Lemma toLowerCase_app (a b : jsstr) : toLowerCase (a ++ b) = toLowerCase a ++ toLowerCase b.
Proof. apply flat_map_app. Qed.

Lemma filter_length_mono {A : Type} (f g : A -> bool) (l : list A) :
  (forall x, f x = true -> g x = true) ->
  (length (List.filter f l) <= length (List.filter g l))%nat.
Proof.
  intros Hfg. induction l as [| x l IH]; cbn [List.filter]; [lia |].
  destruct (f x) eqn:Hf.
  - rewrite (Hfg x Hf). cbn [length]. lia.
  - destruct (g x); cbn [length]; lia.
Qed.

Lemma matchedIn_mono (keywords : list jsstr) (pre t post : jsstr) :
  (forall k, In k (matchedIn keywords t) -> In k (matchedIn keywords (pre ++ t ++ post)))
  /\ (length (matchedIn keywords t) <= length (matchedIn keywords (pre ++ t ++ post)))%nat.
Proof.
  assert (H : forall k, includes (toLowerCase t) (toLowerCase k) = true ->
                        includes (toLowerCase (pre ++ t ++ post)) (toLowerCase k) = true).
  { intros k Hk. rewrite !toLowerCase_app. apply includes_app. assumption. }
  unfold matchedIn. split.
  - intros k Hk. apply List.filter_In in Hk as [Hin Hk]. apply List.filter_In. auto.
  - apply filter_length_mono. assumption.
Qed.

(** X10.  Putting text before or after a clause never lowers its verdict:
    the score of the longer text is at least the score of the clause, its
    level is at least as high, and every keyword detected in the clause is
    detected in the longer text. *)
Theorem rules_verdict_is_monotone (pre t post : jsstr) :
  let v := analyzeRiskByRules t in
  let v' := analyzeRiskByRules (pre ++ t ++ post) in
  (riskScore v <= riskScore v')%nat
  /\ (exists l l', riskLevel v = levelName l /\ riskLevel v' = levelName l'
                   /\ (rank l <= rank l')%nat)
  /\ (forall k, In k (detectedKeywords v) -> In k (detectedKeywords v')).
Proof.
  cbv zeta. rewrite !analyzeRiskByRules_spec. cbv zeta.
  cbn [riskScore riskLevel detectedKeywords].
  destruct (matchedIn_mono riskKeywordsHigh pre t post) as [Hh Lh].
  destruct (matchedIn_mono riskKeywordsMedium pre t post) as [Hm Lm].
  destruct (matchedIn_mono riskKeywordsLow pre t post) as [Hl Ll].
  split; [lia |]. split.
  - rewrite !levelOfScore_spec. eexists _, _. split; [reflexivity |]. split; [reflexivity |].
    repeat match goal with |- context [(?a <=? ?b)%nat] => destruct (Nat.leb_spec a b) end;
      cbn [rank]; lia.
  - intros k Hk. rewrite !in_app_iff in *. intuition.
Qed.

(** ** External analysis: the attempts *)

Lemma analyzeFromAttempt_ext (replies replies' : nat -> Reply) :
  forall left n,
    (forall k, (n <= k <= n + left)%nat -> replies k = replies' k) ->
    analyzeFromAttempt left n replies = analyzeFromAttempt left n replies'.
Proof.
  induction left as [| left IH]; intros n H; cbn [analyzeFromAttempt];
    rewrite <- (H n) by lia; destruct (replies n); try reflexivity.
  destruct (_ || _); [reflexivity |]. destruct (_ && _); [| reflexivity].
  apply IH. intros k Hk. apply H. lia.
Qed.

(** X11.  [analyzeClauseWithAI] sends at most three requests: its result
    depends on the answers to the attempts 0, 1 and 2 only. *)
Theorem external_analysis_makes_at_most_three_attempts (replies replies' : nat -> Reply) :
  (forall k, (k <= 2)%nat -> replies k = replies' k) ->
  analyzeClauseWithAI replies = analyzeClauseWithAI replies'.
Proof.
  intros H. apply analyzeFromAttempt_ext. intros k Hk. apply H.
  unfold maxRetries in Hk. lia.
Qed.

Lemma external_analysis_makes_at_most_three_attempts_witness :
  let replies := fun k : nat =>
    if (k <? 3)%nat then ReplyError (js "503 Service Unavailable") else ReplyText (js "fine") in
  let replies' := fun k : nat => ReplyError (js "503 Service Unavailable") in
  (forall k, (k <= 2)%nat -> replies k = replies' k)
  /\ analyzeClauseWithAI replies = analyzeClauseWithAI replies'.
Proof.
  cbv zeta.
  assert (H : forall k, (k <= 2)%nat ->
            (if (k <? 3)%nat then ReplyError (js "503 Service Unavailable")
             else ReplyText (js "fine")) = ReplyError (js "503 Service Unavailable")).
  { intros k Hk. destruct (Nat.ltb_spec k 3); [reflexivity | lia]. }
  split; [exact H |].
  exact (external_analysis_makes_at_most_three_attempts _ _ H).
Defined.

Lemma analyzeFromAttempt_Throw (replies : nat -> Reply) :
  forall left n e,
    analyzeFromAttempt left n replies = Throw e ->
    exists k m,
      (n <= k <= n + left)%nat
      /\ replies k = ReplyError m
      /\ e = Error (rejection m)
      /\ (forall j, (n <= j < k)%nat -> exists m', replies j = ReplyError m' /\ retried m')
      /\ (retried m -> (maxRetries <= k)%nat \/ k = (n + left)%nat).
Proof.
  induction left as [| left IH]; intros n e; cbn [analyzeFromAttempt];
    destruct (replies n) as [? ? ? ? | ? | m] eqn:En; try discriminate.
  - intros H. exists n, m. split; [lia |]. split; [assumption |]. split.
    + destruct (_ || _); [congruence |]. destruct (_ && _); congruence.
    + split; [intros j Hj; lia |]. intros _. right. lia.
  - destruct (includes (rejection m) (js "quota") || includes (rejection m) (js "429")) eqn:Eq.
    + intros [= <-]. exists n, m. split; [lia |]. split; [assumption |].
      split; [reflexivity |]. split; [intros j Hj; lia |].
      intros (H1 & H2 & _). cbv zeta in *. rewrite H1, H2 in Eq. discriminate.
    + apply orb_false_iff in Eq as [Eq1 Eq2].
      destruct (Nat.ltb_spec n maxRetries) as [Hlt | Hge]; cbn [andb].
      * destruct (includes (rejection m) (js "overloaded")
                  || includes (rejection m) (js "503")
                  || includes (rejection m) (js "Service Unavailable")) eqn:Eo.
        -- intros H. apply IH in H as (k & m' & Hk & Hrep & -> & Hbefore & Hlast).
           exists k, m'. split; [lia |]. split; [assumption |]. split; [reflexivity |].
           split.
           ++ intros j Hj. destruct (Nat.eq_dec j n) as [-> | Hne].
              ** exists m. split; [assumption |]. unfold retried. cbv zeta.
                 split; [assumption |]. split; [assumption |].
                 apply orb_true_iff in Eo as [Eo | Eo]; [| auto].
                 apply orb_true_iff in Eo as [Eo | Eo]; auto.
              ** apply Hbefore. lia.
           ++ intros Hr. destruct (Hlast Hr); [left | right]; lia.
        -- intros [= <-]. exists n, m. split; [lia |]. split; [assumption |].
           split; [reflexivity |]. split; [intros j Hj; lia |].
           intros (_ & _ & Ho). cbv zeta in Ho.
           apply orb_false_iff in Eo as [Eo E3]. apply orb_false_iff in Eo as [E1 E2].
           destruct Ho as [Ho | [Ho | Ho]]; congruence.
      * intros [= <-]. exists n, m. split; [lia |]. split; [assumption |].
        split; [reflexivity |]. split; [intros j Hj; lia |]. intros _. left. assumption.
Qed.

(** X12.  When [analyzeClauseWithAI] throws, it throws the message of a
    failed attempt, as the scheduler passes it on; every attempt before
    that one failed with an overload and was answered with a new attempt,
    and that failure is not an overload or is the one of the third
    attempt.  A failure that mentions a quota or 429 is thus never
    retried: it is thrown at once, whatever the later answers would be. *)
Theorem external_analysis_throws_a_failed_attempt (replies : nat -> Reply) :
  (forall e, analyzeClauseWithAI replies = Throw e ->
     exists k m,
       (k <= 2)%nat
       /\ replies k = ReplyError m
       /\ e = Error (rejection m)
       /\ (forall j, (j < k)%nat -> exists m', replies j = ReplyError m' /\ retried m')
       /\ (retried m -> k = 2%nat))
  /\ (forall m,
        replies 0%nat = ReplyError m ->
        includes m (js "quota") = true \/ includes m (js "429") = true ->
        analyzeClauseWithAI replies = Throw (Error (rejection m))).
Proof.
  split.
  - intros e H. apply analyzeFromAttempt_Throw in H
      as (k & m & Hk & Hrep & -> & Hbefore & Hlast).
    unfold maxRetries in *. exists k, m. split; [lia |]. split; [assumption |].
    split; [reflexivity |]. split; [intros j Hj; apply Hbefore; lia |].
    intros Hr. destruct (Hlast Hr); lia.
  - intros m Hrep Hq. unfold analyzeClauseWithAI. cbn [analyzeFromAttempt maxRetries].
    rewrite Hrep. unfold rejection.
    destruct (includes m (js "429")) eqn:E429.
    + reflexivity.
    + destruct Hq as [Hq | Hq]; [| discriminate]. rewrite Hq. reflexivity.
Qed.

(** ** Glossary *)

Lemma insertSorted_Permutation {A : Type} (compare : A -> A -> Z) (x : A) (l : list A) :
  insertSorted compare x l ≡ₚ x :: l.
Proof.
  induction l as [| y l IH]; cbn [insertSorted]; [reflexivity |].
  destruct (compare x y <=? 0)%Z; [reflexivity |].
  rewrite IH. apply Permutation_swap.
Qed.

Lemma sortBy_Permutation {A : Type} (compare : A -> A -> Z) (l : list A) :
  sortBy compare l ≡ₚ l.
Proof.
  unfold sortBy. induction l as [| x l IH]; cbn [fold_right]; [reflexivity |].
  rewrite insertSorted_Permutation, IH. reflexivity.
Qed.

Lemma addTerm_invariant (st : list GlossaryEntry * gset jsstr) (t : jsstr) :
  glossaryInvariant st ->
  glossaryInvariant (addTerm st t)
  /\ (forall e, e ∈ fst (addTerm st t) -> e ∈ fst st \/ term e = t)
  /\ (forall k, k ∈ snd st -> k ∈ snd (addTerm st t))
  /\ (isTruthy (readGlossaryTerm (toLowerCase t)) = true -> toLowerCase t ∈ snd (addTerm st t)).
Proof.
  intros (Hnd & Hkeys & Hall). unfold addTerm. cbv zeta.
  destruct (decide (toLowerCase t ∈ snd st)) as [Hin | Hout].
  - rewrite bool_decide_eq_true_2 by assumption. cbn [negb andb].
    split; [exact (conj Hnd (conj Hkeys Hall)) |]. split; [tauto |]. split; auto.
  - rewrite bool_decide_eq_false_2 by assumption. cbn [negb andb].
    destruct (isTruthy (readGlossaryTerm (toLowerCase t))) eqn:Ht.
    + cbn [fst snd]. split; [| split; [| split]].
      * unfold glossaryInvariant. cbn [fst snd]. rewrite map_app. cbn [map].
        split; [| split].
        -- apply NoDup_app. split; [assumption |]. split; [| apply NoDup_singleton].
           intros k Hk Hk'. apply list_elem_of_singleton in Hk'. subst k.
           apply Hout, Hkeys, Hk.
        -- intros k. rewrite elem_of_union, elem_of_singleton, elem_of_app,
             list_elem_of_singleton, Hkeys. unfold termKey at 2. cbn [term]. tauto.
        -- apply Forall_app. split; [assumption |]. constructor; [| constructor].
           unfold termKey. cbn [meaning term category]. auto.
      * intros e He. apply elem_of_app in He as [He | He]; [left; assumption |].
        apply list_elem_of_singleton in He. subst e. right. reflexivity.
      * intros k Hk. apply elem_of_union. right. assumption.
      * intros _. apply elem_of_union. left. apply elem_of_singleton. reflexivity.
    + split; [exact (conj Hnd (conj Hkeys Hall)) |]. split; [tauto |]. split; [auto |].
      discriminate.
Qed.

Lemma addTermList_invariant (ts : list jsstr) :
  forall st,
    glossaryInvariant st ->
    glossaryInvariant (fold_left addTerm ts st)
    /\ (forall e, e ∈ fst (fold_left addTerm ts st) -> e ∈ fst st \/ term e ∈ ts)
    /\ (forall k, k ∈ snd st -> k ∈ snd (fold_left addTerm ts st))
    /\ (forall t, t ∈ ts -> isTruthy (readGlossaryTerm (toLowerCase t)) = true ->
          toLowerCase t ∈ snd (fold_left addTerm ts st)).
Proof.
  induction ts as [| t ts IH]; intros st Hinv; cbn [fold_left].
  - split; [assumption |]. split; [auto |]. split; [auto |]. intros t Ht. inversion Ht.
  - destruct (addTerm_invariant st t Hinv) as (Hinv' & Hnew & Hmono & Hadd).
    destruct (IH _ Hinv') as (Hinv'' & Hnew' & Hmono' & Hadd').
    split; [assumption |]. split; [| split].
    + intros e He. apply Hnew' in He as [He | He]; [| right; right; assumption].
      apply Hnew in He as [He | <-]; [left; assumption | right; left].
    + auto.
    + intros t' Hin Ht. apply elem_of_cons in Hin as [-> | Hin]; [| auto].
      apply Hmono', Hadd, Ht.
Qed.

Lemma addTerms_invariant (field : ClauseAnalysis -> list jsstr) (cls : list ClauseAnalysis) :
  forall st,
    glossaryInvariant st ->
    glossaryInvariant (addTerms field cls st)
    /\ (forall e, e ∈ fst (addTerms field cls st) ->
          e ∈ fst st \/ exists c, c ∈ cls /\ term e ∈ field c)
    /\ (forall k, k ∈ snd st -> k ∈ snd (addTerms field cls st))
    /\ (forall c t, c ∈ cls -> t ∈ field c ->
          isTruthy (readGlossaryTerm (toLowerCase t)) = true ->
          toLowerCase t ∈ snd (addTerms field cls st)).
Proof.
  unfold addTerms. induction cls as [| c cls IH]; intros st Hinv; cbn [fold_left].
  - split; [assumption |]. split; [auto |]. split; [auto |]. intros c t Hc. inversion Hc.
  - destruct (addTermList_invariant (field c) st Hinv) as (Hinv' & Hnew & Hmono & Hadd).
    destruct (IH _ Hinv') as (Hinv'' & Hnew' & Hmono' & Hadd').
    split; [assumption |]. split; [| split].
    + intros e He. apply Hnew' in He as [He | (c' & Hc' & He)].
      * apply Hnew in He as [He | He]; [left; assumption |].
        right. exists c. split; [left | assumption].
      * right. exists c'. split; [right |]; assumption.
    + auto.
    + intros c' t Hin Ht Htruthy. apply elem_of_cons in Hin as [-> | Hin]; [| eauto].
      apply Hmono', Hadd; assumption.
Qed.

(** The glossary before the sort. *)
Lemma glossary_collected (cls : list ClauseAnalysis) :
  let st := addTerms keywords cls (addTerms important_terms cls ([], ∅)) in
  glossaryInvariant st
  /\ (forall e, e ∈ fst st -> exists c, c ∈ cls /\ term e ∈ offeredTerms c)
  /\ (forall c t, c ∈ cls -> t ∈ offeredTerms c ->
        isTruthy (readGlossaryTerm (toLowerCase t)) = true ->
        exists e, e ∈ fst st /\ termKey e = toLowerCase t).
Proof.
  cbv zeta.
  assert (H0 : glossaryInvariant ([], ∅)).
  { unfold glossaryInvariant. cbn [fst snd map]. split; [constructor |].
    split; [| constructor]. intros k. split; intros H; [| inversion H].
    apply not_elem_of_empty in H. contradiction. }
  destruct (addTerms_invariant important_terms cls _ H0) as (H1 & Hnew1 & _ & Hadd1).
  destruct (addTerms_invariant keywords cls _ H1) as (H2 & Hnew2 & Hmono2 & Hadd2).
  split; [assumption |]. split.
  - intros e He. apply Hnew2 in He as [He | (c & Hc & He)].
    + apply Hnew1 in He as [He | (c & Hc & He)]; [inversion He |].
      exists c. split; [assumption |]. unfold offeredTerms. apply elem_of_app. auto.
    + exists c. split; [assumption |]. unfold offeredTerms. apply elem_of_app. auto.
  - intros c t Hc Ht Htruthy.
    assert (Hk : toLowerCase t ∈ snd (addTerms keywords cls (addTerms important_terms cls ([], ∅)))).
    { unfold offeredTerms in Ht. apply elem_of_app in Ht as [Ht | Ht].
      - apply Hmono2. eapply Hadd1; eassumption.
      - eapply Hadd2; eassumption. }
    destruct H2 as (_ & Hkeys & _). apply Hkeys in Hk.
    apply list_elem_of_fmap in Hk as (e & He & Hin). eauto.
Qed.

(** X13.  No two entries of a glossary name the same term, whatever the
    case of the letters: the terms of the entries, in lower case, are
    distinct. *)
Theorem glossary_terms_are_unique (localeCompare : jsstr -> jsstr -> Z)
  (analyzedClauses : list ClauseAnalysis) :
  NoDup (map (fun e => toLowerCase (term e)) (buildGlossary localeCompare analyzedClauses)).
Proof.
  unfold buildGlossary. cbv zeta.
  destruct (glossary_collected analyzedClauses) as [(Hnd & _) _].
  eapply NoDup_Permutation_proper; [| exact Hnd].
  apply fmap_Permutation, sortBy_Permutation.
Qed.

(** X14.  The glossary holds the terms that the table defines, and all of
    them: every entry spells an important term or a keyword of some
    clause, carries what the table reads under that term in lower case,
    which is a meaning of the table or a member that every object
    inherits, and has the category "legal"; and every important term or
    keyword of a clause under which the table reads something has an
    entry, up to the case of its letters. *)
Theorem glossary_holds_the_defined_terms (localeCompare : jsstr -> jsstr -> Z)
  (analyzedClauses : list ClauseAnalysis) :
  let glossary := buildGlossary localeCompare analyzedClauses in
  (forall e, e ∈ glossary ->
     meaning e = readGlossaryTerm (toLowerCase (term e))
     /\ isTruthy (meaning e) = true
     /\ category e = js "legal"
     /\ exists c, c ∈ analyzedClauses /\ term e ∈ important_terms c ++ keywords c)
  /\ (forall c t,
        c ∈ analyzedClauses -> t ∈ important_terms c ++ keywords c ->
        isTruthy (readGlossaryTerm (toLowerCase t)) = true ->
        exists e, e ∈ glossary /\ toLowerCase (term e) = toLowerCase t).
Proof.
  cbv zeta. unfold buildGlossary. cbv zeta.
  destruct (glossary_collected analyzedClauses) as ((_ & _ & Hall) & Hsound & Hcomplete).
  rewrite Forall_forall in Hall.
  split.
  - intros e He. rewrite sortBy_Permutation in He. split; [apply Hall, He |].
    split; [apply Hall, He |]. split; [apply Hall, He |]. apply Hsound, He.
  - intros c t Hc Ht Htruthy. destruct (Hcomplete c t Hc Ht Htruthy) as (e & He & Hk).
    exists e. split; [| exact Hk]. rewrite sortBy_Permutation. exact He.
Qed.

Example glossary_example :
  map term (buildGlossary (fun _ _ => 0%Z)
              [ clauseWithTerms ["Waiver"; "rent"; "constructor"]%string
                  ["penalty"; "waiver"]%string;
                clauseWithTerms ["PENALTY"]%string ["late fee"; "default"]%string ])
  = map js ["Waiver"; "constructor"; "PENALTY"; "default"]%string.
Proof. vm_compute. reflexivity. Qed.

(** ** Risk distribution and overall risk *)

Lemma countRisk_lookup (dist : gmap jsstr nat) (c : ClauseAnalysis) (k : jsstr) :
  dom dist = dom emptyDistribution -> k ∈ dom emptyDistribution ->
  default 0%nat (countRisk dist c !! k)
  = (default 0%nat (dist !! k) + (if eqb (toLowerCase (final_risk c)) k then 1 else 0))%nat.
Proof.
  intros Hdom Hk. unfold countRisk, eqb.
  destruct (dist !! toLowerCase (final_risk c)) as [n |] eqn:E.
  - destruct (decide (toLowerCase (final_risk c) = k)) as [<- | Hne].
    + rewrite bool_decide_eq_true_2 by reflexivity.
      rewrite lookup_insert_eq, E. cbn [from_option id]. lia.
    + rewrite bool_decide_eq_false_2 by assumption.
      rewrite lookup_insert_ne by assumption. lia.
  - rewrite bool_decide_eq_false_2; [lia |].
    intros <-. apply not_elem_of_dom in E. apply E. rewrite Hdom. exact Hk.
Qed.

Lemma riskDistributionOf_lookup (analyzed : list ClauseAnalysis) (k : jsstr) :
  k ∈ dom emptyDistribution ->
  default 0%nat (riskDistributionOf analyzed !! k)
  = length (List.filter (fun c => eqb (toLowerCase (final_risk c)) k) analyzed)
  /\ dom (riskDistributionOf analyzed) = dom emptyDistribution.
Proof.
  intros Hk. unfold riskDistributionOf.
  assert (H : forall dist, dom dist = dom emptyDistribution ->
            default 0%nat (fold_left countRisk analyzed dist !! k)
            = (default 0%nat (dist !! k)
               + length (List.filter (fun c => eqb (toLowerCase (final_risk c)) k) analyzed))%nat
            /\ dom (fold_left countRisk analyzed dist) = dom emptyDistribution).
  { induction analyzed as [| c analyzed IH]; intros dist Hdom; cbn [fold_left List.filter].
    - cbn [length]. split; [lia | assumption].
    - destruct (countRisk_sum dist c Hdom) as [Hdom' _].
      destruct (IH _ Hdom') as [-> ->]. split; [| reflexivity].
      rewrite countRisk_lookup by assumption.
      destruct (eqb (toLowerCase (final_risk c)) k); cbn [length]; lia. }
  destruct (H emptyDistribution eq_refl) as [-> ->]. split; [| reflexivity].
  rewrite dom_emptyDistribution in Hk.
  assert (default 0%nat (emptyDistribution !! k) = 0%nat); [| lia].
  apply elem_of_union in Hk as [Hk | Hk]; [apply elem_of_union in Hk as [Hk | Hk] |];
    apply elem_of_singleton in Hk; subst k; reflexivity.
Qed.

Lemma bucket_riskCount (analyzed : list ClauseAnalysis) :
  bucket (riskDistributionOf analyzed) "low" = riskCount "low" analyzed
  /\ bucket (riskDistributionOf analyzed) "medium" = riskCount "medium" analyzed
  /\ bucket (riskDistributionOf analyzed) "high" = riskCount "high" analyzed.
Proof.
  unfold bucket, riskCount.
  repeat split; apply riskDistributionOf_lookup; rewrite dom_emptyDistribution; set_solver.
Qed.

(** X15.  Each of the three counts of the risk distribution is the number
    of clauses whose final risk, in lower case, is the name of the count;
    no clause adds a count of another name. *)
Theorem risk_distribution_counts_by_level (analyzed : list ClauseAnalysis) :
  let dist := riskDistributionOf analyzed in
  bucket dist "low" = riskCount "low" analyzed
  /\ bucket dist "medium" = riskCount "medium" analyzed
  /\ bucket dist "high" = riskCount "high" analyzed
  /\ dom dist = ({[ js "low"; js "medium"; js "high" ]} : gset jsstr)
  /\ (riskCount "low" analyzed + riskCount "medium" analyzed + riskCount "high" analyzed
      <= length analyzed)%nat.
Proof.
  cbv zeta. destruct (bucket_riskCount analyzed) as (Hl & Hm & Hh).
  split; [exact Hl |]. split; [exact Hm |]. split; [exact Hh |]. split.
  - rewrite <- dom_emptyDistribution. apply (riskDistributionOf_lookup analyzed (js "low")).
    rewrite dom_emptyDistribution. set_solver.
  - rewrite <- Hl, <- Hm, <- Hh. apply riskDistribution_le.
Qed.

Lemma riskCount_pos (name : string) (analyzed : list ClauseAnalysis) :
  (0 < riskCount name analyzed)%nat
  <-> exists c, c ∈ analyzed /\ toLowerCase (final_risk c) = js name.
Proof.
  unfold riskCount. split.
  - intros H. destruct (List.filter _ analyzed) as [| c l] eqn:E; [cbn in H; lia |].
    assert (Hin : In c (List.filter (fun c => eqb (toLowerCase (final_risk c)) (js name)) analyzed))
      by (rewrite E; left; reflexivity).
    apply List.filter_In in Hin as [Hin Hc]. exists c. split.
    + apply list_elem_of_In. assumption.
    + unfold eqb in Hc. apply bool_decide_eq_true in Hc. assumption.
  - intros (c & Hin & Hc).
    assert (Hf : In c (List.filter (fun c => eqb (toLowerCase (final_risk c)) (js name)) analyzed)).
    { apply List.filter_In. split; [apply list_elem_of_In; assumption |].
      unfold eqb. apply bool_decide_eq_true. assumption. }
    destruct (List.filter _ analyzed); [inversion Hf | cbn [length]; lia].
Qed.

(** X16.  The overall risk of a document is High exactly when some clause
    has the final risk high, in any case of the letters; otherwise it is
    Medium exactly when more clauses are medium than low; otherwise it is
    Low, as for a document without clauses and for a document with as
    many low as medium clauses. *)
Theorem overall_risk_by_clauses (analyzed : list ClauseAnalysis) :
  let overall := overallRiskOf (riskDistributionOf analyzed) in
  (overall = js "High"
   <-> exists c, c ∈ analyzed /\ toLowerCase (final_risk c) = js "high")
  /\ (overall = js "Medium"
      <-> riskCount "high" analyzed = 0%nat
          /\ (riskCount "low" analyzed < riskCount "medium" analyzed)%nat)
  /\ (overall = js "Low"
      <-> riskCount "high" analyzed = 0%nat
          /\ (riskCount "medium" analyzed <= riskCount "low" analyzed)%nat).
Proof.
  cbv zeta. unfold overallRiskOf.
  destruct (bucket_riskCount analyzed) as (-> & -> & ->).
  rewrite <- riskCount_pos.
  destruct (Nat.ltb_spec 0 (riskCount "high" analyzed)) as [Hh | Hh].
  - repeat split; try discriminate; intros; lia.
  - destruct (Nat.ltb_spec (riskCount "low" analyzed) (riskCount "medium" analyzed)).
    + repeat split; try discriminate; intros; lia.
    + repeat split; try discriminate; intros; lia.
Qed.

(** ** Comparison of the risks of two documents *)

Lemma toLowerCase_High : toLowerCase (js "High") = js "high".
Proof. reflexivity. Qed.

Lemma highRiskCount_le (analyzed : list ClauseAnalysis) (data : SummaryData) :
  (highRiskCount (routeAnalysis analyzed data) <= riskCount "high" analyzed)%nat.
Proof.
  unfold highRiskCount, riskCount, routeAnalysis, buildAnalysis. cbn [clauses].
  apply filter_length_mono. intros c Hc. unfold eqb in *.
  apply bool_decide_eq_true in Hc. apply bool_decide_eq_true. rewrite Hc. reflexivity.
Qed.

Lemma overallRisk_High (analyzed : list ClauseAnalysis) (data : SummaryData) :
  (0 < highRiskCount (routeAnalysis analyzed data))%nat ->
  Routes.overallRisk (summary (routeAnalysis analyzed data)) = js "High".
Proof.
  intros H. pose proof (highRiskCount_le analyzed data) as Hle.
  unfold routeAnalysis at 1. unfold buildAnalysis. cbn [summary Routes.overallRisk].
  unfold overallRiskOf. destruct (bucket_riskCount analyzed) as (_ & _ & ->).
  destruct (Nat.ltb_spec 0 (riskCount "high" analyzed)); [reflexivity | lia].
Qed.

(** X17.  On two analyses stored by the routes, the document that
    [compareDocuments] reports to have more high-risk clauses has the
    overall risk High; the comparison reports either one difference, with
    one recommendation, or one similarity, and never both. *)
Theorem more_high_risk_clauses_means_high_overall_risk
  (analyzed1 analyzed2 : list ClauseAnalysis) (data1 data2 : SummaryData) :
  let r := compareDocuments (routeAnalysis analyzed1 data1) (routeAnalysis analyzed2 data2) in
  (dc_differences r = [js "Document 1 has more high-risk clauses"] ->
   fst (dc_riskComparison r) = js "High")
  /\ (dc_differences r = [js "Document 2 has more high-risk clauses"] ->
      snd (dc_riskComparison r) = js "High")
  /\ (length (dc_similarities r) + length (dc_differences r) = 1)%nat
  /\ length (dc_recommendations r) = length (dc_differences r)
  /\ dc_clauseCount r = (length analyzed1, length analyzed2).
Proof.
  cbv zeta. unfold compareDocuments. cbv zeta.
  pose proof (overallRisk_High analyzed1 data1) as H1.
  pose proof (overallRisk_High analyzed2 data2) as H2.
  destruct (Nat.ltb_spec (highRiskCount (routeAnalysis analyzed2 data2))
              (highRiskCount (routeAnalysis analyzed1 data1))) as [Hlt | Hge].
  - cbn [dc_differences dc_riskComparison dc_similarities dc_recommendations dc_clauseCount
         fst snd length].
    split; [intros _; apply H1; lia |]. split; [discriminate |]. repeat split.
  - destruct (Nat.ltb_spec (highRiskCount (routeAnalysis analyzed1 data1))
                (highRiskCount (routeAnalysis analyzed2 data2))) as [Hlt | Hge'].
    + cbn [dc_differences dc_riskComparison dc_similarities dc_recommendations dc_clauseCount
           fst snd length].
      split; [discriminate |]. split; [intros _; apply H2; lia |]. repeat split.
    + cbn [dc_differences dc_riskComparison dc_similarities dc_recommendations dc_clauseCount
           fst snd length].
      split; [discriminate |]. split; [discriminate |]. repeat split.
Qed.

(** ** Similarities of two documents *)

Lemma startsWith_before (c : N) (w x rest : jsstr) :
  c ∉ w -> startsWith w (x ++ c :: rest) = true -> startsWith w x = true.
Proof.
  revert x. induction w as [| a w IH]; intros x Hc H; [reflexivity |].
  destruct x as [| y x]; cbn [app startsWith] in *.
  - apply andb_true_iff in H as [H _]. apply N.eqb_eq in H. subst a.
    exfalso. apply Hc. left.
  - apply andb_true_iff in H as [-> H]. cbn [andb]. apply IH; [| assumption].
    intros Hin. apply Hc. right. assumption.
Qed.

(** A word that does not hold the separator lies in one of the two parts. *)
Lemma includes_sep (c : N) (w x rest : jsstr) :
  w <> [] -> c ∉ w ->
  includes (x ++ c :: rest) w = true -> includes x w = true \/ includes rest w = true.
Proof.
  intros Hne Hc. induction x as [| y x IH]; cbn [app includes].
  - intros H. apply orb_true_iff in H as [H | H]; [| right; assumption].
    destruct w as [| a w]; [congruence |]. cbn [startsWith] in H.
    apply andb_true_iff in H as [H _]. apply N.eqb_eq in H. subst a.
    exfalso. apply Hc. left.
  - intros H. apply orb_true_iff in H as [H | H].
    + left. apply orb_true_iff. left.
      apply (startsWith_before c w (y :: x) rest); assumption.
    + apply IH in H as [H | H]; [left | right; assumption].
      apply orb_true_iff. right. assumption.
Qed.

Lemma includes_join (w : jsstr) (l : list jsstr) :
  w <> [] -> 32%N ∉ w ->
  includes (join [32%N] l) w = true <-> exists x, x ∈ l /\ includes x w = true.
Proof.
  intros Hne Hsp. induction l as [| x l IH].
  - cbn [join includes]. split.
    + intros H. rewrite orb_false_r in H. destruct w; [congruence | discriminate].
    + intros (x & Hx & _). inversion Hx.
  - destruct l as [| y l].
    + cbn [join]. split; [intros H; exists x; split; [left | assumption] |].
      intros (x' & Hx & H). apply list_elem_of_singleton in Hx. subst. assumption.
    + rewrite join_cons by discriminate. cbn [app]. split.
      * intros H. apply includes_sep in H as [H | H]; [| | assumption | assumption].
        -- exists x. split; [left | assumption].
        -- apply IH in H as (x' & Hx & H). exists x'. split; [right |]; assumption.
      * intros (x' & Hx & H). apply elem_of_cons in Hx as [-> | Hx].
        -- apply (includes_app [] _ (32%N :: join [32%N] (y :: l))). assumption.
        -- assert (Hj : includes (join [32%N] (y :: l)) w = true) by (apply IH; eauto).
           rewrite <- (app_nil_r (join [32%N] (y :: l))).
           apply (includes_app (x ++ [32%N]) _ []) in Hj.
           rewrite <- app_assoc in Hj. exact Hj.
Qed.

Lemma toLowerCase_join (l : list jsstr) :
  toLowerCase (join [32%N] l) = join [32%N] (map toLowerCase l).
Proof.
  induction l as [| x l IH]; [reflexivity |].
  destruct l as [| y l]; [reflexivity |].
  cbn [map] in *. rewrite !join_cons by discriminate.
  rewrite !toLowerCase_app, IH. reflexivity.
Qed.

Lemma clausesText_includes (doc : Document) (term : jsstr) :
  term <> [] -> 32%N ∉ term ->
  includes (clausesText doc) term = true
  <-> exists c, c ∈ clauses (analysis doc) /\ includes (toLowerCase (clause c)) term = true.
Proof.
  intros Hne Hsp. unfold clausesText. change (js " ") with [32%N].
  rewrite toLowerCase_join, includes_join by assumption. split.
  - intros (x & Hx & H). apply list_elem_of_fmap in Hx as (t & -> & Ht).
    apply list_elem_of_fmap in Ht as (c & -> & Hc). eauto.
  - intros (c & Hc & H). exists (toLowerCase (clause c)). split; [| assumption].
    apply list_elem_of_fmap_2. apply list_elem_of_fmap_2. assumption.
Qed.

(** X18.  The terms that [findDetailedSimilarities] reports as common to
    two documents are the terms of its list that some clause of the first
    document and some clause of the second contain, without regard to the
    case of the letters: joining the clauses to one text neither hides a
    term nor makes one up across two clauses. *)
Theorem common_terms_are_in_a_clause_of_each (doc1 doc2 : Document) (term : jsstr) :
  In term (commonTerms doc1 doc2)
  <-> In term importantTerms
      /\ (exists c, c ∈ clauses (analysis doc1)
                    /\ includes (toLowerCase (clause c)) term = true)
      /\ (exists c, c ∈ clauses (analysis doc2)
                    /\ includes (toLowerCase (clause c)) term = true).
Proof.
  unfold commonTerms. rewrite List.filter_In, andb_true_iff.
  assert (Hterms : Forall (fun t => t <> [] /\ 32%N ∉ t) importantTerms).
  { refine (bool_decide_unpack (Forall (fun t => t <> [] /\ 32%N ∉ t) importantTerms) _).
    vm_compute. exact I. }
  rewrite Forall_forall in Hterms.
  split.
  - intros (Hin & H1 & H2). destruct (Hterms term) as [Hne Hsp]; [apply list_elem_of_In, Hin |].
    rewrite !clausesText_includes in * by assumption. auto.
  - intros (Hin & H1 & H2). destruct (Hterms term) as [Hne Hsp]; [apply list_elem_of_In, Hin |].
    rewrite !clausesText_includes by assumption. auto.
Qed.

(** X19.  [findDetailedSimilarities] never answers the empty list and
    never more than four sentences; it answers as many sentences whichever
    document comes first; its stock sentence is the answer exactly when
    the documents differ in type and in overall risk, share no term of the
    list and differ by more than two clauses. *)
Theorem similarities_are_never_empty (doc1 doc2 : Document) :
  let similarities := findDetailedSimilarities doc1 doc2 in
  (1 <= length similarities <= 4)%nat
  /\ length (findDetailedSimilarities doc2 doc1) = length similarities
  /\ (similarities = [js "Both documents are legal agreements with standard terms"]
      <-> documentType doc1 <> documentType doc2
          /\ Routes.overallRisk (summary (analysis doc1))
             <> Routes.overallRisk (summary (analysis doc2))
          /\ commonTerms doc1 doc2 = []
          /\ (2 < Z.abs (Z.of_nat (length (clauses (analysis doc1)))
                         - Z.of_nat (length (clauses (analysis doc2)))))%Z).
Proof.
  cbv zeta. unfold findDetailedSimilarities. cbv zeta.
  assert (Hsym : forall a b : jsstr, eqb b a = eqb a b).
  { intros a b. unfold eqb. destruct (decide (a = b)) as [-> | Hne]; [reflexivity |].
    rewrite !bool_decide_eq_false_2 by congruence. reflexivity. }
  assert (Hterms : commonTerms doc2 doc1 = commonTerms doc1 doc2).
  { unfold commonTerms. apply List.filter_ext. intros t. apply andb_comm. }
  rewrite Hterms, (Hsym (documentType doc1)),
    (Hsym (Routes.overallRisk (summary (analysis doc1)))).
  replace (Z.abs (Z.of_nat (length (clauses (analysis doc2)))
                  - Z.of_nat (length (clauses (analysis doc1)))))
    with (Z.abs (Z.of_nat (length (clauses (analysis doc1)))
                 - Z.of_nat (length (clauses (analysis doc2))))) by lia.
  unfold eqb.
  destruct (decide (documentType doc1 = documentType doc2)) as [Ht | Ht];
    [rewrite (bool_decide_eq_true_2 _ Ht) | rewrite (bool_decide_eq_false_2 _ Ht)];
    (destruct (decide (Routes.overallRisk (summary (analysis doc1))
                       = Routes.overallRisk (summary (analysis doc2)))) as [Hr | Hr];
     [rewrite (bool_decide_eq_true_2 _ Hr) | rewrite (bool_decide_eq_false_2 _ Hr)]);
    destruct (commonTerms doc1 doc2) as [| t ts];
    destruct (Z.leb_spec (Z.abs (Z.of_nat (length (clauses (analysis doc1)))
                                 - Z.of_nat (length (clauses (analysis doc2))))) 2)
      as [Hd | Hd];
    cbn [app length];
    (split; [lia |]); (split; [reflexivity |]);
    (split; [intros H; try discriminate H | intros (H1 & H2 & H3 & H4)]);
    try congruence; try lia; try (repeat split; (assumption || lia)).
  exfalso. injection H as H. apply (f_equal (@rev N)) in H.
  rewrite !rev_app_distr in H. vm_compute in H. discriminate H.
Qed.

(** ** The higher of two risks *)

Lemma riskLevels_lookup (key : jsstr) (n : nat) :
  riskLevels !! key = Some n ->
  (key = js "Low" /\ n = 1%nat) \/ (key = js "Medium" /\ n = 2%nat)
  \/ (key = js "High" /\ n = 3%nat).
Proof.
  unfold riskLevels. rewrite !lookup_insert_Some, lookup_empty. intuition congruence.
Qed.

Lemma readRiskLevel_cases (key : jsstr) :
  (exists l, key = levelName l /\ readRiskLevel key = Own (rank l))
  \/ readRiskLevel key = Inherited
  \/ readRiskLevel key = Undefined.
Proof.
  unfold readRiskLevel. destruct (riskLevels !! key) as [n |] eqn:E.
  - left. apply riskLevels_lookup in E as [[-> ->] | [[-> ->] | [-> ->]]];
      [exists Low | exists Medium | exists High]; split; reflexivity.
  - destruct (bool_decide _); auto.
Qed.

(** X20.  On the three levels [getHigherRisk] answers their maximum under
    Low < Medium < High, which is also the final risk that [analyzeClause]
    derives from a rules level and an external level. *)
Theorem getHigherRisk_is_the_maximum (a b : Level) :
  getHigherRisk (levelName a) (levelName b) = Some (levelName (maxLevel a b))
  /\ (if geProperty (readRiskLevel (levelName a)) (readRiskLevel (levelName b))
      then levelName a else levelName b) = levelName (maxLevel a b).
Proof. split; [destruct a, b; vm_compute; reflexivity | apply fusion_is_max]. Qed.

(** X21.  [getHigherRisk] does not depend on the order of its arguments;
    a risk that is not one of the three levels counts as Low, so that the
    answer is always one of the three levels, unless a risk is the name of
    a member that every object inherits (such as "constructor"), in which
    case, and in no other, there is no answer. *)
Theorem getHigherRisk_counts_unknown_as_low (risk1 risk2 : jsstr) :
  getHigherRisk risk1 risk2 = getHigherRisk risk2 risk1
  /\ (readRiskLevel risk1 = Undefined ->
      getHigherRisk risk1 risk2 = getHigherRisk (js "Low") risk2)
  /\ (getHigherRisk risk1 risk2 = None
      <-> readRiskLevel risk1 = Inherited \/ readRiskLevel risk2 = Inherited)
  /\ (forall r, getHigherRisk risk1 risk2 = Some r -> exists l, r = levelName l).
Proof.
  unfold getHigherRisk.
  destruct (readRiskLevel_cases risk1) as [(l1 & _ & ->) | [-> | ->]];
    destruct (readRiskLevel_cases risk2) as [(l2 & _ & ->) | [-> | ->]];
    cbn [levelOr1];
    try destruct l1; try destruct l2; cbn;
    (split; [reflexivity |]); (split; [try discriminate; reflexivity |]);
    (split; [split; [intros; try discriminate; auto | intros [? | ?]; try discriminate; auto] |]);
    intros r Hr; try discriminate;
    injection Hr as <-; solve [exists Low; reflexivity | exists Medium; reflexivity
                              | exists High; reflexivity].
Qed.

(** ** The amount read from a match *)

Lemma replaceFrom_class_nil (p : N -> bool) :
  forall fuel s, (length s < fuel)%nat ->
    replaceFrom fuel (Class p) [] s = List.filter (fun c => negb (p c)) s.
Proof.
  induction fuel as [| fuel IH]; intros s Hf; [lia |].
  destruct s as [| c s]; [reflexivity |].
  cbn [replaceFrom List.filter length] in *. unfold matchHere. cbn [rmatch].
  destruct (p c); cbn [negb].
  - replace (length s <? S (length s))%nat with true by (symmetry; apply Nat.ltb_lt; lia).
    cbn [app]. apply IH. lia.
  - f_equal. apply IH. lia.
Qed.

Lemma replaceAll_class_nil (p : N -> bool) (s : jsstr) :
  replaceAll (Class p) [] s = List.filter (fun c => negb (p c)) s.
Proof. unfold replaceAll. apply replaceFrom_class_nil. lia. Qed.

Lemma takeDigits_digits (s : jsstr) :
  takeDigits (List.filter isDigit s) = List.filter isDigit s
  /\ dropSpace (List.filter isDigit s) = List.filter isDigit s.
Proof.
  split.
  - induction s as [| c s IH]; [reflexivity |]. cbn [List.filter].
    destruct (isDigit c) eqn:Hc; [| exact IH]. cbn [takeDigits]. rewrite Hc, IH. reflexivity.
  - induction s as [| c s IH]; [reflexivity |]. cbn [List.filter].
    destruct (isDigit c) eqn:Hc; [| exact IH]. unfold dropSpace. cbn [dropWhile].
    replace (isSpace c) with false; [reflexivity |].
    unfold isDigit, inRange in Hc. apply andb_true_iff in Hc as [H1 H2].
    apply N.leb_le in H1, H2.
    assert (Hcases : (c = 48 \/ c = 49 \/ c = 50 \/ c = 51 \/ c = 52 \/ c = 53
                      \/ c = 54 \/ c = 55 \/ c = 56 \/ c = 57)%N) by lia.
    repeat (destruct Hcases as [-> | Hcases]; [reflexivity |]). subst c. reflexivity.
Qed.

(** X22.  The amount that the comparison reads from a match of a rent
    pattern is the number spelled by the digits of the match, in order,
    whatever stands between them (the commas of thousands, a currency
    sign, words); a match without a digit gives no amount, and neither
    does a number below 1000 or above 1000000. *)
Theorem rent_amount_is_spelled_by_the_digits (m0 : jsstr) (others : list jsstr) :
  rentAmount (Some (m0 :: others))
  = match List.filter isDigit m0 with
    | [] => None
    | digits =>
        if ((1000 <=? digitsValue digits) && (digitsValue digits <=? 1000000))%N
        then Some (digitsValue digits) else None
    end.
Proof.
  unfold rentAmount. unfold chr. rewrite !replaceAll_class_nil.
  assert (Hf : List.filter (fun c => negb (44 =? c)%N)
                 (List.filter (fun c => negb (negb (isDigit c || (c =? 44)%N))) m0)
               = List.filter isDigit m0).
  { induction m0 as [| c m0 IH]; [reflexivity |]. cbn [List.filter].
    destruct (isDigit c) eqn:Hc; cbn [orb negb List.filter].
    - assert (H44 : (44 =? c)%N = false).
      { apply N.eqb_neq. intros <-. discriminate Hc. }
      rewrite H44. cbn [negb]. f_equal. exact IH.
    - destruct (N.eqb_spec c 44) as [-> | Hne]; cbn [negb List.filter].
      + exact IH.
      + exact IH. }
  rewrite Hf. unfold parseInt.
  destruct (takeDigits_digits m0) as [Ht Hd]. rewrite Hd, Ht.
  destruct (List.filter isDigit m0); reflexivity.
Qed.

Example rent_amount_examples :
  rentAmount (Some [js "rs. 15,000"]) = Some 15000%N
  /\ rentAmount (Some [[rupee] ++ js " 1,50,000"; js "unused"]) = Some 150000%N
  /\ rentAmount (Some [js "rent of flat 3 is due on the 5"]) = None
  /\ rentAmount (Some [js "rent"]) = None.
Proof. repeat split; vm_compute; reflexivity. Qed.

(** ** Differences between two clauses *)




Lemma rentAmount_range (m : option (list jsstr)) (n : N) :
  rentAmount m = Some n -> rentRange n.
Proof.
  unfold rentAmount, rentRange. destruct m as [[| m0 m] |]; try discriminate.
  destruct (parseInt _) as [num |]; [| discriminate].
  destruct ((1000 <=? num)%N && (num <=? 1000000)%N) eqn:E; [| discriminate].
  intros [= <-]. apply andb_true_iff in E as [H1 H2]. apply N.leb_le in H1, H2. lia.
Qed.

Lemma rentAmounts_range (patterns : list regex) (text1 text2 : jsstr) :
  forall amount1 amount2,
    (forall n, amount1 = Some n -> rentRange n) ->
    (forall n, amount2 = Some n -> rentRange n) ->
    (forall n, fst (rentAmounts patterns text1 text2 amount1 amount2) = Some n -> rentRange n)
    /\ (forall n, snd (rentAmounts patterns text1 text2 amount1 amount2) = Some n -> rentRange n).
Proof.
  induction patterns as [| p ps IH]; intros a1 a2 H1 H2; cbn [rentAmounts]; [auto |].
  assert (H1' : forall n, orElse a1 (rentAmount (matchAll p text1)) = Some n -> rentRange n).
  { destruct a1; cbn [orElse]; [assumption | apply rentAmount_range]. }
  assert (H2' : forall n, orElse a2 (rentAmount (matchAll p text2)) = Some n -> rentRange n).
  { destruct a2; cbn [orElse]; [assumption | apply rentAmount_range]. }
  destruct (orElse a1 _) as [x |]; destruct (orElse a2 _) as [y |]; auto.
Qed.

(** X24.  The amounts that [analyzeDifference] reports for two rent
    clauses lie between 1000 and 1000000 and differ; when it reports no
    amounts, its answer for the type rent is its answer for a pair of
    clauses of no particular type. *)
Theorem rent_difference_is_within_range (clause1 clause2 : ClauseAnalysis) :
  analyzeDifference clause1 clause2 (js "rent")
    = analyzeDifference clause1 clause2 (js "other")
  \/ exists amount1 amount2,
       rentRange amount1 /\ rentRange amount2 /\ amount1 <> amount2
       /\ analyzeDifference clause1 clause2 (js "rent")
          = js "Rent differs: " ++ [rupee] ++ toLocaleString amount1
              ++ js " vs " ++ [rupee] ++ toLocaleString amount2.
Proof.
  unfold analyzeDifference. cbv zeta.
  replace (eqb (js "rent") (js "rent")) with true by reflexivity.
  replace (eqb (js "rent") (js "notice")) with false by reflexivity.
  replace (eqb (js "other") (js "rent")) with false by reflexivity.
  replace (eqb (js "other") (js "notice")) with false by reflexivity.
  destruct (rentAmounts_range rentPatterns (toLowerCase (clause clause1))
              (toLowerCase (clause clause2)) None None) as [H1 H2]; try discriminate.
  destruct (rentAmounts rentPatterns _ _ None None) as [[a1 |] [a2 |]]; cbn [fst snd] in *;
    try (left; reflexivity).
  destruct (N.eqb_spec a1 a2) as [-> | Hne]; cbn [negb]; [left; reflexivity |].
  right. exists a1, a2. auto.
Qed.

Lemma noticePeriods_left (patterns : list regex) (text1 text2 : jsstr) :
  Forall (matchesOnce text1) patterns ->
  forall period2, fst (noticePeriods patterns text1 text2 None period2) = None.
Proof.
  induction 1 as [| p ps Hp _ IH]; intros period2; cbn [noticePeriods]; [reflexivity |].
  cbn [truthy].
  assert (H1 : match matchAll p text1 with Some m => noticePeriod m | None => None end = None).
  { destruct (matchAll p text1) as [m |] eqn:E; [| reflexivity].
    specialize (Hp m E). unfold noticePeriod.
    destruct m as [| m0 [| m1 m]]; [reflexivity | reflexivity | cbn [length] in Hp; lia]. }
  rewrite H1. cbn [truthy andb]. apply IH.
Qed.

Lemma noticePeriods_right (patterns : list regex) (text1 text2 : jsstr) :
  Forall (matchesOnce text2) patterns ->
  forall period1, snd (noticePeriods patterns text1 text2 period1 None) = None.
Proof.
  induction 1 as [| p ps Hp _ IH]; intros period1; cbn [noticePeriods]; [reflexivity |].
  cbn [truthy].
  assert (H2 : match matchAll p text2 with Some m => noticePeriod m | None => None end = None).
  { destruct (matchAll p text2) as [m |] eqn:E; [| reflexivity].
    specialize (Hp m E). unfold noticePeriod.
    destruct m as [| m0 [| m1 m]]; [reflexivity | reflexivity | cbn [length] in Hp; lia]. }
  rewrite H2. cbn [truthy]. rewrite andb_false_r. apply IH.
Qed.

(** X25.  A notice period that a clause states once is not read: when in
    one of the two clauses every notice pattern has at most one match,
    [analyzeDifference] reports no difference of notice periods, and its
    answer for the type notice is its answer for a pair of clauses of no
    particular type. *)
Theorem notice_period_stated_once_is_not_read (clause1 clause2 : ClauseAnalysis) :
  Forall (matchesOnce (toLowerCase (clause clause1))) noticePatterns
  \/ Forall (matchesOnce (toLowerCase (clause clause2))) noticePatterns ->
  analyzeDifference clause1 clause2 (js "notice")
  = analyzeDifference clause1 clause2 (js "other").
Proof.
  intros Honce. unfold analyzeDifference. cbv zeta.
  replace (eqb (js "notice") (js "rent")) with false by reflexivity.
  replace (eqb (js "notice") (js "notice")) with true by reflexivity.
  replace (eqb (js "other") (js "rent")) with false by reflexivity.
  replace (eqb (js "other") (js "notice")) with false by reflexivity.
  assert (Hnone : fst (noticePeriods noticePatterns (toLowerCase (clause clause1))
                         (toLowerCase (clause clause2)) None None) = None
                  \/ snd (noticePeriods noticePatterns (toLowerCase (clause clause1))
                            (toLowerCase (clause clause2)) None None) = None).
  { destruct Honce as [H | H]; [left; apply noticePeriods_left | right; apply noticePeriods_right];
      assumption. }
  destruct (noticePeriods noticePatterns _ _ None None) as [[p1 |] [p2 |]];
    cbn [fst snd] in Hnone; try reflexivity.
  destruct Hnone; discriminate.
Qed.

Lemma notice_period_stated_once_is_not_read_witness :
  let clause1 := lowClause "Either party may leave with 2 months notice." in
  let clause2 := lowClause "Notice of 3 months is due; 3 months notice, 3 months notice." in
  (Forall (matchesOnce (toLowerCase (clause clause1))) noticePatterns
   \/ Forall (matchesOnce (toLowerCase (clause clause2))) noticePatterns)
  /\ analyzeDifference clause1 clause2 (js "notice")
     = analyzeDifference clause1 clause2 (js "other").
Proof.
  cbv zeta.
  assert (H : Forall (matchesOnce (toLowerCase
                        (clause (lowClause "Either party may leave with 2 months notice."))))
                noticePatterns).
  { unfold noticePatterns.
    repeat (constructor;
            [intros m E; vm_compute in E; first [discriminate E | injection E as <-; cbn [length]; lia] |]).
    constructor. }
  split; [left; exact H |].
  exact (notice_period_stated_once_is_not_read _ _ (or_introl H)).
Defined.


Example notice_periods_read_and_not_read :
  analyzeDifference
    (lowClause "Give 2 months notice, or 2 months notice in writing.")
    (lowClause "Give 3 months notice, or 3 months notice in writing.") (js "notice")
  = js "Notice period differs: 2 vs 3 months"
  /\ analyzeDifference
       (lowClause "Either party may leave with 2 months notice.")
       (lowClause "Either party may leave with 3 months notice.") (js "notice")
     = js "Clause content differs between documents".
Proof. split; vm_compute; reflexivity. Qed.

(** ** When the comparison returns, in terms of the documents *)

Lemma findFrom_mentions (doc : nat) (matched : matchedSet) (kws : list jsstr) :
  forall cls i0 i c,
    findFrom i0 doc matched kws cls = Some (i, c) -> c ∈ cls /\ mentions kws c = true.
Proof.
  induction cls as [| d cls IH]; intros i0 i c; cbn [findFrom]; [discriminate |].
  destruct (negb (isMatched matched doc i0) && mentions kws d) eqn:E.
  - intros [= <- <-]. apply andb_true_iff in E as [_ E]. split; [left | assumption].
  - intros H. apply IH in H as [Hin Hm]. split; [right |]; assumption.
Qed.

Lemma findFrom_none (doc : nat) (matched : matchedSet) (kws : list jsstr)
  (cls : list ClauseAnalysis) :
  noneMentions kws cls -> forall i0, findFrom i0 doc matched kws cls = None.
Proof.
  induction 1 as [| c cls Hc _ IH]; intros i0; cbn [findFrom]; [reflexivity |].
  rewrite Hc, andb_false_r. apply IH.
Qed.

(** Where a typed pair comes from: a clause type of the list, and on each
    side that it has a clause that mentions a keyword of that type. *)
Lemma typedPairs_provenance (clauses1 clauses2 : list ClauseAnalysis)
  (types : list (jsstr * list jsstr)) :
  forall matched p,
    p ∈ snd (typedPairs clauses1 clauses2 matched types) ->
    (is_Some (p_left p) \/ is_Some (p_right p))
    /\ exists kws,
         (p_type p, kws) ∈ types
         /\ (is_Some (p_left p) -> exists c, c ∈ clauses1 /\ mentions kws c = true)
         /\ (is_Some (p_right p) -> exists c, c ∈ clauses2 /\ mentions kws c = true).
Proof.
  induction types as [| [type kws] types IH]; intros matched p; cbn [typedPairs].
  - cbn [snd]. intros H. inversion H.
  - assert (Hrest : forall m, p ∈ snd (typedPairs clauses1 clauses2 m types) ->
              (is_Some (p_left p) \/ is_Some (p_right p))
              /\ exists kws0,
                   (p_type p, kws0) ∈ (type, kws) :: types
                   /\ (is_Some (p_left p) -> exists c, c ∈ clauses1 /\ mentions kws0 c = true)
                   /\ (is_Some (p_right p) -> exists c, c ∈ clauses2 /\ mentions kws0 c = true)).
    { intros m Hp. apply IH in Hp as (Hside & kws0 & Hin & Hl & Hr).
      split; [assumption |]. exists kws0. split; [right; assumption | auto]. }
    assert (Hhere : forall f1 f2,
              findFrom 0 1 matched kws clauses1 = f1 ->
              findFrom 0 2 matched kws clauses2 = f2 ->
              is_Some f1 \/ is_Some f2 ->
              p = mkPair type (fst <$> f1) (fst <$> f2) ->
              (is_Some (p_left p) \/ is_Some (p_right p))
              /\ exists kws0,
                   (p_type p, kws0) ∈ (type, kws) :: types
                   /\ (is_Some (p_left p) -> exists c, c ∈ clauses1 /\ mentions kws0 c = true)
                   /\ (is_Some (p_right p) -> exists c, c ∈ clauses2 /\ mentions kws0 c = true)).
    { intros f1 f2 E1 E2 Hside ->. cbn [p_left p_right p_type]. split.
      - destruct Hside as [[x ->] | [x ->]]; [left | right]; cbn; eauto.
      - exists kws. split; [left |]. split.
        + intros [i Hi]. destruct f1 as [[i1 c1] |]; [| discriminate].
          apply findFrom_mentions in E1. eauto.
        + intros [i Hi]. destruct f2 as [[i2 c2] |]; [| discriminate].
          apply findFrom_mentions in E2. eauto. }
    destruct (findFrom 0 1 matched kws clauses1) as [f1 |] eqn:E1;
      destruct (findFrom 0 2 matched kws clauses2) as [f2 |] eqn:E2; cbn [snd].
    4: apply Hrest.
    all: intros Hp; apply elem_of_cons in Hp as [-> | Hp]; [| eapply Hrest; eassumption].
    all: eapply Hhere; eauto.
Qed.

Lemma typedPart_eq (clauses1 clauses2 : list ClauseAnalysis) :
  typedPart clauses1 clauses2 = snd (typedPairs clauses1 clauses2 ∅ clauseTypes).
Proof. unfold typedPart. reflexivity. Qed.

Lemma pairing_sides (clauses1 clauses2 : list ClauseAnalysis) :
  Forall (fun p => is_Some (p_left p) \/ is_Some (p_right p)) (pairing clauses1 clauses2).
Proof.
  unfold pairing. apply Forall_app. split.
  - rewrite typedPart_eq. apply Forall_forall. intros p Hp.
    exact (proj1 (typedPairs_provenance clauses1 clauses2 clauseTypes ∅ p Hp)).
  - unfold residualPart. cbv zeta.
    generalize (fst (typedPairs clauses1 clauses2 ∅ clauseTypes)). intros matched.
    apply Forall_app.
    split; (eapply Forall_impl; [apply residualPairs_shape |]);
      intros p [_ [[H _] | [_ H]]]; auto.
Qed.

Lemma length_omap_le {A B : Type} (f : A -> option B) (l : list A) :
  (length (omap f l) <= length l)%nat.
Proof. induction l as [| x l IH]; cbn; [lia |]. destruct (f x); cbn; lia. Qed.

Lemma length_sides (pairs : list Pair) :
  Forall (fun p => is_Some (p_left p) \/ is_Some (p_right p)) pairs ->
  (length pairs <= length (lefts pairs) + length (rights pairs))%nat.
Proof.
  unfold lefts, rights. induction 1 as [| p pairs Hp _ IH]; cbn; [lia |].
  destruct (p_left p), (p_right p); cbn; try lia.
  destruct Hp as [[? [=]] | [? [=]]].
Qed.

Lemma pairing_length (clauses1 clauses2 : list ClauseAnalysis) :
  (Nat.max (length clauses1) (length clauses2) <= length (pairing clauses1 clauses2)
   <= length clauses1 + length clauses2)%nat.
Proof.
  destruct (pairing_partition clauses1 clauses2) as [Hl Hr].
  pose proof (length_sides _ (pairing_sides clauses1 clauses2)) as Hs.
  revert Hl Hr Hs. generalize (pairing clauses1 clauses2). intros ps Hl Hr Hs.
  apply Permutation_length in Hl, Hr. rewrite length_seq in Hl, Hr.
  pose proof (length_omap_le p_left ps) as H1.
  pose proof (length_omap_le p_right ps) as H2.
  unfold lefts, rights in *. lia.
Qed.

(** X26.  The comparison returns a table whenever, for the type deposit
    and for the type notice, one of the two documents has no clause that
    mentions a keyword of the type; the table then has at least as many
    entries as the longer document has clauses and at most as many as the
    two documents have together. *)
Theorem comparison_returns_without_deposit_and_notice_pairs
  (clauses1 clauses2 : list ClauseAnalysis) :
  (forall type kws,
     (type, kws) ∈ clauseTypes -> type = js "deposit" \/ type = js "notice" ->
     noneMentions kws clauses1 \/ noneMentions kws clauses2) ->
  exists table,
    compareClausesDetailed clauses1 clauses2 = Ok table
    /\ (Nat.max (length clauses1) (length clauses2) <= length table
        <= length clauses1 + length clauses2)%nat.
Proof.
  intros Hfree.
  destruct (compare_returns clauses1 clauses2) as (table & Htable & Hlen).
  - rewrite typedPart_eq. apply Forall_forall. intros p Hp [Hl Hr].
    destruct (typedPairs_provenance clauses1 clauses2 clauseTypes ∅ p Hp)
      as (_ & kws & Hin & Hleft & Hright).
    destruct (Hleft Hl) as (c1 & Hc1 & Hm1). destruct (Hright Hr) as (c2 & Hc2 & Hm2).
    assert (Hno : forall cls c, noneMentions kws cls -> c ∈ cls -> mentions kws c = true -> False).
    { intros cls c Hnone Hc Hm. unfold noneMentions in Hnone. rewrite Forall_forall in Hnone.
      rewrite (Hnone c Hc) in Hm. discriminate. }
    split; intros Htype; rewrite Htype in Hin;
      (destruct (Hfree _ _ Hin) as [Hnone | Hnone]; [auto | |]; eapply Hno; eassumption).
  - exists table. split; [assumption |]. rewrite Hlen. apply pairing_length.
Qed.

Lemma comparison_returns_without_deposit_and_notice_pairs_witness :
  let clauses1 := [lowClause "Monthly rent is Rs. 15,000.";
                   lowClause "The security deposit is 2 months."] in
  let clauses2 := [lowClause "Rent is Rs. 18,000."; lowClause "Pets are allowed."] in
  (forall type kws,
     (type, kws) ∈ clauseTypes -> type = js "deposit" \/ type = js "notice" ->
     noneMentions kws clauses1 \/ noneMentions kws clauses2)
  /\ exists table,
       compareClausesDetailed clauses1 clauses2 = Ok table
       /\ (Nat.max (length clauses1) (length clauses2) <= length table
           <= length clauses1 + length clauses2)%nat.
Proof.
  cbv zeta.
  assert (H : forall type kws,
            (type, kws) ∈ clauseTypes -> type = js "deposit" \/ type = js "notice" ->
            noneMentions kws [lowClause "Monthly rent is Rs. 15,000.";
                              lowClause "The security deposit is 2 months."]
            \/ noneMentions kws [lowClause "Rent is Rs. 18,000."; lowClause "Pets are allowed."]).
  { intros type kws Hin Htype. apply list_elem_of_In in Hin. vm_compute in Hin.
    repeat (destruct Hin as [Hin | Hin];
            [injection Hin as <- <-;
             first [ destruct Htype as [Htype | Htype]; discriminate Htype
                   | right; repeat constructor; vm_compute; reflexivity
                   | left; repeat constructor; vm_compute; reflexivity ] |]).
    destruct Hin. }
  split; [exact H |].
  exact (comparison_returns_without_deposit_and_notice_pairs _ _ H).
Defined.

(** ** Comparison with a document without clauses *)

Lemma mapResult_Forall2 {A B : Type} (f : A -> result B) (l : list A) :
  forall ys, mapResult f l = Ok ys -> Forall2 (fun x y => f x = Ok y) l ys.
Proof.
  induction l as [| x l IH]; intros ys; cbn [mapResult].
  - intros [= <-]. constructor.
  - destruct (f x) as [y | e] eqn:Ex; cbn [mbind result_bind]; [| discriminate].
    destruct (mapResult f l) as [ys' | e]; cbn [mbind result_bind]; [| discriminate].
    intros [= <-]. constructor; [assumption | apply IH; reflexivity].
Qed.

Lemma omap_nil_Forall {A B : Type} (f : A -> option B) (l : list A) :
  omap f l = [] -> Forall (fun x => f x = None) l.
Proof.
  induction l as [| x l IH]; cbn; [constructor |].
  destruct (f x) eqn:E; [discriminate |]. intros H. constructor; auto.
Qed.

Lemma omap_lookup_all {A B : Type} (f : A -> B) (l : list A) :
  omap (fun i => f <$> l !! i) (seq 0 (length l)) = map f l.
Proof.
  transitivity (omap (fun x => Some (f x)) l).
  - apply list_omap_ext. apply Forall2_same_length_lookup. split; [apply length_seq |].
    intros i j x Hj Hx. apply lookup_seq in Hj as [-> _]. cbn [Nat.add].
    rewrite Hx. reflexivity.
  - induction l as [| x l IH]; cbn; [reflexivity | f_equal; assumption].
Qed.

(** The entries of a pairing whose pairs have no right side. *)
Lemma entries_left_only (clauses1 clauses2 : list ClauseAnalysis) (pairs : list Pair) :
  Forall (fun p => p_right p = None) pairs ->
  (forall i, i ∈ lefts pairs -> (i < length clauses1)%nat) ->
  Forall (fun p => is_Some (p_left p) \/ is_Some (p_right p)) pairs ->
  exists table,
    mapResult (entryOf clauses1 clauses2) pairs = Ok table
    /\ length table = length pairs
    /\ Forall (fun e => is_Some (doc1 e) /\ doc2 e = None
                        /\ difference e = js "Only present in Document 1") table
    /\ omap shownLeft table = omap (fun i => clause <$> clauses1 !! i) (lefts pairs).
Proof.
  intros Hright Hbound Hside.
  assert (Hok : Forall (fun p => exists e, entryOf clauses1 clauses2 p = Ok e) pairs).
  { eapply Forall_impl; [exact Hright |]. intros p Hp. unfold entryOf.
    apply generateClauseComparison_ok. right. left. rewrite Hp. reflexivity. }
  destruct (mapResult_ok _ _ Hok) as (table & Htable & Hlen).
  exists table. split; [assumption |]. split; [assumption |].
  apply mapResult_Forall2 in Htable. clear Hok Hlen.
  unfold lefts in *.
  induction Htable as [| p e pairs table He _ IH]; [split; [constructor | reflexivity] |].
  inversion Hright as [| ? ? Hr Hright']; subst.
  inversion Hside as [| ? ? Hs Hside']; subst.
  destruct (p_left p) as [i |] eqn:El; [| destruct Hs as [[? [=]] | [? Hs]]; congruence].
  assert (Hi : (i < length clauses1)%nat).
  { apply Hbound. cbn [omap list_omap]. rewrite El. left. }
  apply lookup_lt_is_Some in Hi as [c Hc].
  destruct IH as [IHall IHshown]; [assumption | | assumption |].
  { intros j Hj. apply Hbound. cbn [omap list_omap]. rewrite El. right. assumption. }
  apply entryOf_sides in He as (H1 & H2 & Hd & _).
  rewrite El, Hr in *. cbn [mbind option_bind] in H1, H2. rewrite Hc in H1.
  cbn [fmap option_fmap option_map] in H1, H2.
  assert (Hsome : is_Some (doc1 e)) by (rewrite H1; eauto).
  split.
  - constructor; [| assumption]. auto.
  - cbn [omap list_omap]. rewrite El. unfold shownLeft at 1. rewrite H1.
    cbn [omap list_omap]. rewrite Hc.
    cbn [fmap option_fmap option_map]. f_equal. exact IHshown.
Qed.

Lemma entries_right_only (clauses1 clauses2 : list ClauseAnalysis) (pairs : list Pair) :
  Forall (fun p => p_left p = None) pairs ->
  (forall i, i ∈ rights pairs -> (i < length clauses2)%nat) ->
  Forall (fun p => is_Some (p_left p) \/ is_Some (p_right p)) pairs ->
  exists table,
    mapResult (entryOf clauses1 clauses2) pairs = Ok table
    /\ length table = length pairs
    /\ Forall (fun e => doc1 e = None /\ is_Some (doc2 e)
                        /\ difference e = js "Only present in Document 2") table
    /\ omap shownRight table = omap (fun i => clause <$> clauses2 !! i) (rights pairs).
Proof.
  intros Hleft Hbound Hside.
  assert (Hok : Forall (fun p => exists e, entryOf clauses1 clauses2 p = Ok e) pairs).
  { eapply Forall_impl; [exact Hleft |]. intros p Hp. unfold entryOf.
    apply generateClauseComparison_ok. left. rewrite Hp. reflexivity. }
  destruct (mapResult_ok _ _ Hok) as (table & Htable & Hlen).
  exists table. split; [assumption |]. split; [assumption |].
  apply mapResult_Forall2 in Htable. clear Hok Hlen.
  unfold rights in *.
  induction Htable as [| p e pairs table He _ IH]; [split; [constructor | reflexivity] |].
  inversion Hleft as [| ? ? Hl Hleft']; subst.
  inversion Hside as [| ? ? Hs Hside']; subst.
  destruct (p_right p) as [i |] eqn:Er; [| destruct Hs as [[? Hs] | [? [=]]]; congruence].
  assert (Hi : (i < length clauses2)%nat).
  { apply Hbound. cbn [omap list_omap]. rewrite Er. left. }
  apply lookup_lt_is_Some in Hi as [c Hc].
  destruct IH as [IHall IHshown]; [assumption | | assumption |].
  { intros j Hj. apply Hbound. cbn [omap list_omap]. rewrite Er. right. assumption. }
  apply entryOf_sides in He as (H1 & H2 & _ & Hd).
  rewrite Hl, Er in *. cbn [mbind option_bind] in H1, H2. rewrite Hc in H2.
  cbn [fmap option_fmap option_map] in H1, H2.
  assert (Hsome : is_Some (doc2 e)) by (rewrite H2; eauto).
  split.
  - constructor; [| assumption]. auto.
  - cbn [omap list_omap]. rewrite Er. unfold shownRight at 1. rewrite H2.
    cbn [omap list_omap]. rewrite Hc.
    cbn [fmap option_fmap option_map]. f_equal. exact IHshown.
Qed.

(** X27.  Compared with a document without clauses, a document gives a
    table with one entry per clause: every entry shows one clause of the
    document and nothing on the other side, and reads "Only present in
    Document 1" (or 2); the clauses shown are the clauses of the document,
    each once. *)
Theorem comparison_with_an_empty_document (cls : list ClauseAnalysis) :
  (exists table,
     compareClausesDetailed cls [] = Ok table
     /\ length table = length cls
     /\ Forall (fun e => is_Some (doc1 e) /\ doc2 e = None
                         /\ difference e = js "Only present in Document 1") table
     /\ omap shownLeft table ≡ₚ map clause cls)
  /\ (exists table,
        compareClausesDetailed [] cls = Ok table
        /\ length table = length cls
        /\ Forall (fun e => doc1 e = None /\ is_Some (doc2 e)
                            /\ difference e = js "Only present in Document 2") table
        /\ omap shownRight table ≡ₚ map clause cls).
Proof.
  split.
  - rewrite compare_is_pairing.
    destruct (pairing_partition cls []) as [Hl Hr].
    pose proof (pairing_sides cls []) as Hside.
    revert Hl Hr Hside. generalize (pairing cls []). intros pairs Hl Hr Hside.
    cbn [length seq] in Hr. apply Permutation_nil_r in Hr.
    apply omap_nil_Forall in Hr.
    destruct (entries_left_only cls [] pairs Hr) as (table & Htable & Hlen & Hall & Hshown).
    { intros i Hi. rewrite Hl in Hi. apply elem_of_seq in Hi. lia. }
    { assumption. }
    exists table. split; [assumption |]. split; [| split; [assumption |]].
    + rewrite Hlen. apply Permutation_length in Hl. rewrite length_seq in Hl.
      rewrite <- Hl. unfold lefts. clear -Hr Hside.
      induction Hr as [| p pairs Hp _ IH]; [reflexivity |].
      inversion Hside as [| ? ? Hs Hside']; subst. cbn [omap list_omap length].
      destruct (p_left p); [cbn [length]; f_equal; auto |].
      destruct Hs as [[? [=]] | [? Hs]]. congruence.
    + rewrite Hshown, Hl. rewrite omap_lookup_all. reflexivity.
  - rewrite compare_is_pairing.
    destruct (pairing_partition [] cls) as [Hl Hr].
    pose proof (pairing_sides [] cls) as Hside.
    revert Hl Hr Hside. generalize (pairing [] cls). intros pairs Hl Hr Hside.
    cbn [length seq] in Hl. apply Permutation_nil_r in Hl.
    apply omap_nil_Forall in Hl.
    destruct (entries_right_only [] cls pairs Hl) as (table & Htable & Hlen & Hall & Hshown).
    { intros i Hi. rewrite Hr in Hi. apply elem_of_seq in Hi. lia. }
    { assumption. }
    exists table. split; [assumption |]. split; [| split; [assumption |]].
    + rewrite Hlen. apply Permutation_length in Hr. rewrite length_seq in Hr.
      rewrite <- Hr. unfold rights. clear -Hl Hside.
      induction Hl as [| p pairs Hp _ IH]; [reflexivity |].
      inversion Hside as [| ? ? Hs Hside']; subst. cbn [omap list_omap length].
      destruct (p_right p); [cbn [length]; f_equal; auto |].
      destruct Hs as [[? Hs] | [? [=]]]. congruence.
    + rewrite Hshown, Hr. rewrite omap_lookup_all. reflexivity.
Qed.

(** ** Pages of the clauses *)

Lemma div_succ (i s : nat) :
  (1 <= s)%nat ->
  (S i / s = i / s + (if (S i mod s =? 0)%nat then 1 else 0))%nat.
Proof.
  intros Hs.
  pose proof (Nat.div_mod_eq i s) as Hi.
  pose proof (Nat.mod_upper_bound i s ltac:(lia)) as Hr.
  destruct (Nat.eq_dec (S (i mod s)) s) as [E | E].
  - assert (Hq : S i = (s * (i / s + 1) + 0)%nat) by lia.
    assert (Hm : (S i mod s = 0)%nat).
    { symmetry. apply (Nat.mod_unique (S i) s (i / s + 1) 0); lia. }
    rewrite Hm. cbn [Nat.eqb]. symmetry.
    apply (Nat.div_unique (S i) s (i / s + 1) 0); lia.
  - assert (Hm : (S i mod s = S (i mod s))%nat).
    { symmetry. apply (Nat.mod_unique (S i) s (i / s) (S (i mod s))); lia. }
    rewrite Hm. cbn [Nat.eqb]. rewrite Nat.add_0_r. symmetry.
    apply (Nat.div_unique (S i) s (i / s) (S (i mod s))); lia.
Qed.

Lemma analyzeClauses_lookup (stride : nat) (replies : nat -> nat -> Reply) :
  (1 <= stride)%nat ->
  forall units i k a,
    analyzeClauses stride i (1 + i / stride) replies units !! k = Some a ->
    page a = (1 + (i + k) / stride)%nat
    /\ exists u, units !! k = Some u /\ clause a = text u.
Proof.
  intros Hs. induction units as [| u units IH]; intros i k a; cbn [analyzeClauses];
    [discriminate |].
  destruct k as [| k].
  - intros [= <-]. rewrite Nat.add_0_r. split; [reflexivity |]. exists u. split; reflexivity.
  - cbn [lookup list_lookup].
    replace (if (S i mod stride =? 0)%nat then S (1 + i / stride) else (1 + i / stride)%nat)
      with (1 + S i / stride)%nat
      by (rewrite (div_succ i stride Hs); destruct (S i mod stride =? 0)%nat; lia).
    intros H. apply IH in H as [Hp Hu].
    split; [rewrite Hp; f_equal; f_equal; lia | exact Hu].
Qed.

Lemma analyzeClauses_from_start (stride : nat) (replies : nat -> nat -> Reply)
  (units : list ClauseUnit) (k : nat) (a : ClauseAnalysis) :
  (1 <= stride)%nat ->
  analyzeClauses stride 0 1 replies units !! k = Some a ->
  page a = (1 + k / stride)%nat
  /\ exists u, units !! k = Some u /\ clause a = text u.
Proof.
  intros Hs H.
  assert (Hstart : (1 + 0 / stride = 1)%nat) by (rewrite Nat.Div0.div_0_l; reflexivity).
  rewrite <- Hstart in H. apply analyzeClauses_lookup in H; assumption.
Qed.

Lemma length_analyzeClauses (stride : nat) (replies : nat -> nat -> Reply)
  (units : list ClauseUnit) :
  forall i p, length (analyzeClauses stride i p replies units) = length units.
Proof.
  induction units as [| u units IH]; intros i p; cbn [analyzeClauses length]; [reflexivity |].
  rewrite IH. reflexivity.
Qed.

Lemma pageStride_spec (n pages : nat) :
  (1 <= n)%nat ->
  (1 <= pageStride n pages)%nat
  /\ (n <= pageStride n pages * Nat.max 1 pages)%nat.
Proof.
  intros Hn. unfold pageStride.
  assert (Hp : (if (pages =? 0)%nat then 1%nat else pages) = Nat.max 1 pages)
    by (destruct pages; cbn; lia).
  rewrite Hp. set (p := Nat.max 1 pages). assert (1 <= p)%nat by lia.
  pose proof (Nat.div_mod_eq (n + p - 1) p) as Hd.
  pose proof (Nat.mod_upper_bound (n + p - 1) p ltac:(lia)) as Hr.
  split; [| nia].
  apply (Nat.div_le_lower_bound (n + p - 1) p 1); lia.
Qed.

(** X28.  The routes analyze the clause units in order, one analysis per
    unit, each holding the text of its unit; with [stride] the number of
    units divided by the number of pages, rounded up, the analysis at
    position [k] is put on page [1 + floor(k / stride)], a page between 1
    and the number of pages of the document (1 when that number is 0). *)
Theorem clauses_are_paged_within_the_document (fuel : nat) (extractedText : jsstr)
  (pages : nat) (replies : nat -> nat -> Reply) (analyzed : list ClauseAnalysis) :
  analyzeText fuel extractedText pages replies = Some analyzed ->
  exists units,
    splitIntoClause fuel extractedText defaultMaxTokens = Some units
    /\ map clause analyzed = map text units
    /\ forall k a, analyzed !! k = Some a ->
         page a = (1 + k / pageStride (length units) pages)%nat
         /\ (1 <= page a <= Nat.max 1 pages)%nat.
Proof.
  unfold analyzeText.
  destruct (splitIntoClause fuel extractedText defaultMaxTokens) as [units |];
    [| discriminate].
  intros [= <-]. exists units. split; [reflexivity |].
  destruct units as [| u0 units0] eqn:Eu; [split; [reflexivity | intros k a H; discriminate H] |].
  rewrite <- Eu in *.
  assert (Hn : (1 <= length units)%nat) by (rewrite Eu; cbn [length]; lia).
  destruct (pageStride_spec (length units) pages Hn) as [Hs Hcover].
  split.
  - apply list_eq. intros k. rewrite !list_lookup_fmap.
    destruct (analyzeClauses _ 0 1 replies units !! k) as [a |] eqn:Ea.
    + apply analyzeClauses_from_start in Ea as [_ (u & Hu & Hc)]; [| assumption].
      rewrite Hu. cbn [fmap option_fmap option_map]. rewrite Hc. reflexivity.
    + apply lookup_ge_None in Ea. rewrite length_analyzeClauses in Ea.
      rewrite (proj2 (lookup_ge_None units k)) by assumption. reflexivity.
  - intros k a Ha. apply analyzeClauses_from_start in Ha as [Hp (u & Hu & _)]; [| assumption].
    split; [exact Hp |].
    apply lookup_lt_Some in Hu.
    assert (k / pageStride (length units) pages < Nat.max 1 pages)%nat
      by (apply Nat.Div0.div_lt_upper_bound; lia).
    lia.
Qed.

Lemma clauses_are_paged_within_the_document_witness :
  let replies := fun _ _ : nat => ReplyError (js "503 Service Unavailable") in
  let analyzed := [analyzeClause (js "Tenant pays rent.") 1 (replies 0%nat)] in
  analyzeText 30 (js " Tenant pays  rent. ") 3 replies = Some analyzed
  /\ exists units,
       splitIntoClause 30 (js " Tenant pays  rent. ") defaultMaxTokens = Some units
       /\ map clause analyzed = map text units
       /\ forall k a, analyzed !! k = Some a ->
            page a = (1 + k / pageStride (length units) 3)%nat
            /\ (1 <= page a <= Nat.max 1 3)%nat.
Proof.
  cbv zeta. split; [vm_compute; reflexivity |].
  apply (clauses_are_paged_within_the_document 30 (js " Tenant pays  rent. ") 3
           (fun _ _ : nat => ReplyError (js "503 Service Unavailable"))).
  vm_compute. reflexivity.
Defined.

(** ** Scheduler: the time between two calls *)

Lemma canMakeRequest_now (st : State) :
  now (fst (canMakeRequest st)) = now st
  /\ (snd (canMakeRequest st) = false ->
      fst (canMakeRequest st) = st
      /\ (now st - lastResetTime st < requestWindow)%Z).
Proof.
  unfold canMakeRequest, resetRequestCount.
  destruct (Z.leb_spec requestWindow (now st - lastResetTime st)); cbn [fst snd now requestCount].
  - split; [reflexivity | discriminate].
  - split; [reflexivity | auto].
Qed.

(** The dispatches are made in the order of the queue, none before the
    scheduler starts, and each at least the duration of the call before,
    one second and the lateness of the timer after the one before. *)
Lemma processQueue_spaced :
  forall fuel st queue st' ds,
    processQueue fuel st queue = Some (st', ds) ->
    Forall taskOk queue ->
    length ds = length queue
    /\ (forall d, ds !! 0%nat = Some d -> (now st <= time d)%Z)
    /\ (forall i a b t,
          ds !! i = Some a -> ds !! S i = Some b -> queue !! i = Some t ->
          (time a + duration t + 1000 + lateness t <= time b)%Z).
Proof.
  induction fuel as [| fuel IH]; intros st queue st' ds Hrun Hq; [discriminate |].
  destruct queue as [| task rest].
  - cbn [processQueue] in Hrun. injection Hrun as <- <-.
    split; [reflexivity |]. split; intros; discriminate.
  - rewrite processQueue_cons in Hrun.
    destruct (canMakeRequest_now st) as [Hnow Hwait].
    inversion Hq as [| ? ? [Hdur Hlate] Hrest]; subst.
    destruct (snd (canMakeRequest st)) eqn:Eok.
    + destruct (processQueue fuel _ rest) as [[st2 ds2] |] eqn:E; [| discriminate].
      injection Hrun as <- <-.
      apply IH in E as (Hlen & Hfirst & Hspaced); [| assumption].
      cbn [sleep now requestCount lastResetTime] in Hfirst.
      split; [cbn [length]; lia |]. split.
      * intros d [= <-]. cbn [time].
        change (now (resetRequestCount st)) with (now (fst (canMakeRequest st))).
        rewrite Hnow. lia.
      * intros [| i] a b t Ha Hb Ht.
        -- injection Ha as <-. injection Ht as <-. cbn [time lookup list_lookup] in *.
           specialize (Hfirst b Hb).
           change (now (resetRequestCount st)) with (now (fst (canMakeRequest st))). lia.
        -- apply (Hspaced i a b t); assumption.
    + destruct (Hwait eq_refl) as [Hst Hin]. rewrite Hst in Hrun.
      apply IH in Hrun as (Hlen & Hfirst & Hspaced); [| assumption].
      split; [assumption |]. split; [| assumption].
      intros d Hd. specialize (Hfirst d Hd).
      cbn [sleep now] in Hfirst. unfold requestWindow in *. lia.
Qed.

(** X29.  The scheduler hands the requests to the external model in the
    order of the queue, one dispatch per request, none before the moment
    it starts; between two consecutive dispatches pass at least the
    duration of the first call and one second: at most one call is made
    per second, and no call starts before the call before it has
    settled. *)
Theorem dispatches_are_spaced (fuel : nat) (st st' : State) (queue : list Task)
  (ds : list Dispatch) :
  Forall taskOk queue ->
  processQueue fuel st queue = Some (st', ds) ->
  length ds = length queue
  /\ Forall (fun d => (now st <= time d)%Z) ds
  /\ (forall i a b t,
        ds !! i = Some a -> ds !! S i = Some b -> queue !! i = Some t ->
        (time a + duration t + 1000 <= time b)%Z).
Proof.
  intros Hq Hrun.
  destruct (processQueue_spaced _ _ _ _ _ Hrun Hq) as (Hlen & Hfirst & Hspaced).
  split; [assumption |]. split.
  - assert (Hall : forall i d, ds !! i = Some d -> (now st <= time d)%Z).
    { induction i as [| i IHi]; intros d Hd; [auto |].
      destruct (ds !! i) as [a |] eqn:Ea.
      - assert (Hi : (i < length queue)%nat)
          by (rewrite <- Hlen; eapply lookup_lt_Some; eassumption).
        apply lookup_lt_is_Some in Hi as [t Ht].
        pose proof (Hspaced i a d t Ea Hd Ht) as Hsp. specialize (IHi a eq_refl).
        rewrite Forall_forall in Hq.
        destruct (Hq t (list_elem_of_lookup_2 _ _ _ Ht)) as [Hdur Hlate]. lia.
      - apply lookup_ge_None in Ea. apply lookup_lt_Some in Hd. lia. }
    apply Forall_lookup. exact Hall.
  - intros i a b t Ha Hb Ht. pose proof (Hspaced i a b t Ha Hb Ht) as Hsp.
    rewrite Forall_forall in Hq.
    destruct (Hq t (list_elem_of_lookup_2 _ _ _ Ht)) as [_ Hlate]. lia.
Qed.

Lemma dispatches_are_spaced_witness :
  let ds := map (fun t => mkDispatch t 0) [55000; 56200; 57400; 58600; 59800]%Z
            ++ map (fun t => mkDispatch t 61000)
                 [61000; 62200; 63400; 64600; 65800; 67000; 68200; 69400; 70600; 71800]%Z in
  Forall taskOk burst
  /\ processQueue 16 lateStart burst = Some (mkState 10 61000 73000, ds)
  /\ length ds = length burst
  /\ Forall (fun d => (now lateStart <= time d)%Z) ds
  /\ (forall i a b t,
        ds !! i = Some a -> ds !! S i = Some b -> burst !! i = Some t ->
        (time a + duration t + 1000 <= time b)%Z).
Proof.
  cbv zeta.
  assert (Hq : Forall taskOk burst) by (repeat constructor; cbn; lia).
  split; [exact Hq |]. split; [vm_compute; reflexivity |].
  apply (dispatches_are_spaced 16 lateStart (mkState 10 61000 73000) burst _ Hq).
  vm_compute. reflexivity.
Defined.

(** X30.  While the budget lasts the scheduler never waits: when the
    requests counted so far and the requests queued are at most twelve,
    every request is dispatched as soon as the requests before it have
    settled and their delays of one second have passed, whatever the
    state of the counting window. *)
Theorem no_wait_within_budget (st : State) (queue : list Task) :
  (requestCount st + length queue <= maxRequestsPerMinute)%nat ->
  exists st' ds,
    processQueue (S (length queue)) st queue = Some (st', ds)
    /\ length ds = length queue
    /\ forall i d, ds !! i = Some d -> time d = (now st + elapsed (take i queue))%Z.
Proof.
  revert st. induction queue as [| task rest IH]; intros st Hroom.
  - exists st, []. split; [reflexivity |]. split; [reflexivity |]. intros i d H. discriminate.
  - cbn [length] in *. rewrite processQueue_cons. unfold canMakeRequest. cbn [fst snd].
    assert (Hnow : now (resetRequestCount st) = now st).
    { unfold resetRequestCount.
      destruct (requestWindow <=? now st - lastResetTime st)%Z; reflexivity. }
    assert (Hcount : (requestCount (resetRequestCount st) <= requestCount st)%nat).
    { unfold resetRequestCount.
      destruct (requestWindow <=? now st - lastResetTime st)%Z; cbn; lia. }
    assert (Hok : (requestCount (resetRequestCount st) <? maxRequestsPerMinute)%nat = true)
      by (apply Nat.ltb_lt; lia).
    rewrite Hok.
    match goal with |- context [processQueue _ ?s rest] =>
      destruct (IH s) as (st' & ds & Hrun & Hlen & Htimes) end.
    { cbn [sleep requestCount]. lia. }
    rewrite Hrun. eexists _, _. split; [reflexivity |]. split; [cbn [length]; lia |].
    intros [| i] d Hd.
    + injection Hd as <-. cbn [time take elapsed fold_right]. lia.
    + cbn [lookup list_lookup] in Hd. apply Htimes in Hd. rewrite Hd.
      cbn [sleep now take elapsed fold_right]. fold (elapsed (take i rest)). lia.
Qed.

Lemma no_wait_within_budget_witness :
  (requestCount (mkState 9 0 59000) + length threeTasks <= maxRequestsPerMinute)%nat
  /\ exists st' ds,
       processQueue (S (length threeTasks)) (mkState 9 0 59000) threeTasks = Some (st', ds)
       /\ length ds = length threeTasks
       /\ forall i d, ds !! i = Some d ->
            time d = (now (mkState 9 0 59000) + elapsed (take i threeTasks))%Z.
Proof.
  assert (H : (requestCount (mkState 9 0 59000) + length threeTasks
               <= maxRequestsPerMinute)%nat) by (vm_compute; lia).
  split; [exact H |].
  exact (no_wait_within_budget (mkState 9 0 59000) threeTasks H).
Defined.
